(** * LightJSON (json.hpp): value model, projections, serializer and parser

    A shallow embedding of [class JSON], [struct JSONTypeTraits] and
    [class JSONParser] of json.hpp, and the properties of the specification
    checked against it.

    Conventions of the embedding:
    - [std::string] is a [list byte]; [char] comparisons go through the
      numeric value of the byte, signed or unsigned as the platform has it
      (a parameter of the serializer);
    - [int] is a [Z] in the 32-bit range; [double] is an IEEE binary64 number,
      [spec_float] with precision 53 and maximal exponent 1024;
    - [std::vector<JSON>] is a [list JSON]; [std::map<std::string, JSON>] is an
      association list kept in strictly increasing key order;
    - a C++ exception is a value of [exn]; an out-of-bounds read of the input
      buffer is the outcome [Undefined];
    - the [std::ostringstream] of the serializer is a record with the bytes
      written so far and its sticky formatting flags;
    - the parser object is a record [parser], threaded through a state and
      error monad; its loops and mutual recursion are driven by a fuel
      argument which the entry point [parse] sets from the input length and
      which is shown never to run out. *)

From Stdlib Require Import ZArith List Bool Lia.
From Stdlib Require Strings.String.
From Stdlib Require Import Strings.Byte.
Import String.StringSyntax.
Local Open Scope string_scope.
From Stdlib Require Import Floats.SpecFloat.
Import ListNotations.

Local Open Scope Z_scope.
Local Open Scope list_scope.

(** ** Bytes and strings *)

Definition str (s : String.string) : list byte := String.list_byte_of_string s.

(** The value of a byte as an [unsigned char]. *)
Definition code (c : byte) : Z := Z.of_N (Byte.to_N c).

Definition byte_of_code (n : Z) : byte :=
  match Byte.of_N (Z.to_N n) with Some b => b | None => x00 end.

Fixpoint bytes_eqb (a b : list byte) : bool :=
  match a, b with
  | [], [] => true
  | x :: a', y :: b' => Byte.eqb x y && bytes_eqb a' b'
  | _, _ => false
  end.

(** [std::string::compare]: lexicographic on [unsigned char] values, a proper
    prefix being smaller.  It is the order of the keys of [std::map]. *)
Fixpoint string_compare (a b : list byte) : comparison :=
  match a, b with
  | [], [] => Eq
  | [], _ :: _ => Lt
  | _ :: _, [] => Gt
  | x :: a', y :: b' =>
      match Z.compare (code x) (code y) with
      | Eq => string_compare a' b'
      | c => c
      end
  end.

Definition string_lt (a b : list byte) : bool :=
  match string_compare a b with Lt => true | _ => false end.

(** ** Exceptions and outcomes *)

(** The exception types the code throws: [std::runtime_error] with its message
    (every [throw] of json.hpp), [std::out_of_range] ([std::map::at],
    [std::stoi], [std::stod]) and [std::invalid_argument] ([std::stoi],
    [std::stod]). *)
Inductive exn : Type :=
| runtime_error (what : list byte)
| out_of_range
| invalid_argument.

(** Outcome of a call: a value, an exception, or undefined behaviour. *)
Inductive outcome (A : Type) : Type :=
| Return (a : A)
| Raise (e : exn)
| UndefinedBehaviour.

Arguments Return {A} a.
Arguments Raise {A} e.
Arguments UndefinedBehaviour {A}.

(** ** Numbers *)

Definition INT_MIN : Z := - 2147483648.
Definition INT_MAX : Z := 2147483647.
Definition LONG_MIN : Z := - 9223372036854775808.
Definition LONG_MAX : Z := 9223372036854775807.

Definition in_int_range (i : Z) : bool := (INT_MIN <=? i) && (i <=? INT_MAX).

(** A [double]: IEEE binary64. *)
Definition double : Type := spec_float.

Definition double_prec : Z := 53.
Definition double_emax : Z := 1024.

Definition double_eqb (x y : double) : bool :=
  match x, y with
  | S754_zero s, S754_zero s' => Bool.eqb s s'
  | S754_infinity s, S754_infinity s' => Bool.eqb s s'
  | S754_nan, S754_nan => true
  | S754_finite s m e, S754_finite s' m' e' =>
      Bool.eqb s s' && Pos.eqb m m' && Z.eqb e e'
  | _, _ => false
  end.

(** ** The value model: [class JSON] *)

Inductive Type_ : Type := Null | Boolean | Integer | Double | String | Array | Object.

Definition Type_eqb (a b : Type_) : bool :=
  match a, b with
  | Null, Null | Boolean, Boolean | Integer, Integer | Double, Double
  | String, String | Array, Array | Object, Object => true
  | _, _ => false
  end.

(** The tag and the active member of the union together. *)
#[local] Unset Elimination Schemes.
Inductive JSON : Type :=
| JNull
| JBoolean (boolean : bool)
| JInteger (integer : Z)
| JDouble (doubleVal : double)
| JString (string_ : list byte)
| JArray (array : list JSON)
| JObject (object : list (list byte * JSON)).
#[local] Set Elimination Schemes.

Definition getType (v : JSON) : Type_ :=
  match v with
  | JNull => Null
  | JBoolean _ => Boolean
  | JInteger _ => Integer
  | JDouble _ => Double
  | JString _ => String
  | JArray _ => Array
  | JObject _ => Object
  end.

(** Induction over values that reaches the elements of arrays and the members
    of objects. *)
Section JSON_induction.
Variable P : JSON -> Prop.
Hypothesis HNull : P JNull.
Hypothesis HBoolean : forall b, P (JBoolean b).
Hypothesis HInteger : forall i, P (JInteger i).
Hypothesis HDouble : forall d, P (JDouble d).
Hypothesis HString : forall s, P (JString s).
Hypothesis HArray : forall a, Forall P a -> P (JArray a).
Hypothesis HObject : forall o, Forall (fun kv => P (snd kv)) o -> P (JObject o).

Fixpoint JSON_nested_ind (v : JSON) : P v :=
  match v with
  | JNull => HNull
  | JBoolean b => HBoolean b
  | JInteger i => HInteger i
  | JDouble d => HDouble d
  | JString s => HString s
  | JArray a =>
      HArray a
        ((fix elems (l : list JSON) : Forall P l :=
            match l with
            | [] => Forall_nil _
            | x :: l' => Forall_cons x (JSON_nested_ind x) (elems l')
            end) a)
  | JObject o =>
      HObject o
        ((fix members (l : list (list byte * JSON)) :
            Forall (fun kv => P (snd kv)) l :=
            match l with
            | [] => Forall_nil _
            | kv :: l' =>
                @Forall_cons _ (fun kv => P (snd kv)) kv l'
                  (JSON_nested_ind (snd kv)) (members l')
            end) o)
  end.
End JSON_induction.

(** *** [std::map<std::string, JSON>] *)

Definition map_t : Type := list (list byte * JSON).

(** [find]: the entry stored under [key], if any. *)
Fixpoint map_find (key : list byte) (m : map_t) : option JSON :=
  match m with
  | [] => None
  | (k, v) :: m' => if bytes_eqb key k then Some v else map_find key m'
  end.

(** [m[key] = value]: overwrite the entry of [key], or insert it at its place
    in key order. *)
Fixpoint map_set (key : list byte) (value : JSON) (m : map_t) : map_t :=
  match m with
  | [] => [(key, value)]
  | (k, v) :: m' =>
      match string_compare key k with
      | Lt => (key, value) :: (k, v) :: m'
      | Eq => (k, value) :: m'
      | Gt => (k, v) :: map_set key value m'
      end
  end.

(** [operator[]] of the map: a default-constructed [JSON] (Null) is inserted
    when [key] is absent; the reference returned is to the entry of [key]. *)
Definition map_subscript (key : list byte) (m : map_t) : map_t :=
  match map_find key m with
  | Some _ => m
  | None => map_set key JNull m
  end.

(** [at]: [std::out_of_range] when [key] is absent. *)
Definition map_at (key : list byte) (m : map_t) : outcome JSON :=
  match map_find key m with
  | Some v => Return v
  | None => Raise out_of_range
  end.

(** The invariant of [std::map]: keys strictly increasing. *)
Definition keys_above (k : list byte) (m : map_t) : Prop :=
  match m with
  | [] => True
  | (k', _) :: _ => string_compare k k' = Lt
  end.

Fixpoint map_sorted (m : map_t) : Prop :=
  match m with
  | [] => True
  | (k, _) :: m' => keys_above k m' /\ map_sorted m'
  end.

(** *** Keyed access *)

Definition not_an_object_message (key : list byte) : list byte :=
  str "Field " ++ [x22] ++ key ++ [x22] ++ str " is not an object.".

(** [JSON& operator[](const std::string& key)].  The result is the state of
    [*this] after the call and the outcome; on [Return] the reference handed
    back designates the entry of [key] in the object of the new state.  A
    Null value is first turned into an empty object. *)
Definition subscript (this : JSON) (key : list byte) : JSON * outcome unit :=
  match this with
  | JObject object => (JObject (map_subscript key object), Return tt)
  | JNull => (JObject (map_subscript key []), Return tt)
  | _ => (this, Raise (runtime_error (not_an_object_message key)))
  end.

(** [const JSON& operator[](const std::string& key) const]. *)
Definition subscript_const (this : JSON) (key : list byte) : outcome JSON :=
  match this with
  | JObject object => map_at key object
  | _ => Raise (runtime_error (not_an_object_message key))
  end.

(** A reference obtained by keyed access from a root value: the keys followed
    from the root. *)
Definition ref : Type := list (list byte).

Fixpoint deref (root : JSON) (r : ref) : option JSON :=
  match r with
  | [] => Some root
  | k :: r' =>
      match root with
      | JObject object =>
          match map_find k object with
          | Some v => deref v r'
          | None => None
          end
      | _ => None
      end
  end.

(** The root after the value designated by [r] has been replaced by [f] of
    it. *)
Fixpoint update_at (root : JSON) (r : ref) (f : JSON -> JSON) : JSON :=
  match r with
  | [] => f root
  | k :: r' =>
      match root with
      | JObject object =>
          match map_find k object with
          | Some v => JObject (map_set k (update_at v r' f) object)
          | None => root
          end
      | _ => root
      end
  end.

(** [r[key]] for a reference [r] into [root]: the mutable [operator[]] applied
    to the designated value, in place. *)
Definition subscript_ref (root : JSON) (r : ref) (key : list byte)
  : JSON * outcome ref :=
  match deref root r with
  | Some v =>
      match subscript v key with
      | (v', Return _) => (update_at root r (fun _ => v'), Return (r ++ [key]))
      | (v', Raise e) => (update_at root r (fun _ => v'), Raise e)
      | (v', UndefinedBehaviour) => (root, UndefinedBehaviour)
      end
  | None => (root, UndefinedBehaviour)
  end.

(** [r = x] for a reference [r] into [root]: [JSON::operator=]. *)
Definition assign_ref (root : JSON) (r : ref) (x : JSON) : JSON :=
  update_at root r (fun _ => x).

(** ** Type projection: [JSONTypeTraits<T>::get] *)

(** [JSONTypeTraits<bool>]. *)
Definition JSONTypeTraits_bool_get (json : JSON) : outcome bool :=
  match json with
  | JBoolean b => Return b
  | _ => Raise (runtime_error (str "Not a boolean"))
  end.

(** [JSONTypeTraits<int>], the explicit specialization. *)
Definition JSONTypeTraits_int_get (json : JSON) : outcome Z :=
  match json with
  | JInteger i => Return i
  | _ => Raise (runtime_error (str "Not an integer"))
  end.

(** [JSONTypeTraits<double>]. *)
Definition JSONTypeTraits_double_get (json : JSON) : outcome double :=
  match json with
  | JDouble d => Return d
  | _ => Raise (runtime_error (str "Not a double"))
  end.

(** [JSONTypeTraits<std::string>]. *)
Definition JSONTypeTraits_string_get (json : JSON) : outcome (list byte) :=
  match json with
  | JString s => Return s
  | _ => Raise (runtime_error (str "Not a string"))
  end.

(** The value of a finite double with its fraction discarded. *)
Definition double_trunc (d : double) : option Z :=
  match d with
  | S754_zero _ => Some 0
  | S754_finite s m e =>
      let a := if 0 <=? e then Zpos m * 2 ^ e else Zpos m / 2 ^ (- e) in
      Some (if s then - a else a)
  | _ => None
  end.

(** [static_cast<T>(double)] for a signed integer type [T] with values
    [lo..hi]: undefined when the truncated value is not representable. *)
Definition static_cast_double (lo hi : Z) (d : double) : outcome Z :=
  match double_trunc d with
  | Some z => if (lo <=? z) && (z <=? hi) then Return z else UndefinedBehaviour
  | None => UndefinedBehaviour
  end.

(** The partial specialization for arithmetic types at [T = long]:
    [static_cast<long>(json.integer)] keeps the value, as [long] holds every
    [int], and [static_cast<long>(json.doubleVal)] discards the fraction.
    Other arithmetic types convert differently ([short], [unsigned] and
    [char] do not hold every [int], [float] keeps a fraction) and are not
    embedded. *)
Definition JSONTypeTraits_arithmetic_long_get (json : JSON) : outcome Z :=
  match json with
  | JInteger i => Return i
  | JDouble d => static_cast_double LONG_MIN LONG_MAX d
  | _ => Raise (runtime_error (str "Not a numeric type"))
  end.

(** [get<int>()]: [JSONTypeTraits<int>] names the explicit specialization,
    which is chosen over the partial one for arithmetic types. *)
Definition get_int (this : JSON) : outcome Z := JSONTypeTraits_int_get this.

(** [get<long>()]: no explicit specialization, the arithmetic one applies. *)
Definition get_long (this : JSON) : outcome Z :=
  JSONTypeTraits_arithmetic_long_get this.

(** ** Text of numbers *)

(** The digit [d] (below 16) as a character, lower case. *)
Definition digit_char (d : Z) : byte :=
  byte_of_code (if d <? 10 then 48 + d else 87 + d).

(** The digits of [n >= 0] in [base], most significant first, in front of
    [acc]. *)
Fixpoint digits_acc (fuel : nat) (base n : Z) (acc : list byte) : list byte :=
  match fuel with
  | O => acc
  | S f =>
      let acc' := digit_char (n mod base) :: acc in
      if n / base =? 0 then acc' else digits_acc f base (n / base) acc'
  end.

Definition digits_of (base n : Z) : list byte :=
  digits_acc (S (Z.to_nat (Z.log2 n))) base n [].

(** An [int] in decimal, as [operator<<] and [%d] print it. *)
Definition dec_of_int (i : Z) : list byte :=
  if i <? 0 then x2d :: digits_of 10 (- i) else digits_of 10 i.

(** An [int] in hexadecimal: the digits of its 32-bit unsigned value. *)
Definition hex_of_int (i : Z) : list byte := digits_of 16 (i mod 2 ^ 32).

Definition is_digit (c : byte) : bool := (48 <=? code c) && (code c <=? 57).

Definition digit_value (c : byte) : Z := code c - 48.

(** The number written by a run of decimal digits. *)
Definition digits_value (ds : list byte) : Z :=
  fold_left (fun acc c => 10 * acc + digit_value c) ds 0.

Fixpoint take_digits (s : list byte) : list byte :=
  match s with
  | c :: s' => if is_digit c then c :: take_digits s' else []
  | [] => []
  end.

Fixpoint drop_digits (s : list byte) : list byte :=
  match s with
  | c :: s' => if is_digit c then drop_digits s' else s
  | [] => []
  end.

(** [isspace] in the C locale. *)
Definition isspace (c : byte) : bool :=
  (code c =? 32) || ((9 <=? code c) && (code c <=? 13)).

Fixpoint drop_space (s : list byte) : list byte :=
  match s with
  | c :: s' => if isspace c then drop_space s' else s
  | [] => []
  end.

(** An optional sign in front of a number. *)
Definition split_sign (s : list byte) : bool * list byte :=
  match s with
  | c :: s' =>
      if code c =? 45 then (true, s')
      else if code c =? 43 then (false, s')
      else (false, s)
  | [] => (false, s)
  end.

(** [std::stoi(s)]: leading white space, an optional sign and a run of
    decimal digits; [std::invalid_argument] when there is no digit,
    [std::out_of_range] when the value does not fit an [int]. *)
Definition stoi (s : list byte) : outcome Z :=
  let (neg, rest) := split_sign (drop_space s) in
  let ds := take_digits rest in
  match ds with
  | [] => Raise invalid_argument
  | _ =>
      let v := if neg then - digits_value ds else digits_value ds in
      if in_int_range v then Return v else Raise out_of_range
  end.

(** *** Doubles: rounding a rational to binary64 *)

(** [num / den] (positive) rounded to the nearest integer, ties to even. *)
Definition round_half_even (num den : Z) : Z :=
  let q := num / den in
  match 2 * (num mod den) ?= den with
  | Lt => q
  | Gt => q + 1
  | Eq => if Z.even q then q else q + 1
  end.

(** [num / (den * 2^e)] as a fraction of integers. *)
Definition scale2 (num den e : Z) : Z * Z :=
  if 0 <=? e then (num, den * 2 ^ e) else (num * 2 ^ (- e), den).

(** The binary64 number nearest to [num / den] (both positive), ties to even,
    as [strtod] returns it; [std::stod] throws [std::out_of_range] when
    [strtod] reports [ERANGE]: on overflow, and on a result below the normal
    range that is not exact. *)
Definition round_to_double (neg : bool) (num den : Z) : outcome double :=
  let e0 := Z.log2 num - Z.log2 den - 52 in
  let (n0, d0) := scale2 num den e0 in
  let e1 := if n0 / d0 <? 2 ^ 52 then e0 - 1 else e0 in
  let e := Z.max e1 (- 1074) in
  let (n, d) := scale2 num den e in
  let q := round_half_even n d in
  let inexact := negb (n mod d =? 0) in
  let (q', e') := if q =? 2 ^ 53 then (2 ^ 52, e + 1) else (q, e) in
  if 971 <? e' then Raise out_of_range
  else if (q' <? 2 ^ 52) && inexact then Raise out_of_range
  else
    match q' with
    | Zpos m => Return (S754_finite neg m e')
    | _ => Return (S754_zero neg)
    end.

(** [std::stod(s)] on the texts the parser hands to it: leading white space,
    an optional sign, digits, and optionally a point and more digits.
    [std::invalid_argument] when there is no digit at all. *)
Definition stod (s : list byte) : outcome double :=
  let (neg, rest) := split_sign (drop_space s) in
  let ip := take_digits rest in
  let fp :=
    match drop_digits rest with
    | c :: r => if code c =? 46 then take_digits r else []
    | [] => []
    end in
  match ip ++ fp with
  | [] => Raise invalid_argument
  | ds =>
      let n := digits_value ds in
      if n =? 0 then Return (S754_zero neg)
      else round_to_double neg n (10 ^ Z.of_nat (length fp))
  end.

(** *** Doubles: the text [operator<<] writes, [%g] with precision 6 *)

(** [10^X <= num / den]. *)
Definition pow10_le (X num den : Z) : bool :=
  if 0 <=? X then 10 ^ X * den <=? num else den <=? num * 10 ^ (- X).

Fixpoint find_exp10 (fuel : nat) (X num den : Z) : Z :=
  match fuel with
  | O => X
  | S f => if pow10_le X num den then X else find_exp10 f (X - 1) num den
  end.

(** The decimal exponent of [num / den]: the largest [X] with
    [10^X <= num / den], searched downwards from an upper estimate. *)
Definition exp10 (num den : Z) : Z :=
  find_exp10 8 ((Z.log2 num - Z.log2 den) * 30103 / 100000 + 2) num den.

(** Six significant decimal digits of [num / den], as one integer, and the
    decimal exponent of the rounded number. *)
Definition sig_digits (num den : Z) : Z * Z :=
  let X := exp10 num den in
  let D :=
    if 0 <=? 5 - X then round_half_even (num * 10 ^ (5 - X)) den
    else round_half_even num (den * 10 ^ (X - 5)) in
  if D =? 1000000 then (100000, X + 1) else (D, X).

Fixpoint drop_zeros (s : list byte) : list byte :=
  match s with
  | c :: s' => if code c =? 48 then drop_zeros s' else s
  | [] => []
  end.

Definition strip_trailing_zeros (ds : list byte) : list byte :=
  rev (drop_zeros (rev ds)).

Definition pad_left (w : nat) (c : byte) (s : list byte) : list byte :=
  repeat c (w - length s) ++ s.

(** [%g] of the positive number [num / den]: scientific style when the
    exponent is below -4 or at least the precision, fixed style otherwise,
    trailing zeros removed in both. *)
Definition format_g (num den : Z) : list byte :=
  let (D, X) := sig_digits num den in
  let ds := digits_of 10 D in
  if (X <? - 4) || (6 <=? X) then
    let mant :=
      match strip_trailing_zeros ds with
      | d1 :: (_ :: _) as r => d1 :: x2e :: r
      | m => m
      end in
    mant ++ x65 :: (if X <? 0 then x2d else x2b)
         :: pad_left 2 x30 (digits_of 10 (Z.abs X))
  else if 0 <=? X then
    let ip := firstn (Z.to_nat (X + 1)) ds in
    match strip_trailing_zeros (skipn (Z.to_nat (X + 1)) ds) with
    | [] => ip
    | fp => ip ++ x2e :: fp
    end
  else
    x30 :: x2e :: repeat x30 (Z.to_nat (- X - 1)) ++ strip_trailing_zeros ds.

(** [oss << d] for a [double], with the stream's default float format. *)
Definition format_double (d : double) : list byte :=
  match d with
  | S754_nan => str "nan"
  | S754_infinity s => if s then str "-inf" else str "inf"
  | S754_zero s => if s then str "-0" else str "0"
  | S754_finite s m e =>
      (if s then [x2d] else [])
        ++ (if 0 <=? e then format_g (Zpos m * 2 ^ e) 1
            else format_g (Zpos m) (2 ^ (- e)))
  end.

(** ** The serializer *)

(** The [std::ostringstream]: the text written so far, whether integers are
    written in hexadecimal ([std::hex], sticky) and the fill character
    ([std::setfill], sticky).  A field width ([std::setw]) lasts for one
    insertion and is an argument of [put_int]. *)
Record ostringstream : Type := mk_oss {
  oss_str : list byte;
  oss_hex : bool;
  oss_fill : byte
}.

Definition oss_new : ostringstream := mk_oss [] false x20.

(** [oss << s] for a string or character. *)
Definition put (s : list byte) (oss : ostringstream) : ostringstream :=
  mk_oss (oss_str oss ++ s) (oss_hex oss) (oss_fill oss).

(** [oss << std::hex]. *)
Definition set_hex (oss : ostringstream) : ostringstream :=
  mk_oss (oss_str oss) true (oss_fill oss).

(** [oss << std::setfill(c)]. *)
Definition set_fill (c : byte) (oss : ostringstream) : ostringstream :=
  mk_oss (oss_str oss) (oss_hex oss) c.

(** [oss << std::setw(width) << i] for an [int]; [width = 0] without
    [std::setw]. *)
Definition put_int (width : nat) (i : Z) (oss : ostringstream) : ostringstream :=
  put (pad_left width (oss_fill oss)
         (if oss_hex oss then hex_of_int i else dec_of_int i)) oss.

(** [std::string(n, ' ')]. *)
Definition spaces (n : Z) : list byte := repeat x20 (Z.to_nat n).

Section Serializer.

(** Whether plain [char] is a signed type on the platform: it decides the
    value of [ch] in [ch < 32] and [static_cast<int>(ch)]. *)
Variable char_is_signed : bool.

Definition char_value (ch : byte) : Z :=
  if char_is_signed && (128 <=? code ch) then code ch - 256 else code ch.

(** One iteration of the loop of [dumpString]. *)
Definition dumpChar (ch : byte) (oss : ostringstream) : ostringstream :=
  if code ch =? 34 then put [x5c; x22] oss
  else if code ch =? 92 then put [x5c; x5c] oss
  else if code ch =? 8 then put [x5c; x62] oss
  else if code ch =? 12 then put [x5c; x66] oss
  else if code ch =? 10 then put [x5c; x6e] oss
  else if code ch =? 13 then put [x5c; x72] oss
  else if code ch =? 9 then put [x5c; x74] oss
  else if (char_value ch <? 32) || (char_value ch =? 127) then
    put_int 4 (char_value ch) (set_fill x30 (set_hex (put [x5c; x75] oss)))
  else put [ch] oss.

Definition dumpString (s : list byte) (oss : ostringstream) : ostringstream :=
  put [x22] (fold_left (fun o ch => dumpChar ch o) s (put [x22] oss)).

Section Containers.

Variable dumpValue : JSON -> ostringstream -> Z -> Z -> ostringstream.

Definition is_complex (item : JSON) : bool :=
  Type_eqb (getType item) Object || Type_eqb (getType item) Array.

(** The second loop of [dumpArray], from index [i] on. *)
Fixpoint dumpArray_loop (prettyPrint : bool) (size : Z) (level indent : Z)
    (i : Z) (items : list JSON) (oss : ostringstream) : ostringstream :=
  match items with
  | [] => oss
  | item :: items' =>
      let oss := if prettyPrint then put (spaces (level + indent)) oss else oss in
      let oss := dumpValue item oss (level + indent) indent in
      let oss :=
        if i <? size - 1 then
          let oss := put [x2c] oss in
          if negb prettyPrint then put [x20] oss else oss
        else oss in
      let oss := if prettyPrint then put [x0a] oss else oss in
      dumpArray_loop prettyPrint size level indent (i + 1) items' oss
  end.

Definition dumpArray (arr : list JSON) (oss : ostringstream)
    (level indent : Z) : ostringstream :=
  let hasComplexChildren := existsb is_complex arr in
  let prettyPrint := hasComplexChildren && (0 <? indent) in
  let oss := put [x5b] oss in
  let oss := if prettyPrint then put [x0a] oss else oss in
  let oss :=
    dumpArray_loop prettyPrint (Z.of_nat (length arr)) level indent 0 arr oss in
  let oss := if prettyPrint then put (spaces level) oss else oss in
  put [x5d] oss.

(** The loop of [dumpObject]; [i] members have been written. *)
Fixpoint dumpObject_loop (size : Z) (level indent : Z)
    (i : Z) (members : list (list byte * JSON)) (oss : ostringstream)
  : ostringstream :=
  match members with
  | [] => oss
  | (key, value) :: members' =>
      let oss := if 0 <? indent then put (spaces (level + indent)) oss else oss in
      let oss := dumpString key oss in
      let oss := put [x3a] oss in
      let oss := if 0 <? indent then put [x20] oss else oss in
      let oss := dumpValue value oss (level + indent) indent in
      let oss := if i + 1 <? size then put [x2c] oss else oss in
      let oss := if 0 <? indent then put [x0a] oss else oss in
      dumpObject_loop size level indent (i + 1) members' oss
  end.

Definition dumpObject (obj : list (list byte * JSON)) (oss : ostringstream)
    (level indent : Z) : ostringstream :=
  let oss := put [x7b] oss in
  let oss := if 0 <? indent then put [x0a] oss else oss in
  let oss := dumpObject_loop (Z.of_nat (length obj)) level indent 0 obj oss in
  let oss := if 0 <? indent then put (spaces level) oss else oss in
  put [x7d] oss.

End Containers.

Fixpoint dumpValue (value : JSON) (oss : ostringstream) (level indent : Z)
  : ostringstream :=
  match value with
  | JNull => put (str "null") oss
  | JBoolean b => put (if b then str "true" else str "false") oss
  | JInteger i => put_int 0 i oss
  | JDouble d => put (format_double d) oss
  | JString s => dumpString s oss
  | JArray arr => dumpArray dumpValue arr oss level indent
  | JObject obj => dumpObject dumpValue obj oss level indent
  end.

(** [std::string dump(int indent = 4) const]. *)
Definition dump (this : JSON) (indent : Z) : list byte :=
  oss_str (dumpValue this oss_new 0 indent).

End Serializer.

(** ** The parser: [class JSONParser] *)

Record parser : Type := mk_parser {
  data : list byte;
  pos : nat;
  line : Z;
  col : Z
}.

(** What a member function of the parser does from a parser state: it returns
    a value in a new state, throws, reads outside the buffer, or (in the
    embedding only) uses up its fuel. *)
Inductive presult (A : Type) : Type :=
| Ok (a : A) (p : parser)
| Throw (e : exn)
| Undefined
| OutOfFuel.

Arguments Ok {A} a p.
Arguments Throw {A} e.
Arguments Undefined {A}.
Arguments OutOfFuel {A}.

Definition M (A : Type) : Type := parser -> presult A.

Definition ret {A : Type} (a : A) : M A := fun p => Ok a p.

Definition bind {A B : Type} (m : M A) (k : A -> M B) : M B :=
  fun p =>
    match m p with
    | Ok a p' => k a p'
    | Throw e => Throw e
    | Undefined => Undefined
    | OutOfFuel => OutOfFuel
    end.

Notation "x <- m ;; k" := (bind m (fun x => k))
  (at level 61, m at next level, right associativity).
Notation "m ;; k" := (bind m (fun _ => k))
  (at level 61, right associativity).

Definition out_of_fuel {A : Type} : M A := fun _ => OutOfFuel.

(** The result of a library call, inside the parser. *)
Definition lift {A : Type} (o : outcome A) : M A :=
  fun p =>
    match o with
    | Return a => Ok a p
    | Raise e => Throw e
    | UndefinedBehaviour => Undefined
    end.

(** [d[i]]: the byte at [i], the terminating zero at [i = d.size()], and no
    defined value beyond. *)
Definition data_at (d : list byte) (i : nat) : option byte :=
  match nth_error d i with
  | Some c => Some c
  | None => if Nat.eqb i (length d) then Some x00 else None
  end.

(** [data[pos]]. *)
Definition peek : M byte :=
  fun p =>
    match data_at (data p) (pos p) with
    | Some c => Ok c p
    | None => Undefined
    end.

Definition get_pos : M nat := fun p => Ok (pos p) p.

(** One iteration of the loop of [advance]. *)
Definition advance1 : M unit :=
  fun p =>
    match data_at (data p) (pos p) with
    | Some c =>
        if code c =? 10
        then Ok tt (mk_parser (data p) (S (pos p)) (line p + 1) 1)
        else Ok tt (mk_parser (data p) (S (pos p)) (line p) (col p + 1))
    | None => Undefined
    end.

Fixpoint advance (count : nat) : M unit :=
  match count with
  | O => ret tt
  | S n => advance1 ;; advance n
  end.

Fixpoint skipWhitespace (fuel : nat) : M unit :=
  match fuel with
  | O => out_of_fuel
  | S f =>
      c <- peek ;;
      if negb (code c =? 0) && isspace c
      then advance 1 ;; skipWhitespace f
      else ret tt
  end.

Definition throwError {A : Type} (message : list byte) : M A :=
  fun p =>
    Throw (runtime_error
             (message ++ str " at line " ++ dec_of_int (line p)
                ++ str ", column " ++ dec_of_int (col p))).

(** [strncmp(&d[i], lit, strlen(lit)) == 0], for a literal without zero byte:
    the comparison stops at the first difference, at the latest at the
    terminating zero of the buffer. *)
Fixpoint strncmp_eq (d : list byte) (i : nat) (lit : list byte) : option bool :=
  match lit with
  | [] => Some true
  | c :: lit' =>
      match data_at d i with
      | Some x => if Byte.eqb x c then strncmp_eq d (S i) lit' else Some false
      | None => None
      end
  end.

Definition looking_at (lit : list byte) : M bool :=
  fun p =>
    match strncmp_eq (data p) (pos p) lit with
    | Some b => Ok b p
    | None => Undefined
    end.

(** [std::string(&data[start], pos - start)]. *)
Definition substring (start : nat) : M (list byte) :=
  fun p => Ok (firstn (pos p - start) (skipn start (data p))) p.

(** The loop of [parseString]; [s] is the text read so far. *)
Fixpoint parseString_loop (fuel : nat) (s : list byte) : M JSON :=
  match fuel with
  | O => out_of_fuel
  | S f =>
      c <- peek ;;
      if negb (code c =? 34) then
        if code c =? 92 then
          advance 1 ;;
          e <- peek ;;
          s' <- (if code e =? 92 then ret (s ++ [x5c])
                 else if code e =? 34 then ret (s ++ [x22])
                 else if code e =? 47 then ret (s ++ [x2f])
                 else if code e =? 98 then ret (s ++ [x08])
                 else if code e =? 102 then ret (s ++ [x0c])
                 else if code e =? 110 then ret (s ++ [x0a])
                 else if code e =? 114 then ret (s ++ [x0d])
                 else if code e =? 116 then ret (s ++ [x09])
                 else throwError (str "Invalid escape character in string")) ;;
          advance 1 ;;
          parseString_loop f s'
        else
          advance 1 ;;
          parseString_loop f (s ++ [c])
      else
        advance 1 ;;
        ret (JString s)
  end.

Definition parseString (fuel : nat) : M JSON :=
  advance 1 ;;
  parseString_loop fuel [].

Definition parseBoolean : M JSON :=
  t <- looking_at (str "true") ;;
  if t then advance 4 ;; ret (JBoolean true)
  else
    f <- looking_at (str "false") ;;
    if f then advance 5 ;; ret (JBoolean false)
    else throwError (str "Unexpected boolean value in JSON").

Definition parseNull : M JSON :=
  n <- looking_at (str "null") ;;
  if n then advance 4 ;; ret JNull
  else throwError (str "Unexpected null value in JSON").

(** [while (data[pos] >= '0' && data[pos] <= '9') advance();] *)
Fixpoint skipDigits (fuel : nat) : M unit :=
  match fuel with
  | O => out_of_fuel
  | S f =>
      c <- peek ;;
      if is_digit c then advance 1 ;; skipDigits f else ret tt
  end.

Definition parseNumber (fuel : nat) : M JSON :=
  start <- get_pos ;;
  c <- peek ;;
  (if code c =? 45 then advance 1 else ret tt) ;;
  skipDigits fuel ;;
  c <- peek ;;
  if code c =? 46 then
    advance 1 ;;
    skipDigits fuel ;;
    text <- substring start ;;
    d <- lift (stod text) ;;
    ret (JDouble d)
  else
    text <- substring start ;;
    i <- lift (stoi text) ;;
    ret (JInteger i).

Fixpoint parseValue (fuel : nat) : M JSON :=
  match fuel with
  | O => out_of_fuel
  | S f =>
      skipWhitespace f ;;
      ch <- peek ;;
      if code ch =? 123 then parseObject f
      else if code ch =? 91 then parseArray f
      else if code ch =? 34 then parseString f
      else if (code ch =? 116) || (code ch =? 102) then parseBoolean
      else if code ch =? 110 then parseNull
      else if (code ch =? 45) || is_digit ch then parseNumber f
      else throwError (str "Unexpected character in JSON")
  end

with parseObject (fuel : nat) : M JSON :=
  match fuel with
  | O => out_of_fuel
  | S f =>
      advance 1 ;;
      skipWhitespace f ;;
      parseObject_loop f []
  end

(** The loop of [parseObject]; [obj] is the map built so far. *)
with parseObject_loop (fuel : nat) (obj : map_t) : M JSON :=
  match fuel with
  | O => out_of_fuel
  | S f =>
      c <- peek ;;
      if negb (code c =? 125) then
        k <- parseString f ;;
        key <- lift (JSONTypeTraits_string_get k) ;;
        skipWhitespace f ;;
        c <- peek ;;
        (if negb (code c =? 58)
         then throwError (str "Expected ':' in JSON object")
         else ret tt) ;;
        advance 1 ;;
        value <- parseValue f ;;
        skipWhitespace f ;;
        c <- peek ;;
        (if code c =? 44 then advance 1 ;; skipWhitespace f else ret tt) ;;
        parseObject_loop f (map_set key value obj)
      else
        advance 1 ;;
        ret (JObject obj)
  end

with parseArray (fuel : nat) : M JSON :=
  match fuel with
  | O => out_of_fuel
  | S f =>
      advance 1 ;;
      skipWhitespace f ;;
      parseArray_loop f []
  end

(** The loop of [parseArray]; [arr] is the vector built so far. *)
with parseArray_loop (fuel : nat) (arr : list JSON) : M JSON :=
  match fuel with
  | O => out_of_fuel
  | S f =>
      c <- peek ;;
      if negb (code c =? 93) then
        value <- parseValue f ;;
        skipWhitespace f ;;
        c <- peek ;;
        (if code c =? 44 then advance 1 ;; skipWhitespace f else ret tt) ;;
        parseArray_loop f (arr ++ [value])
      else
        advance 1 ;;
        ret (JArray arr)
  end.

(** The private [JSON parse()]. *)
Definition parse_ (fuel : nat) : M JSON :=
  skipWhitespace fuel ;;
  parseValue fuel.

(** Fuel that is enough for any run on a text of this length. *)
Definition parse_fuel (d : list byte) : nat := 3 * length d + 5.

(** The constructor [JSONParser(const std::string& data)]. *)
Definition JSONParser (d : list byte) : parser := mk_parser d 0 1 1.

(** [static JSON parse(const std::string& data)], with the final state of the
    parser object kept for inspection. *)
Definition parse (d : list byte) : presult JSON :=
  parse_ (parse_fuel d) (JSONParser d).

(** ** Values and texts the properties are stated on *)

(** The double 1.5. *)
Definition one_and_a_half : double := S754_finite false 6755399441055744 (-52).




(** The text [dumpString] writes for one character. *)
Definition escape_char (char_is_signed : bool) (ch : byte) : list byte :=
  oss_str (dumpChar char_is_signed ch oss_new).

(** Four lower-case hexadecimal digits of [n]. *)
Definition four_hex (n : Z) : list byte :=
  [digit_char (n / 4096 mod 16); digit_char (n / 256 mod 16);
   digit_char (n / 16 mod 16); digit_char (n mod 16)].

(** The escaping of one byte as the specification words it: the two-character
    escapes of quote, backslash, backspace, form feed, newline, carriage
    return and tab; [\u] and four hexadecimal digits for any other byte below
    0x20 or equal to 0x7F; every remaining byte as it is. *)
Definition spec_escape (ch : byte) : list byte :=
  if code ch =? 34 then [x5c; x22]
  else if code ch =? 92 then [x5c; x5c]
  else if code ch =? 8 then [x5c; x62]
  else if code ch =? 12 then [x5c; x66]
  else if code ch =? 10 then [x5c; x6e]
  else if code ch =? 13 then [x5c; x72]
  else if code ch =? 9 then [x5c; x74]
  else if (code ch <? 32) || (code ch =? 127) then x5c :: x75 :: four_hex (code ch)
  else [ch].

(** The string as the specification words its serialization. *)
Definition spec_string (s : list byte) : list byte :=
  x22 :: flat_map spec_escape s ++ [x22].

(** The two-byte UTF-8 text of U+00E9. *)
Definition e_acute : list byte := [xc3; xa9].

Section Layouts.

Variable dv : JSON -> ostringstream -> Z -> Z -> ostringstream.
Variable char_is_signed : bool.
Variables level indent : Z.

(** Elements one per line: each after [level + indent] spaces, a comma
    after each but the last, a newline after each. *)
Fixpoint array_lines (items : list JSON) (oss : ostringstream) : ostringstream :=
  match items with
  | [] => oss
  | item :: rest =>
      let oss := dv item (put (spaces (level + indent)) oss) (level + indent) indent in
      array_lines rest (put (match rest with [] => [x0a] | _ => [x2c; x0a] end) oss)
  end.

(** Elements on one line, a comma and a space between two of them. *)
Fixpoint array_inline (items : list JSON) (oss : ostringstream) : ostringstream :=
  match items with
  | [] => oss
  | item :: rest =>
      let oss := dv item oss (level + indent) indent in
      array_inline rest (put (match rest with [] => [] | _ => [x2c; x20] end) oss)
  end.

(** Members one per line: each after [level + indent] spaces, the key, a
    colon and a space, the value, a comma after each but the last, a
    newline after each. *)
Fixpoint object_lines (members : list (list byte * JSON)) (oss : ostringstream)
  : ostringstream :=
  match members with
  | [] => oss
  | (key, value) :: rest =>
      let oss := dumpString char_is_signed key (put (spaces (level + indent)) oss) in
      let oss := dv value (put [x3a; x20] oss) (level + indent) indent in
      object_lines rest (put (match rest with [] => [x0a] | _ => [x2c; x0a] end) oss)
  end.

End Layouts.

(** The text a serializer call added to the stream. *)
Definition added (before after : ostringstream) : list byte :=
  skipn (length (oss_str before)) (oss_str after).

(** The characters numbers are written with are no control characters, quotes
    or brackets. *)
Definition number_char (c : byte) : Prop :=
  (is_digit c
   || ((97 <=? code c) && (code c <=? 102))
   || existsb (Z.eqb (code c)) [43; 45; 46; 105; 110]) = true.

(** A text without line break. *)
Definition no_newline (t : list byte) : Prop :=
  forallb (fun c => negb (Byte.eqb c x0a)) t = true.

(** The stream [o'] is [o] with a text added at its end, and the text
    satisfies [P]. *)
Definition extends (o o' : ostringstream) (P : list byte -> Prop) : Prop :=
  exists t, oss_str o' = oss_str o ++ t /\ P t.

(** A serializer call on [v] only adds text, and text without line break
    when the indentation is off or [v] is a scalar. *)
Definition adds_text (cs : bool) (v : JSON) : Prop :=
  forall oss level indent,
    extends oss (dumpValue cs v oss level indent)
      (fun t => indent <= 0 \/ is_complex v = false -> no_newline t).

(** ** Properties of parser computations *)

(** A computation keeps the input text and never moves the cursor back. *)
Definition steps {A : Type} (m : M A) : Prop :=
  forall p a p', m p = Ok a p' -> data p' = data p /\ (pos p <= pos p')%nat.

(** A computation consumes at least one byte when it returns. *)
Definition consumes {A : Type} (m : M A) : Prop :=
  forall p a p', m p = Ok a p' -> data p' = data p /\ (pos p < pos p')%nat.

(** The bytes left from the cursor on, the terminating zero counted. *)
Definition remaining (p : parser) : nat := S (length (data p)) - pos p.

(** [r'] is [r], or is anything when [r] is a run that used up its fuel. *)
Definition refines {A : Type} (r r' : presult A) : Prop :=
  r = OutOfFuel \/ r = r'.

(** The text from the cursor on. *)
Definition at_cursor (p : parser) : list byte := skipn (pos p) (data p).

(** The parser state after [n] bytes, none of them a newline, were consumed. *)
Definition moved (p : parser) (n : nat) : parser :=
  mk_parser (data p) (pos p + n) (line p) (col p + Z.of_nat n).

(** The exception [throwError] throws in state [p]: the message followed by
    the line and the column of the cursor. *)
Definition syntax_error (message : list byte) (p : parser) : exn :=
  runtime_error (message ++ str " at line " ++ dec_of_int (line p)
                   ++ str ", column " ++ dec_of_int (col p)).

(** [lit] is a prefix of [s]. *)
Fixpoint starts_with (lit s : list byte) : bool :=
  match lit, s with
  | [], _ => true
  | c :: lit', x :: s' => Byte.eqb x c && starts_with lit' s'
  | _ :: _, [] => false
  end.

(** What one turn of the loop of [parseArray] does before it looks for a
    comma: an element and the white space after it. *)
Definition array_element (fuel : nat) : M JSON :=
  value <- parseValue fuel ;;
  skipWhitespace fuel ;;
  ret value.

(** What one turn of the loop of [parseObject] does before it looks for a
    comma: a key, a colon, a value and the white space after it. *)
Definition object_member (fuel : nat) : M (list byte * JSON) :=
  k <- parseString fuel ;;
  key <- lift (JSONTypeTraits_string_get k) ;;
  skipWhitespace fuel ;;
  c <- peek ;;
  (if negb (code c =? 58)
   then throwError (str "Expected ':' in JSON object")
   else ret tt) ;;
  advance 1 ;;
  value <- parseValue fuel ;;
  skipWhitespace fuel ;;
  ret (key, value).

(** The parser state [p] on another input text. *)
Definition with_data (d : list byte) (p : parser) : parser :=
  mk_parser d (pos p) (line p) (col p).

(** Two texts with the same bytes below index [n]. *)
Definition agree (n : nat) (d d' : list byte) : Prop :=
  forall i, (i < n)%nat -> nth_error d' i = nth_error d i.

(** A computation whose result depends on the text only up to the byte under
    the final cursor (its lookahead), that byte included. *)
Definition stable {A : Type} (m : M A) : Prop :=
  forall p a p' d',
    m p = Ok a p' -> agree (S (pos p')) (data p) d' ->
    m (with_data d' p) = Ok a (with_data d' p').

(** A computation whose result depends on the text only below the final
    cursor: it has no lookahead left. *)
Definition closed {A : Type} (m : M A) : Prop :=
  forall p a p' d',
    m p = Ok a p' -> agree (pos p') (data p) d' ->
    m (with_data d' p) = Ok a (with_data d' p').

(** A computation that leaves the cursor inside the text or at its end. *)
Definition lands {A : Type} (m : M A) : Prop :=
  forall p a p', m p = Ok a p' -> (pos p' <= length (data p'))%nat.

(** The byte [o] after a value does not continue the value: after an integer
    it is no digit and no point, after a double it is no digit; values of the
    other tags end with their last byte. *)
Definition ends_value (v : JSON) (o : option byte) : Prop :=
  match v with
  | JInteger _ => exists c, o = Some c /\ is_digit c = false /\ code c <> 46
  | JDouble _ => exists c, o = Some c /\ is_digit c = false
  | _ => True
  end.

(** The first byte of the text that follows a value, the terminating zero
    when nothing follows. *)
Definition first_byte (rest : list byte) : option byte :=
  match rest with
  | [] => Some x00
  | c :: _ => Some c
  end.

(** A computation that leaves the parser state as it is. *)
Definition still {A : Type} (m : M A) : Prop :=
  forall p a p', m p = Ok a p' -> p' = p.

(** ** The round trip through the serializer and the parser *)

(** The double 1. *)
Definition double_one : double := S754_finite false 4503599627370496 (-52).

(** The characters [dumpString] writes as two-character escapes. *)
Definition two_char_escape (ch : byte) : bool :=
  existsb (Z.eqb (code ch)) [34; 92; 8; 12; 10; 13; 9].

(** The bytes the serializer writes without the [u] escape, on the platform
    at hand. *)
Definition plain_char (char_is_signed : bool) (ch : byte) : bool :=
  two_char_escape ch
  || negb ((char_value char_is_signed ch <? 32)
           || (char_value char_is_signed ch =? 127)).

Definition plain_string (char_is_signed : bool) (s : list byte) : bool :=
  forallb (plain_char char_is_signed) s.

(** A text of the form digits, point, digits, with an optional minus sign:
    what the parser takes for a double. *)
Definition decimal_text (t : list byte) : bool :=
  let r := match t with
           | c :: t' => if code c =? 45 then t' else t
           | [] => t
           end in
  match take_digits r, drop_digits r with
  | _ :: _, c :: fp =>
      (code c =? 46) && negb (Nat.eqb (length fp) 0) && forallb is_digit fp
  | _, _ => false
  end.

(** The doubles that survive the serializer and [std::stod]: their text has a
    point and no exponent, and it reads back as the same double. *)
Definition double_survives (d : double) : bool :=
  decimal_text (format_double d)
  && match stod (format_double d) with
     | Return d' => double_eqb d' d
     | _ => false
     end.

(** The values the round trip is stated for: integers in the range of [int],
    doubles that survive, strings and keys of plain characters, and objects
    whose members are in key order, as in every [std::map]. *)
Fixpoint round_trips (cs : bool) (v : JSON) : Prop :=
  match v with
  | JNull => True
  | JBoolean _ => True
  | JInteger i => in_int_range i = true
  | JDouble d => double_survives d = true
  | JString s => plain_string cs s = true
  | JArray a =>
      (fix all (l : list JSON) : Prop :=
         match l with
         | [] => True
         | x :: l' => round_trips cs x /\ all l'
         end) a
  | JObject o =>
      map_sorted o /\
      (fix all (l : list (list byte * JSON)) : Prop :=
         match l with
         | [] => True
         | (k, x) :: l' => plain_string cs k = true /\ round_trips cs x /\ all l'
         end) o
  end.

(** A string between quotes, its characters escaped. *)
Definition quoted (cs : bool) (s : list byte) : list byte :=
  x22 :: flat_map (escape_char cs) s ++ [x22].

Section Render.

Variable cs : bool.
Variable indent : Z.

(** The elements of an array or the members of an object, each followed by
    [mid] but the last, which is followed by [last]. *)
Fixpoint render_items {A : Type} (item : A -> list byte) (mid last : list byte)
    (items : list A) : list byte :=
  match items with
  | [] => []
  | [x] => item x ++ last
  | x :: rest => item x ++ mid ++ render_items item mid last rest
  end.

(** The text the serializer writes for a value at nesting [level], when the
    stream writes integers in decimal. *)
Fixpoint render (level : Z) (v : JSON) : list byte :=
  match v with
  | JNull => str "null"
  | JBoolean b => if b then str "true" else str "false"
  | JInteger i => dec_of_int i
  | JDouble d => format_double d
  | JString s => quoted cs s
  | JArray a =>
      if existsb is_complex a && (0 <? indent) then
        x5b :: x0a :: spaces (level + indent)
          ++ render_items (render (level + indent))
               (x2c :: x0a :: spaces (level + indent)) (x0a :: spaces level) a
          ++ [x5d]
      else
        x5b :: render_items (render (level + indent)) [x2c; x20] [] a ++ [x5d]
  | JObject o =>
      if 0 <? indent then
        x7b :: x0a
          :: match o with
             | [] => spaces level
             | _ =>
                 spaces (level + indent)
                   ++ render_items
                        (fun kv => quoted cs (fst kv) ++ x3a :: x20
                                     :: render (level + indent) (snd kv))
                        (x2c :: x0a :: spaces (level + indent))
                        (x0a :: spaces level) o
             end
          ++ [x7d]
      else
        x7b :: render_items
                 (fun kv => quoted cs (fst kv) ++ x3a
                              :: render (level + indent) (snd kv))
                 [x2c] [] o
          ++ [x7d]
  end.

End Render.

(** [P] holds for all fuel from some amount on. *)
Definition eventually (P : nat -> Prop) : Prop :=
  exists f0, forall f, (f0 <= f)%nat -> P f.

(** [p'] is [p] after [n] more bytes were consumed. *)
Definition advanced (p : parser) (n : nat) (p' : parser) : Prop :=
  data p' = data p /\ pos p' = (pos p + n)%nat.

(** A text of white space only. *)
Definition ws_text (w : list byte) : bool := forallb isspace w.

(** The byte is no white space. *)
Definition not_space (o : option byte) : Prop :=
  exists c, o = Some c /\ isspace c = false.

(** The byte ends a number: no digit and no point. *)
Definition ends_number (o : option byte) : Prop :=
  exists c, o = Some c /\ is_digit c = false /\ code c <> 46.

(** The bytes a value begins with in the output of the serializer. *)
Definition value_start (c : byte) : bool :=
  is_digit c || existsb (Z.eqb (code c)) [45; 34; 91; 123; 116; 102; 110].

(** The cursor of [p] is inside the text or at its end, and the text from
    the cursor on is [l]. *)
Definition at_text (p : parser) (l : list byte) : Prop :=
  (pos p <= length (data p))%nat /\ at_cursor p = l.

(** With enough fuel the computation [m] returns [a] from [p] and has
    consumed as many bytes as [t] has. *)
Definition reads {A : Type} (m : nat -> M A) (t : list byte) (a : A)
    (p : parser) : Prop :=
  eventually (fun f => exists p', m f p = Ok a p' /\ advanced p (length t) p').

(** The text [t] is read as the value [v] by [parseValue], whatever follows
    it that ends a number. *)
Definition parses (t : list byte) (v : JSON) : Prop :=
  forall p rest,
    at_text p (t ++ rest) -> ends_number (first_byte rest) ->
    reads parseValue t v p.

(** The escape characters [parseString] knows, and what they stand for. *)
Definition unescape (e : byte) : option byte :=
  if code e =? 92 then Some x5c
  else if code e =? 34 then Some x22
  else if code e =? 47 then Some x2f
  else if code e =? 98 then Some x08
  else if code e =? 102 then Some x0c
  else if code e =? 110 then Some x0a
  else if code e =? 114 then Some x0d
  else if code e =? 116 then Some x09
  else None.

(** What both loops do after an element: skip white space, and skip a comma
    and the white space after it when there is one. *)
Definition after_element (fuel : nat) : M unit :=
  skipWhitespace fuel ;;
  c <- peek ;;
  (if code c =? 44 then advance 1 ;; skipWhitespace fuel else ret tt).

(** The first byte of a text is one a value begins with. *)
Definition begins_value (t : list byte) : Prop :=
  exists c l, t = c :: l /\ value_start c = true.

(** With some fuel the computation [m] returns [a] from [p], and has
    consumed [n] bytes. *)
Definition returns {A : Type} (m : nat -> M A) (p : parser) (a : A) (n : nat)
    : Prop :=
  exists f p', m f p = Ok a p' /\ advanced p n p'.

(** What follows an element or a member: [last] after the last one, [mid]
    after the others. *)
Definition separator {A : Type} (mid last : list byte) (rest : list A)
    : list byte :=
  match rest with
  | [] => last
  | _ => mid
  end.

(** A member as the serializer writes it: the key between quotes, a colon,
    the white space [wv] and the value. *)
Definition member_text (cs : bool) (wv : list byte) (text : JSON -> list byte)
    (kv : list byte * JSON) : list byte :=
  quoted cs (fst kv) ++ x3a :: wv ++ text (snd kv).

(** The map [parseObject] builds from the members it reads, in their order. *)
Definition insert_all (members : list (list byte * JSON)) (obj : map_t) : map_t :=
  fold_left (fun m kv => map_set (fst kv) (snd kv) m) members obj.

(** [dv] writes [text x] for the element [x] of a container at [level], on a
    stream that writes integers in decimal. *)
Definition writes_text (dv : JSON -> ostringstream -> Z -> Z -> ostringstream)
    (level indent : Z) (text : JSON -> list byte) (x : JSON) : Prop :=
  forall oss, oss_hex oss = false ->
    dv x oss (level + indent) indent = put (text x) oss.

(** A document with every kind of node: an object whose members are an
    array with a nested object, a double and a string with an escape. *)
Definition sample_document : JSON :=
  JObject
    [(str "list", JArray [JInteger (-7); JObject [(str "b", JBoolean true)]; JNull]);
     (str "ratio", JDouble one_and_a_half);
     (str "text", JString (str "two" ++ [x0a] ++ str "lines"))].

(** ** The rest of [class JSON] *)

(** [static JSON o(std::initializer_list<std::pair<std::string, JSON>> list)]:
    the pairs are stored one after the other with
    [obj[pair.first] = pair.second]. *)
Definition JSON_o (list : list (list byte * JSON)) : JSON :=
  JObject (fold_left (fun obj pair => map_set (fst pair) (snd pair) obj) list []).

Definition not_an_array_message : list byte :=
  str "Trying to index a non-array JSON".

Definition index_out_of_range_message : list byte := str "Index out of range".

(** [const JSON& operator[](size_t index) const]. *)
Definition index_const (this : JSON) (index : nat) : outcome JSON :=
  match this with
  | JArray array =>
      if (length array <=? index)%nat
      then Raise (runtime_error index_out_of_range_message)
      else match nth_error array index with
           | Some item => Return item
           | None => UndefinedBehaviour
           end
  | _ => Raise (runtime_error not_an_array_message)
  end.

(** [JSON& operator[](size_t index)]: the same two checks; the value is
    left as it is, and on [Return] the reference handed back designates the
    element at [index]. *)
Definition index_mutable (this : JSON) (index : nat) : JSON * outcome nat :=
  match this with
  | JArray array =>
      if (length array <=? index)%nat
      then (this, Raise (runtime_error index_out_of_range_message))
      else (this, Return index)
  | _ => (this, Raise (runtime_error not_an_array_message))
  end.

(** [JSON::operator=] through a reference to the element at [i]. *)
Definition assign_element (this : JSON) (i : nat) (x : JSON) : JSON :=
  match this with
  | JArray array => JArray (firstn i array ++ x :: skipn (S i) array)
  | _ => this
  end.

(** *** Assignment between parts of one value *)

(** One step from a value to a part of it: the member of an object under a
    key, or the element of an array at an index. *)
Inductive step : Type :=
  | at_key (key : list byte)
  | at_index (index : nat).

Definition step_eqb (a b : step) : bool :=
  match a, b with
  | at_key k, at_key k' => bytes_eqb k k'
  | at_index i, at_index j => Nat.eqb i j
  | _, _ => false
  end.

(** A part of a value: the steps that lead to it from the value. *)
Definition place : Type := list step.

Fixpoint place_deref (root : JSON) (pl : place) : option JSON :=
  match pl with
  | [] => Some root
  | at_key k :: pl' =>
      match root with
      | JObject object =>
          match map_find k object with
          | Some v => place_deref v pl'
          | None => None
          end
      | _ => None
      end
  | at_index i :: pl' =>
      match root with
      | JArray array =>
          match nth_error array i with
          | Some v => place_deref v pl'
          | None => None
          end
      | _ => None
      end
  end.

(** The part at [a] is the part at [b] or holds it. *)
Fixpoint place_prefix (a b : place) : bool :=
  match a, b with
  | [], _ => true
  | x :: a', y :: b' => step_eqb x y && place_prefix a' b'
  | _ :: _, [] => false
  end.

Definition place_eqb (a b : place) : bool :=
  place_prefix a b && place_prefix b a.

(** The right operand of an assignment to a part of [root]: an object apart
    from [root] (a temporary, another variable), or a reference to a part of
    [root]. *)
Inductive operand : Type :=
  | Apart (x : JSON)
  | Part (source : place).

(** [JSON& operator=(const JSON& other)] on the part [target] of [root]: the
    value the assignment stores, [None] when it does nothing.
    - [this == &other]: nothing is done;
    - [clear()] runs before [other] is read.  When [other] is a part of the
      target, it is destroyed with the payload of the target and
      [other.type] is read from freed memory.  When the target is a part of
      [other], [copy(other)] copies the elements of [other], the target among
      them, whose tag is already that of [other] while its payload is gone.
      Both are undefined behaviour, as is a reference to no part of [root];
    - in every other case the target becomes a copy of [other]. *)
Definition operator_assign_reads (root : JSON) (target : place) (other : operand)
  : outcome (option JSON) :=
  match other with
  | Apart x => Return (Some x)
  | Part source =>
      if place_eqb source target then Return None
      else if place_prefix target source || place_prefix source target
      then UndefinedBehaviour
      else match place_deref root source with
           | Some x => Return (Some x)
           | None => UndefinedBehaviour
           end
  end.

(** The statement [v[index] = other;]. *)
Definition index_assign (this : JSON) (index : nat) (other : operand)
  : JSON * outcome unit :=
  match index_mutable this index with
  | (this', Return i) =>
      match operator_assign_reads this' [at_index i] other with
      | Return (Some x) => (assign_element this' i x, Return tt)
      | Return None => (this', Return tt)
      | Raise e => (this', Raise e)
      | UndefinedBehaviour => (this', UndefinedBehaviour)
      end
  | (this', Raise e) => (this', Raise e)
  | (this', UndefinedBehaviour) => (this', UndefinedBehaviour)
  end.

(** The statement [v[key] = other;]: [operator[]] first, which may turn Null
    into an object and insert the key, then the assignment to the entry. *)
Definition key_assign (this : JSON) (key : list byte) (other : operand)
  : JSON * outcome unit :=
  match subscript_ref this [] key with
  | (this', Return r) =>
      match operator_assign_reads this' [at_key key] other with
      | Return (Some x) => (assign_ref this' r x, Return tt)
      | Return None => (this', Return tt)
      | Raise e => (this', Raise e)
      | UndefinedBehaviour => (this', UndefinedBehaviour)
      end
  | (this', Raise e) => (this', Raise e)
  | (this', UndefinedBehaviour) => (this', UndefinedBehaviour)
  end.

(** [r[k1][k2]...[kn]] for a reference [r] into [root], by the mutable
    [operator[]]. *)
Fixpoint subscript_path (root : JSON) (r : ref) (keys : list (list byte))
  : JSON * outcome ref :=
  match keys with
  | [] => (root, Return r)
  | k :: keys' =>
      match subscript_ref root r k with
      | (root', Return r') => subscript_path root' r' keys'
      | other => other
      end
  end.

(** The statement [root[k1][k2]...[kn] = x;]. *)
Definition assign_path (root : JSON) (keys : list (list byte)) (x : JSON)
  : JSON * outcome unit :=
  match subscript_path root [] keys with
  | (root', Return r) => (assign_ref root' r x, Return tt)
  | (root', Raise e) => (root', Raise e)
  | (root', UndefinedBehaviour) => (root', UndefinedBehaviour)
  end.

(** [v[k1][k2]...[kn]] on a const value. *)
Fixpoint subscript_const_path (v : JSON) (keys : list (list byte))
  : outcome JSON :=
  match keys with
  | [] => Return v
  | k :: keys' =>
      match subscript_const v k with
      | Return v' => subscript_const_path v' keys'
      | other => other
      end
  end.

(** The loop of [JSONTypeTraits<std::vector<T>>::get]; [result] is the vector
    built so far, [get_T] is [get<T>()]. *)
Fixpoint vector_get_loop {T : Type} (get_T : JSON -> outcome T)
    (arr : list JSON) (result : list T) : outcome (list T) :=
  match arr with
  | [] => Return result
  | item :: arr' =>
      match get_T item with
      | Return x => vector_get_loop get_T arr' (result ++ [x])
      | Raise e => Raise e
      | UndefinedBehaviour => UndefinedBehaviour
      end
  end.

(** [JSONTypeTraits<std::vector<T>>::get]. *)
Definition JSONTypeTraits_vector_get {T : Type} (get_T : JSON -> outcome T)
    (json : JSON) : outcome (list T) :=
  match json with
  | JArray arr => vector_get_loop get_T arr []
  | _ => Raise (runtime_error (str "Not an array"))
  end.

(** [JSONTypeTraits<std::map<std::string, JSON>>::get]. *)
Definition JSONTypeTraits_map_get (json : JSON) : outcome map_t :=
  match json with
  | JObject object => Return object
  | _ => Raise (runtime_error (str "Not an object"))
  end.

(** *** Notions the properties below are stated with *)

(** The value listed last for [key] in a list of pairs. *)
Fixpoint last_binding (key : list byte) (list : list (list byte * JSON))
  : option JSON :=
  match list with
  | [] => None
  | (k, v) :: list' =>
      match last_binding key list' with
      | Some v' => Some v'
      | None => if bytes_eqb key k then Some v else None
      end
  end.

(** Objects of one member each, nested along [keys], around [x]. *)
Fixpoint nest (keys : list (list byte)) (x : JSON) : JSON :=
  match keys with
  | [] => x
  | k :: keys' => JObject [(k, nest keys' x)]
  end.

(** [dv] keeps [std::hex] once it is set. *)
Definition keeps_hex_on (dv : JSON -> ostringstream -> Z -> Z -> ostringstream)
    (x : JSON) : Prop :=
  forall oss level indent, oss_hex oss = true ->
    oss_hex (dv x oss level indent) = true.

(** *** Positions in a text *)

Definition is_newline (c : byte) : bool := code c =? 10.

(** The line of the position after the text [t], counted from 1: one more
    than the line breaks of [t]. *)
Definition line_of (t : list byte) : Z :=
  1 + Z.of_nat (length (filter is_newline t)).

(** The bytes in front of the first line break. *)
Fixpoint until_newline (t : list byte) : list byte :=
  match t with
  | [] => []
  | c :: t' => if is_newline c then [] else c :: until_newline t'
  end.

(** The column of the position after the text [t], counted from 1: one more
    than the bytes of [t] after its last line break. *)
Definition col_of (t : list byte) : Z :=
  1 + Z.of_nat (length (until_newline (rev t))).

(** The buffer of a [std::string]: the text and its terminating zero. *)
Definition c_str (d : list byte) : list byte := d ++ [x00].

(** The line and the column of the parser are those of its cursor. *)
Definition located (p : parser) : Prop :=
  (pos p <= S (length (data p)))%nat /\
  line p = line_of (firstn (pos p) (c_str (data p))) /\
  col p = col_of (firstn (pos p) (c_str (data p))).

(** The messages of the five calls of [throwError]. *)
Definition parser_messages : list (list byte) :=
  [str "Unexpected character in JSON";
   str "Expected ':' in JSON object";
   str "Invalid escape character in string";
   str "Unexpected boolean value in JSON";
   str "Unexpected null value in JSON"].

(** The text of a syntax error at the position after the first [n] bytes of
    [d]. *)
Definition error_text (message d : list byte) (n : nat) : list byte :=
  message ++ str " at line " ++ dec_of_int (line_of (firstn n d))
    ++ str ", column " ++ dec_of_int (col_of (firstn n d)).

(** A [std::runtime_error] of the parser names a position of the text [d],
    at the latest its end. *)
Definition positioned (d : list byte) (e : exn) : Prop :=
  match e with
  | runtime_error what =>
      exists message n,
        In message parser_messages /\ (n <= length d)%nat
        /\ what = error_text message d n
  | _ => True
  end.

(** The values a [JSON] object can hold: integers in the range of [int], and
    the members of every object in strictly increasing key order. *)
Fixpoint well_formed (v : JSON) : Prop :=
  match v with
  | JInteger i => in_int_range i = true
  | JArray a =>
      (fix all (l : list JSON) : Prop :=
         match l with
         | [] => True
         | x :: l' => well_formed x /\ all l'
         end) a
  | JObject o =>
      map_sorted o /\
      (fix all (l : list (list byte * JSON)) : Prop :=
         match l with
         | [] => True
         | (_, x) :: l' => well_formed x /\ all l'
         end) o
  | _ => True
  end.

(** What a parser computation started in a located state ends with: a
    located state on the same text and a result with [Q], or an exception
    that names a position of the text. *)
Definition good {A : Type} (Q : A -> Prop) (p : parser) (r : presult A) : Prop :=
  match r with
  | Ok a p' => located p' /\ data p' = data p /\ Q a
  | Throw e => positioned (data p) e
  | _ => True
  end.

Definition tracks {A : Type} (Q : A -> Prop) (m : M A) : Prop :=
  forall p, located p -> good Q p (m p).

(** The same for a computation that starts with the cursor on a byte of the
    buffer, as it is after a read. *)
Definition tracks_here {A : Type} (Q : A -> Prop) (m : M A) : Prop :=
  forall p, located p -> (pos p <= length (data p))%nat -> good Q p (m p).

(** The text of an object with its members out of order and a key twice. *)
Definition unordered_object_text : list byte :=
  x7b :: x22 :: str "b" ++ x22 :: str ":1," ++ x22 :: str "a"
    ++ x22 :: str ":2," ++ x22 :: str "b" ++ x22 :: str ":3}".
Lemma code_range (c : byte) : 0 <= code c <= 255.
Proof.
  unfold code. pose proof (Byte.to_N_bounded c). lia.
Qed.

Lemma code_inj (a b : byte) : code a = code b -> a = b.
Proof.
  unfold code. intros H.
  assert (E : Byte.to_N a = Byte.to_N b) by lia.
  pose proof (Byte.of_to_N a) as Ha. pose proof (Byte.of_to_N b) as Hb.
  rewrite E in Ha. congruence.
Qed.

Lemma byte_eqb_eq (a b : byte) : Byte.eqb a b = true <-> a = b.
Proof.
  split; [apply Byte.byte_dec_bl | apply Byte.byte_dec_lb].
Qed.

Lemma byte_eqb_refl (a : byte) : Byte.eqb a a = true.
Proof. now apply byte_eqb_eq. Qed.

Lemma byte_eqb_neq (a b : byte) : Byte.eqb a b = false <-> a <> b.
Proof.
  split.
  - apply Byte.eqb_false.
  - intros H. destruct (Byte.eqb a b) eqn:E; [|reflexivity].
    apply byte_eqb_eq in E. contradiction.
Qed.

Lemma bytes_eqb_eq (a b : list byte) : bytes_eqb a b = true <-> a = b.
Proof.
  revert b. induction a as [|x a IH]; intros [|y b]; simpl; split; intros H;
    try reflexivity; try discriminate.
  - apply andb_true_iff in H. destruct H as [H1 H2].
    apply byte_eqb_eq in H1. apply IH in H2. congruence.
  - inversion H; subst. rewrite byte_eqb_refl. simpl. now apply IH.
Qed.

Lemma bytes_eqb_refl (a : list byte) : bytes_eqb a a = true.
Proof. now apply bytes_eqb_eq. Qed.

Lemma bytes_eqb_neq (a b : list byte) : bytes_eqb a b = false <-> a <> b.
Proof.
  split.
  - intros H E. apply bytes_eqb_eq in E. congruence.
  - intros H. destruct (bytes_eqb a b) eqn:E; [|reflexivity].
    apply bytes_eqb_eq in E. contradiction.
Qed.

Lemma string_compare_eq (a b : list byte) : string_compare a b = Eq <-> a = b.
Proof.
  revert b. induction a as [|x a IH]; intros [|y b]; simpl; split; intros H;
    try reflexivity; try discriminate.
  - destruct (Z.compare_spec (code x) (code y)) as [E|E|E]; try discriminate.
    apply code_inj in E. apply IH in H. congruence.
  - inversion H; subst. rewrite Z.compare_refl. now apply IH.
Qed.

Lemma string_compare_refl (a : list byte) : string_compare a a = Eq.
Proof. now apply string_compare_eq. Qed.

Lemma string_compare_antisym (a b : list byte) :
  string_compare b a = CompOpp (string_compare a b).
Proof.
  revert b. induction a as [|x a IH]; intros [|y b]; simpl; try reflexivity.
  rewrite (Z.compare_antisym (code x) (code y)).
  destruct (code x ?= code y); simpl; auto.
Qed.

Lemma string_compare_trans_lt (a b c : list byte) :
  string_compare a b = Lt -> string_compare b c = Lt -> string_compare a c = Lt.
Proof.
  revert b c. induction a as [|x a IH]; intros [|y b] [|z c]; simpl;
    try discriminate; try reflexivity.
  destruct (Z.compare_spec (code x) (code y)) as [E1|E1|E1]; try discriminate;
    destruct (Z.compare_spec (code y) (code z)) as [E2|E2|E2]; try discriminate;
    intros H1 H2.
  - rewrite E1, E2, Z.compare_refl. eauto.
  - rewrite E1. now apply Z.compare_lt_iff in E2 as ->.
  - rewrite <- E2. now apply Z.compare_lt_iff in E1 as ->.
  - assert (E : code x < code z) by lia. now apply Z.compare_lt_iff in E as ->.
Qed.


(** * Properties *)

(** ** The map *)

Lemma map_find_set_same (k : list byte) (v : JSON) (m : map_t) :
  map_find k (map_set k v m) = Some v.
Proof.
  induction m as [|[k' v'] m IH]; simpl.
  - now rewrite bytes_eqb_refl.
  - destruct (string_compare k k') eqn:E; simpl.
    + apply string_compare_eq in E. subst. now rewrite bytes_eqb_refl.
    + now rewrite bytes_eqb_refl.
    + destruct (bytes_eqb k k') eqn:E'; [|exact IH].
      apply bytes_eqb_eq in E'. subst.
      rewrite string_compare_refl in E. discriminate.
Qed.

Lemma map_find_set_other (k k' : list byte) (v : JSON) (m : map_t) :
  k' <> k -> map_find k' (map_set k v m) = map_find k' m.
Proof.
  intros Hne. induction m as [|[k0 v0] m IH]; simpl.
  - apply bytes_eqb_neq in Hne. now rewrite Hne.
  - destruct (string_compare k k0) eqn:E; simpl.
    + apply string_compare_eq in E. subst. 
      apply bytes_eqb_neq in Hne. now rewrite Hne.
    + apply bytes_eqb_neq in Hne. now rewrite Hne.
    + destruct (bytes_eqb k' k0); [reflexivity | exact IH].
Qed.

Lemma map_find_subscript_same (k : list byte) (m : map_t) :
  map_find k (map_subscript k m)
  = Some (match map_find k m with Some v => v | None => JNull end).
Proof.
  unfold map_subscript. destruct (map_find k m) eqn:E.
  - exact E.
  - apply map_find_set_same.
Qed.

Lemma map_find_subscript_other (k k' : list byte) (m : map_t) :
  k' <> k -> map_find k' (map_subscript k m) = map_find k' m.
Proof.
  intros Hne. unfold map_subscript. destruct (map_find k m).
  - reflexivity.
  - now apply map_find_set_other.
Qed.

(** ** Type projection *)

(** C2, as stated, fails: [get<int>()] on the Double 1.5, whose truncation
    is 1, throws "Not an integer" instead of returning 1. *)
Lemma get_int_of_double_throws :
  double_trunc one_and_a_half = Some 1 /\
  getType (JDouble one_and_a_half) = Double /\
  get_int (JDouble one_and_a_half) = Raise (runtime_error (str "Not an integer")) /\
  get_int (JDouble one_and_a_half) <> Return 1.
Proof.
  repeat split; try reflexivity. discriminate.
Qed.

(** The integer part of a finite double, stated on its mantissa and
    exponent: [a] is the integer part of [m * 2^e]. *)
Lemma double_trunc_integer_part (s : bool) (m : positive) (e a : Z) :
  0 <= a ->
  (0 <= e -> a = Zpos m * 2 ^ e) ->
  (e < 0 -> a * 2 ^ (- e) <= Zpos m < (a + 1) * 2 ^ (- e)) ->
  double_trunc (S754_finite s m e) = Some (if s then - a else a).
Proof.
  intros Ha Hpos Hneg. unfold double_trunc.
  destruct (Z.leb_spec 0 e) as [He|He].
  - now rewrite (Hpos He).
  - specialize (Hneg He).
    assert (Hq : 0 < 2 ^ (- e)) by (apply Z.pow_pos_nonneg; lia).
    replace (Zpos m / 2 ^ (- e)) with a; [reflexivity|].
    apply (Z.div_unique (Zpos m) (2 ^ (- e)) a (Zpos m - a * 2 ^ (- e))); lia.
Qed.

(** C2, amended: [get<int>()] returns the stored integer when the tag is
    Integer and throws the type mismatch "Not an integer" for every other tag,
    Double included: the arithmetic coercion is never used for [int].
    [get<long>()], which has no specialization of its own and so takes the
    arithmetic coercion, returns the stored integer when the tag is Integer;
    when the tag is Double it returns the stored double with its fraction
    discarded, that is, for the double [(-1)^s * m * 2^e], the integer [a]
    with [a <= m * 2^e < a + 1] under the sign of the double, provided it is
    a value of [long]; the cast is undefined when it is not, and for an
    infinity and for a NaN; on every other tag [get<long>()] throws
    "Not a numeric type". *)
Theorem get_int_projection (v : JSON) :
  (forall i, v = JInteger i -> get_int v = Return i) /\
  (getType v <> Integer ->
   get_int v = Raise (runtime_error (str "Not an integer"))) /\
  (forall i, v = JInteger i -> get_long v = Return i) /\
  (forall s m e a,
     v = JDouble (S754_finite s m e) -> 0 <= a ->
     (0 <= e -> a = Zpos m * 2 ^ e) ->
     (e < 0 -> a * 2 ^ (- e) <= Zpos m < (a + 1) * 2 ^ (- e)) ->
     (LONG_MIN <= (if s then - a else a) <= LONG_MAX ->
      get_long v = Return (if s then - a else a)) /\
     (~ LONG_MIN <= (if s then - a else a) <= LONG_MAX ->
      get_long v = UndefinedBehaviour)) /\
  (forall s, v = JDouble (S754_zero s) -> get_long v = Return 0) /\
  (forall s, v = JDouble (S754_infinity s) -> get_long v = UndefinedBehaviour) /\
  (v = JDouble S754_nan -> get_long v = UndefinedBehaviour) /\
  (getType v <> Integer -> getType v <> Double ->
   get_long v = Raise (runtime_error (str "Not a numeric type"))).
Proof.
  split; [|split; [|split; [|split; [|split; [|split; [|split]]]]]].
  - intros i ->. reflexivity.
  - destruct v; simpl; intros H; try reflexivity. contradiction.
  - intros i ->. reflexivity.
  - intros s m e a -> Ha Hpos Hneg.
    unfold get_long, JSONTypeTraits_arithmetic_long_get, static_cast_double.
    rewrite (double_trunc_integer_part s m e a Ha Hpos Hneg). split.
    + intros [Hlo Hhi]. apply Z.leb_le in Hlo. apply Z.leb_le in Hhi.
      now rewrite Hlo, Hhi.
    + intros H.
      destruct (Z.leb_spec LONG_MIN (if s then - a else a)) as [Hlo|Hlo];
        [|reflexivity].
      destruct (Z.leb_spec (if s then - a else a) LONG_MAX) as [Hhi|Hhi];
        [|reflexivity].
      exfalso. apply H. split; assumption.
  - intros s ->. reflexivity.
  - intros s ->. reflexivity.
  - intros ->. reflexivity.
  - destruct v; simpl; intros H1 H2; try reflexivity; contradiction.
Qed.

Lemma get_int_projection_witness :
  get_int (JInteger 7) = Return 7 /\
  get_int (JString (str "7")) = Raise (runtime_error (str "Not an integer")) /\
  get_long (JDouble one_and_a_half) = Return 1 /\
  get_long (JDouble (S754_finite true 6755399441055744 (-52))) = Return (-1) /\
  get_long (JDouble (S754_finite false 1 64)) = UndefinedBehaviour /\
  get_long (JBoolean true) = Raise (runtime_error (str "Not a numeric type")).
Proof.
  split; [|split; [|split; [|split; [|split]]]].
  - apply (proj1 (get_int_projection (JInteger 7)) 7). reflexivity.
  - apply (proj1 (proj2 (get_int_projection (JString (str "7"))))).
    simpl. discriminate.
  - apply (proj1 (proj1 (proj2 (proj2 (proj2
             (get_int_projection (JDouble one_and_a_half)))))
             false 6755399441055744%positive (-52) 1 eq_refl ltac:(lia)
             ltac:(lia) ltac:(intros _; vm_compute; split; [discriminate|reflexivity]))).
    unfold LONG_MIN, LONG_MAX. lia.
  - apply (proj1 (proj1 (proj2 (proj2 (proj2
             (get_int_projection
                (JDouble (S754_finite true 6755399441055744 (-52)))))))
             true 6755399441055744%positive (-52) 1 eq_refl ltac:(lia)
             ltac:(lia) ltac:(intros _; vm_compute; split; [discriminate|reflexivity]))).
    unfold LONG_MIN, LONG_MAX. lia.
  - apply (proj2 (proj1 (proj2 (proj2 (proj2
             (get_int_projection (JDouble (S754_finite false 1 64))))))
             false 1%positive 64 (2 ^ 64) eq_refl ltac:(lia)
             ltac:(intros _; reflexivity) ltac:(lia))).
    unfold LONG_MIN, LONG_MAX. lia.
  - apply (proj2 (proj2 (proj2 (proj2 (proj2 (proj2 (proj2
             (get_int_projection (JBoolean true))))))))); discriminate.
Defined.

(** ** Keyed access *)



(** C6: const keyed access is a function of the value alone (there is no new
    state of the value): it throws the type mismatch naming the key when the
    tag is not Object, Null included, [std::out_of_range] when the object has
    no entry for the key, and returns the entry otherwise. *)
Theorem subscript_const_never_vivifies (v : JSON) (k : list byte) :
  (getType v <> Object ->
   subscript_const v k = Raise (runtime_error
       (str "Field " ++ [x22] ++ k ++ [x22] ++ str " is not an object."))) /\
  (forall o, v = JObject o -> map_find k o = None ->
     subscript_const v k = Raise out_of_range) /\
  (forall o x, v = JObject o -> map_find k o = Some x ->
     subscript_const v k = Return x).
Proof.
  repeat split.
  - destruct v; simpl; intros H; try reflexivity. contradiction.
  - intros o -> Hk. simpl. unfold map_at. now rewrite Hk.
  - intros o x -> Hk. simpl. unfold map_at. now rewrite Hk.
Qed.

Lemma subscript_const_never_vivifies_witness :
  subscript_const JNull (str "a")
  = Raise (runtime_error (not_an_object_message (str "a"))) /\
  subscript_const (JObject [(str "b", JNull)]) (str "a") = Raise out_of_range /\
  subscript_const (JObject [(str "a", JInteger 1)]) (str "a") = Return (JInteger 1).
Proof.
  split; [|split].
  - apply (proj1 (subscript_const_never_vivifies JNull (str "a"))).
    simpl. discriminate.
  - apply (proj1 (proj2 (subscript_const_never_vivifies
                           (JObject [(str "b", JNull)]) (str "a")))
             [(str "b", JNull)]); reflexivity.
  - apply (proj2 (proj2 (subscript_const_never_vivifies
                           (JObject [(str "a", JInteger 1)]) (str "a")))
             [(str "a", JInteger 1)] (JInteger 1)); reflexivity.
Defined.

(** ** The output stream *)

Lemma put_put (a b : list byte) (oss : ostringstream) :
  put b (put a oss) = put (a ++ b) oss.
Proof.
  unfold put. simpl. now rewrite app_assoc.
Qed.

Lemma put_nil (oss : ostringstream) : put [] oss = oss.
Proof.
  destruct oss. unfold put. simpl. now rewrite app_nil_r.
Qed.

Lemma added_app (o : ostringstream) (t : list byte) (o' : ostringstream) :
  oss_str o' = oss_str o ++ t -> added o o' = t.
Proof.
  intros H. unfold added. rewrite H.
  rewrite skipn_app, skipn_all, Nat.sub_diag. reflexivity.
Qed.

(** ** Digits *)

Lemma digits_acc_Forall (P : byte -> Prop) (base : Z) :
  0 < base ->
  (forall d, 0 <= d < base -> P (digit_char d)) ->
  forall fuel n acc, Forall P acc -> Forall P (digits_acc fuel base n acc).
Proof.
  intros Hb Hd. induction fuel as [|f IH]; intros n acc Hacc; simpl.
  - exact Hacc.
  - assert (Hc : Forall P (digit_char (n mod base) :: acc)).
    { constructor; [|exact Hacc]. apply Hd. now apply Z.mod_pos_bound. }
    destruct (n / base =? 0); [exact Hc | now apply IH].
Qed.

Lemma digits_of_Forall (P : byte -> Prop) (base n : Z) :
  0 < base ->
  (forall d, 0 <= d < base -> P (digit_char d)) ->
  Forall P (digits_of base n).
Proof.
  intros Hb Hd. unfold digits_of. now apply digits_acc_Forall.
Qed.

Lemma small_cases (d : Z) (P : Z -> Prop) :
  0 <= d < 16 ->
  P 0 -> P 1 -> P 2 -> P 3 -> P 4 -> P 5 -> P 6 -> P 7 -> P 8 -> P 9 ->
  P 10 -> P 11 -> P 12 -> P 13 -> P 14 -> P 15 -> P d.
Proof.
  intros H. intros.
  assert (E : d = 0 \/ d = 1 \/ d = 2 \/ d = 3 \/ d = 4 \/ d = 5 \/ d = 6 \/ d = 7
              \/ d = 8 \/ d = 9 \/ d = 10 \/ d = 11 \/ d = 12 \/ d = 13 \/ d = 14
              \/ d = 15) by lia.
  repeat (destruct E as [E|E]; [subst; assumption|]). subst; assumption.
Qed.

Lemma digit_char_is_digit (d : Z) : 0 <= d < 10 -> is_digit (digit_char d) = true.
Proof.
  intros H. apply (small_cases d (fun d => d < 10 -> is_digit (digit_char d) = true));
    try lia; intros; try reflexivity; lia.
Qed.

Lemma digit_char_value (d : Z) : 0 <= d < 10 -> digit_value (digit_char d) = d.
Proof.
  intros H. apply (small_cases d (fun d => d < 10 -> digit_value (digit_char d) = d));
    try lia; intros; try reflexivity; lia.
Qed.

Lemma digit_char_number_char (d : Z) : 0 <= d < 16 -> number_char (digit_char d).
Proof.
  intros H. apply (small_cases d (fun d => number_char (digit_char d))); try exact H;
    reflexivity.
Qed.

(** ** Strings in the serializer *)

Lemma dumpChar_str (cs : bool) (ch : byte) (oss : ostringstream) :
  oss_str (dumpChar cs ch oss) = oss_str oss ++ escape_char cs ch.
Proof.
  unfold escape_char, dumpChar.
  repeat match goal with
         | |- context [if ?c then _ else _] => destruct c
         end; simpl; try reflexivity.
  unfold pad_left. now rewrite <- !app_assoc.
Qed.

Lemma dumpChars_str (cs : bool) (s : list byte) (oss : ostringstream) :
  oss_str (fold_left (fun o ch => dumpChar cs ch o) s oss)
  = oss_str oss ++ flat_map (escape_char cs) s.
Proof.
  revert oss. induction s as [|ch s IH]; intros oss; simpl.
  - now rewrite app_nil_r.
  - rewrite IH, dumpChar_str. now rewrite app_assoc.
Qed.

(** The text of a string: a quote, the escaped characters, a quote. *)
Lemma dumpString_str (cs : bool) (s : list byte) (oss : ostringstream) :
  oss_str (dumpString cs s oss)
  = oss_str oss ++ x22 :: flat_map (escape_char cs) s ++ [x22].
Proof.
  unfold dumpString. simpl. rewrite dumpChars_str. simpl.
  rewrite <- !app_assoc. reflexivity.
Qed.

(** Where [char] is unsigned the serializer escapes every byte as the
    specification says. *)
Lemma escape_char_unsigned (ch : byte) : escape_char false ch = spec_escape ch.
Proof.
  destruct ch; reflexivity.
Qed.

(** Where [char] is signed it does so for the bytes below 0x80. *)
Lemma escape_char_signed_ascii (ch : byte) :
  code ch < 128 -> escape_char true ch = spec_escape ch.
Proof.
  destruct ch; intros H; try reflexivity; vm_compute in H; discriminate.
Qed.

Lemma dumpString_unsigned (s : list byte) :
  oss_str (dumpString false s oss_new) = spec_string s.
Proof.
  rewrite dumpString_str. simpl. unfold spec_string. f_equal. f_equal.
  induction s as [|ch s IH]; simpl; [reflexivity|].
  now rewrite IH, escape_char_unsigned.
Qed.

(** C4 fails where [char] is signed (x86-64 among others): a byte from 0x80 on
    is a negative [char], so [ch < 32] holds and the byte is written as a
    backslash, [u] and the eight hexadecimal digits of the negative [int].
    The UTF-8 text of U+00E9, bytes C3 A9, is serialized with the escapes
    [uffffffc3] and [uffffffa9], where the specification has the two bytes
    unescaped, as the code does where [char] is unsigned. *)
Theorem dumpString_signed_char_escapes_utf8 :
  dump true (JString e_acute) 4
  = x22 :: x5c :: str "uffffffc3" ++ x5c :: str "uffffffa9" ++ [x22] /\
  spec_string e_acute = x22 :: e_acute ++ [x22] /\
  dump false (JString e_acute) 4 = spec_string e_acute.
Proof.
  repeat split; reflexivity.
Qed.

(** ** Layout of arrays and objects *)

Section LayoutFacts.

Variable dv : JSON -> ostringstream -> Z -> Z -> ostringstream.
Variable cs : bool.
Variables level indent : Z.

Lemma dumpArray_loop_lines (size : Z) (items : list JSON) :
  forall i oss, size = i + Z.of_nat (length items) ->
  dumpArray_loop dv true size level indent i items oss
  = array_lines dv level indent items oss.
Proof.
  induction items as [|item rest IH]; intros i oss Hsize; simpl; [reflexivity|].
  rewrite IH by (simpl length in Hsize; lia).
  f_equal. destruct rest as [|item' rest].
  - simpl in Hsize. replace (i <? size - 1) with false
      by (symmetry; apply Z.ltb_ge; lia). reflexivity.
  - simpl length in Hsize. replace (i <? size - 1) with true
      by (symmetry; apply Z.ltb_lt; lia). simpl. now rewrite put_put.
Qed.

Lemma dumpArray_loop_inline (size : Z) (items : list JSON) :
  forall i oss, size = i + Z.of_nat (length items) ->
  dumpArray_loop dv false size level indent i items oss
  = array_inline dv level indent items oss.
Proof.
  induction items as [|item rest IH]; intros i oss Hsize; simpl; [reflexivity|].
  rewrite IH by (simpl length in Hsize; lia).
  f_equal. destruct rest as [|item' rest].
  - simpl in Hsize. replace (i <? size - 1) with false
      by (symmetry; apply Z.ltb_ge; lia). now rewrite put_nil.
  - simpl length in Hsize. replace (i <? size - 1) with true
      by (symmetry; apply Z.ltb_lt; lia). simpl. now rewrite put_put.
Qed.

Lemma dumpObject_loop_lines (size : Z) (members : list (list byte * JSON)) :
  0 < indent ->
  forall i oss, size = i + Z.of_nat (length members) ->
  dumpObject_loop cs dv size level indent i members oss
  = object_lines dv cs level indent members oss.
Proof.
  intros Hind. apply Z.ltb_lt in Hind.
  induction members as [|[key value] rest IH]; intros i oss Hsize; simpl;
    [reflexivity|].
  rewrite Hind. rewrite IH by (simpl length in Hsize; lia).
  f_equal. rewrite put_put. simpl app. destruct rest as [|m rest].
  - simpl in Hsize. replace (i + 1 <? size) with false
      by (symmetry; apply Z.ltb_ge; lia). reflexivity.
  - simpl length in Hsize. replace (i + 1 <? size) with true
      by (symmetry; apply Z.ltb_lt; lia). now rewrite put_put.
Qed.

Lemma dumpArray_pretty (arr : list JSON) (oss : ostringstream) :
  existsb is_complex arr = true -> 0 < indent ->
  dumpArray dv arr oss level indent
  = put [x5d] (put (spaces level)
                 (array_lines dv level indent arr (put [x5b; x0a] oss))).
Proof.
  intros Hc Hi. apply Z.ltb_lt in Hi. unfold dumpArray. rewrite Hc, Hi.
  cbv zeta. simpl andb. cbv iota.
  rewrite dumpArray_loop_lines by lia. now rewrite (put_put [x5b] [x0a]).
Qed.

Lemma dumpArray_one_line (arr : list JSON) (oss : ostringstream) :
  existsb is_complex arr = false \/ indent <= 0 ->
  dumpArray dv arr oss level indent
  = put [x5d] (array_inline dv level indent arr (put [x5b] oss)).
Proof.
  intros H. unfold dumpArray.
  assert (E : existsb is_complex arr && (0 <? indent) = false).
  { destruct H as [H|H]; [now rewrite H|].
    apply Z.ltb_ge in H. rewrite H. apply andb_false_r. }
  rewrite E. now rewrite dumpArray_loop_inline by lia.
Qed.

Lemma dumpObject_pretty (obj : list (list byte * JSON)) (oss : ostringstream) :
  0 < indent ->
  dumpObject cs dv obj oss level indent
  = put [x7d] (put (spaces level)
                 (object_lines dv cs level indent obj (put [x7b; x0a] oss))).
Proof.
  intros Hi. unfold dumpObject. rewrite dumpObject_loop_lines by lia.
  apply Z.ltb_lt in Hi. rewrite Hi. now rewrite (put_put [x7b] [x0a]).
Qed.

End LayoutFacts.

(** ** Texts without line break *)

Lemma no_newline_app (a b : list byte) :
  no_newline (a ++ b) <-> no_newline a /\ no_newline b.
Proof.
  unfold no_newline. rewrite forallb_app. apply andb_true_iff.
Qed.

Lemma number_char_no_newline (t : list byte) :
  Forall number_char t -> no_newline t.
Proof.
  unfold no_newline. intros H. apply forallb_forall. intros c Hc.
  rewrite Forall_forall in H. specialize (H c Hc).
  destruct (Byte.eqb c x0a) eqn:E; [|reflexivity].
  apply byte_eqb_eq in E. subst. discriminate H.
Qed.

Lemma escape_char_no_newline (cs : bool) (ch : byte) :
  no_newline (escape_char cs ch).
Proof.
  destruct cs; destruct ch; reflexivity.
Qed.

Lemma flat_map_no_newline (cs : bool) (s : list byte) :
  no_newline (flat_map (escape_char cs) s).
Proof.
  induction s as [|ch s IH]; simpl; [reflexivity|].
  apply no_newline_app. split; [apply escape_char_no_newline | exact IH].
Qed.

Lemma extends_refl (o : ostringstream) (P : list byte -> Prop) :
  P [] -> extends o o P.
Proof.
  intros H. exists []. split; [now rewrite app_nil_r | exact H].
Qed.

Lemma extends_put (o : ostringstream) (s : list byte) (P : list byte -> Prop) :
  P s -> extends o (put s o) P.
Proof.
  intros H. exists s. split; [reflexivity | exact H].
Qed.

Lemma extends_trans (o o' o'' : ostringstream) (P Q R : list byte -> Prop) :
  extends o o' P -> extends o' o'' Q ->
  (forall a b, P a -> Q b -> R (a ++ b)) ->
  extends o o'' R.
Proof.
  intros [a [Ha Pa]] [b [Hb Qb]] H. exists (a ++ b). split.
  - rewrite Hb, Ha. now rewrite app_assoc.
  - now apply H.
Qed.

Lemma extends_weaken (o o' : ostringstream) (P Q : list byte -> Prop) :
  extends o o' P -> (forall t, P t -> Q t) -> extends o o' Q.
Proof.
  intros [t [Ht Pt]] H. exists t. auto.
Qed.

Lemma extends_if_put (c : bool) (s : list byte) (o : ostringstream)
    (P : list byte -> Prop) :
  P [] -> (c = true -> P s) -> extends o (if c then put s o else o) P.
Proof.
  intros H0 Hs. destruct c; [apply extends_put; auto | now apply extends_refl].
Qed.

Lemma extends_nn_trans (o o' o'' : ostringstream) (C : Prop) :
  extends o o' (fun t => C -> no_newline t) ->
  extends o' o'' (fun t => C -> no_newline t) ->
  extends o o'' (fun t => C -> no_newline t).
Proof.
  intros H1 H2. apply (extends_trans _ _ _ _ _ _ H1 H2).
  intros a b Ha Hb HC. apply no_newline_app. auto.
Qed.

Lemma extends_nn_put (o : ostringstream) (s : list byte) (C : Prop) :
  (C -> no_newline s) -> extends o (put s o) (fun t => C -> no_newline t).
Proof.
  intros H. now apply extends_put.
Qed.

Lemma extends_nn_if (c : bool) (s : list byte) (o : ostringstream) (C : Prop) :
  (C -> c = true -> no_newline s) ->
  extends o (if c then put s o else o) (fun t => C -> no_newline t).
Proof.
  intros H. apply extends_if_put; [reflexivity | auto].
Qed.

Lemma extends_nn_sep (c1 c2 : bool) (a b : list byte) (o : ostringstream)
    (C : Prop) :
  (C -> no_newline a) -> (C -> no_newline b) ->
  extends o (if c1 then if c2 then put b (put a o) else put a o else o)
    (fun t => C -> no_newline t).
Proof.
  intros Ha Hb. destruct c1; [|apply extends_refl; reflexivity].
  destruct c2; [|now apply extends_nn_put].
  rewrite put_put. apply extends_nn_put. intros HC.
  apply no_newline_app. auto.
Qed.

Lemma Forall_firstn_ (P : byte -> Prop) (n : nat) (l : list byte) :
  Forall P l -> Forall P (firstn n l).
Proof.
  intros H. rewrite <- (firstn_skipn n l) in H. now apply Forall_app in H.
Qed.

Lemma Forall_skipn_ (P : byte -> Prop) (n : nat) (l : list byte) :
  Forall P l -> Forall P (skipn n l).
Proof.
  intros H. rewrite <- (firstn_skipn n l) in H. now apply Forall_app in H.
Qed.

Lemma Forall_drop_zeros (P : byte -> Prop) (l : list byte) :
  Forall P l -> Forall P (drop_zeros l).
Proof.
  induction 1 as [|c l Hc Hl IH]; simpl; [constructor|].
  destruct (code c =? 48); [exact IH | now constructor].
Qed.

Lemma Forall_strip_trailing_zeros (P : byte -> Prop) (l : list byte) :
  Forall P l -> Forall P (strip_trailing_zeros l).
Proof.
  intros H. unfold strip_trailing_zeros.
  now apply Forall_rev, Forall_drop_zeros, Forall_rev.
Qed.

Lemma Forall_repeat_ (P : byte -> Prop) (c : byte) (n : nat) :
  P c -> Forall P (repeat c n).
Proof.
  intros H. induction n; simpl; now constructor.
Qed.

Lemma digits_of_number_chars (base n : Z) :
  0 < base <= 16 -> Forall number_char (digits_of base n).
Proof.
  intros H. apply digits_of_Forall; [lia|].
  intros d Hd. apply digit_char_number_char. lia.
Qed.

Lemma format_g_number_chars (num den : Z) : Forall number_char (format_g num den).
Proof.
  unfold format_g. destruct (sig_digits num den) as [D X].
  assert (Hds : Forall number_char (digits_of 10 D))
    by (apply digits_of_number_chars; lia).
  assert (H0 : number_char x30) by reflexivity.
  assert (Hp : number_char x2e) by reflexivity.
  destruct ((X <? -4) || (6 <=? X)).
  - apply Forall_app. split.
    + pose proof (Forall_strip_trailing_zeros _ _ Hds) as Hs.
      destruct (strip_trailing_zeros (digits_of 10 D)) as [|d1 [|d2 r]]; auto.
      inversion Hs; subst. constructor; auto.
    + constructor; [reflexivity|].
      constructor.
      { destruct (X <? 0); reflexivity. }
      unfold pad_left. apply Forall_app. split.
      * now apply Forall_repeat_.
      * apply digits_of_number_chars; lia.
  - destruct (0 <=? X).
    + pose proof (Forall_strip_trailing_zeros _ _
                    (Forall_skipn_ _ (Z.to_nat (X + 1)) _ Hds)) as Hs.
      destruct (strip_trailing_zeros (skipn (Z.to_nat (X + 1)) (digits_of 10 D))).
      * now apply Forall_firstn_.
      * apply Forall_app. split; [now apply Forall_firstn_|]. now constructor.
    + constructor; auto. constructor; auto. apply Forall_app. split.
      * now apply Forall_repeat_.
      * now apply Forall_strip_trailing_zeros.
Qed.

Lemma format_double_number_chars (d : double) : Forall number_char (format_double d).
Proof.
  destruct d as [s|s| |s m e]; simpl.
  - destruct s; repeat constructor.
  - destruct s; repeat constructor.
  - repeat constructor.
  - apply Forall_app. split.
    + destruct s; repeat constructor.
    + destruct (0 <=? e); apply format_g_number_chars.
Qed.

Lemma dec_of_int_number_chars (i : Z) : Forall number_char (dec_of_int i).
Proof.
  unfold dec_of_int. destruct (i <? 0).
  - constructor; [reflexivity|].
    apply digits_of_number_chars; lia.
  - apply digits_of_number_chars; lia.
Qed.

Lemma hex_of_int_number_chars (i : Z) : Forall number_char (hex_of_int i).
Proof.
  unfold hex_of_int. apply digits_of_number_chars; lia.
Qed.

Lemma put_int_0_str (i : Z) (oss : ostringstream) :
  oss_str (put_int 0 i oss)
  = oss_str oss ++ (if oss_hex oss then hex_of_int i else dec_of_int i).
Proof.
  reflexivity.
Qed.

Section AddsText.

Variable cs : bool.

Lemma dumpString_extends (s : list byte) (oss : ostringstream) (C : Prop) :
  extends oss (dumpString cs s oss) (fun t => C -> no_newline t).
Proof.
  exists (x22 :: flat_map (escape_char cs) s ++ [x22]).
  split; [apply dumpString_str|]. intros _.
  change (no_newline ([x22] ++ flat_map (escape_char cs) s ++ [x22])).
  repeat (apply no_newline_app; split); try reflexivity.
  apply flat_map_no_newline.
Qed.

Lemma dumpArray_loop_adds (items : list JSON) :
  Forall (adds_text cs) items ->
  forall pp size level indent i oss,
    extends oss (dumpArray_loop (dumpValue cs) pp size level indent i items oss)
      (fun t => pp = false /\
                (indent <= 0 \/ existsb is_complex items = false) -> no_newline t).
Proof.
  induction 1 as [|item rest Hitem Hrest IH]; intros pp size level indent i oss;
    simpl.
  - apply extends_refl. reflexivity.
  - (* the rest of the elements *)
    eapply extends_nn_trans.
    2: { eapply extends_weaken; [apply IH|]. simpl. intros t Ht [Hpp [Hc|Hc]].
         - apply Ht. split; [assumption | now left].
         - apply Ht. split; [assumption | right]. now apply orb_false_iff in Hc. }
    (* the newline *)
    eapply extends_nn_trans.
    2: { apply extends_nn_if. intros [-> _] E. discriminate. }
    (* the separator *)
    eapply extends_nn_trans.
    2: { apply extends_nn_sep; reflexivity. }
    (* the element *)
    eapply extends_nn_trans.
    2: { eapply extends_weaken; [apply Hitem|]. simpl. intros t Ht [_ [Hc|Hc]].
         - apply Ht. now left.
         - apply Ht. right. now apply orb_false_iff in Hc. }
    (* the indentation *)
    apply extends_nn_if. intros [-> _] E. discriminate.
Qed.

Lemma dumpObject_loop_adds (members : list (list byte * JSON)) :
  Forall (fun kv => adds_text cs (snd kv)) members ->
  forall size level indent i oss,
    extends oss
      (dumpObject_loop cs (dumpValue cs) size level indent i members oss)
      (fun t => indent <= 0 -> no_newline t).
Proof.
  induction 1 as [|[key value] rest Hv Hrest IH]; intros size level indent i oss;
    simpl.
  - apply extends_refl. reflexivity.
  - simpl in Hv.
    assert (Hoff : indent <= 0 -> (0 <? indent) = true -> False)
      by (intros H1 H2; apply Z.ltb_lt in H2; lia).
    eapply extends_nn_trans; [|apply IH].
    eapply extends_nn_trans;
      [|apply extends_nn_if; intros H1 H2; now destruct (Hoff H1 H2)].
    eapply extends_nn_trans; [|apply extends_nn_if; reflexivity].
    eapply extends_nn_trans.
    2: { eapply extends_weaken; [apply Hv|]. simpl. intros t Ht Hi.
         apply Ht. now left. }
    eapply extends_nn_trans; [|apply extends_nn_if; reflexivity].
    eapply extends_nn_trans; [|apply extends_nn_put; reflexivity].
    eapply extends_nn_trans; [|apply dumpString_extends].
    apply extends_nn_if. intros H1 H2. now destruct (Hoff H1 H2).
Qed.

Lemma dumpValue_adds_text (v : JSON) : adds_text cs v.
Proof.
  induction v as [ |b|i|d|s|a IH|o IH] using JSON_nested_ind;
    intros oss level indent; simpl.
  - apply extends_put. reflexivity.
  - apply extends_put. destruct b; reflexivity.
  - exists (if oss_hex oss then hex_of_int i else dec_of_int i).
    split; [apply put_int_0_str|]. intros _.
    apply number_char_no_newline.
    destruct (oss_hex oss);
      [apply hex_of_int_number_chars | apply dec_of_int_number_chars].
  - apply extends_put. intros _.
    apply number_char_no_newline, format_double_number_chars.
  - apply dumpString_extends.
  - unfold dumpArray.
    set (pp := existsb is_complex a && (0 <? indent)).
    assert (Hpp : indent <= 0 \/ is_complex (JArray a) = false -> pp = false).
    { intros [Hi|Hc]; [|discriminate]. unfold pp.
      apply Z.ltb_ge in Hi. rewrite Hi. apply andb_false_r. }
    eapply extends_nn_trans; [|apply extends_nn_put; reflexivity].
    eapply extends_nn_trans.
    2: { apply extends_nn_if. intros H E. rewrite (Hpp H) in E. discriminate. }
    eapply extends_nn_trans.
    2: { eapply extends_weaken; [apply (dumpArray_loop_adds a IH)|]. simpl.
         intros t Ht H. apply Ht. split; [now apply Hpp|].
         destruct H as [H|H]; [now left | discriminate]. }
    eapply extends_nn_trans.
    2: { apply extends_nn_if. intros H E. rewrite (Hpp H) in E. discriminate. }
    apply extends_nn_put. reflexivity.
  - unfold dumpObject.
    assert (Hoff : indent <= 0 \/ is_complex (JObject o) = false ->
                   (0 <? indent) = true -> False).
    { intros [H1|H1] H2; [|discriminate]. apply Z.ltb_lt in H2. lia. }
    eapply extends_nn_trans; [|apply extends_nn_put; reflexivity].
    eapply extends_nn_trans.
    2: { apply extends_nn_if. intros H1 H2. now destruct (Hoff H1 H2). }
    eapply extends_nn_trans.
    2: { eapply extends_weaken; [apply (dumpObject_loop_adds o IH)|]. simpl.
         intros t Ht [H|H]; [auto | discriminate]. }
    eapply extends_nn_trans.
    2: { apply extends_nn_if. intros H1 H2. now destruct (Hoff H1 H2). }
    apply extends_nn_put. reflexivity.
Qed.

End AddsText.

Lemma all_add_text (cs : bool) (l : list JSON) : Forall (adds_text cs) l.
Proof.
  apply Forall_forall. intros v _. apply dumpValue_adds_text.
Qed.

(** C9: an array is written one element per line exactly when it has an
    Array or Object element and [indent > 0]; in every other case its
    elements are written on one line (no line break in the text), separated
    by a comma and a space.  An object is written one member per line
    whenever [indent > 0], whatever its members are.  A line of a container
    at nesting [level] begins with [level + indent] blanks and its closing
    bracket with [level] blanks, [spaces n] being [n] blanks; the texts of
    three values are given in full: an array in an array with an object at
    indent 4, an object at indent 2, and an array of scalars. *)
Theorem array_pretty_iff_complex_child
    (cs : bool) (arr : list JSON) (oss : ostringstream) (level indent : Z) :
  (existsb is_complex arr = true /\ 0 < indent ->
   dumpValue cs (JArray arr) oss level indent
   = put [x5d] (put (spaces level)
        (array_lines (dumpValue cs) level indent arr (put [x5b; x0a] oss)))) /\
  (~ (existsb is_complex arr = true /\ 0 < indent) ->
   dumpValue cs (JArray arr) oss level indent
   = put [x5d] (array_inline (dumpValue cs) level indent arr (put [x5b] oss)) /\
   no_newline (added oss (dumpValue cs (JArray arr) oss level indent))) /\
  ((exists t, added oss (dumpValue cs (JArray arr) oss level indent)
              = x5b :: x0a :: t)
   <-> existsb is_complex arr = true /\ 0 < indent) /\
  (forall obj, 0 < indent ->
   dumpValue cs (JObject obj) oss level indent
   = put [x7d] (put (spaces level)
        (object_lines (dumpValue cs) cs level indent obj (put [x7b; x0a] oss)))) /\
  (forall n, length (spaces n) = Z.to_nat n /\ Forall (eq x20) (spaces n)) /\
  dump cs (JArray [JInteger 1;
                   JArray [JInteger 2;
                           JObject [(str "k", JArray [JNull; JBoolean true])]]]) 4
  = x5b :: x0a
      :: str "    1," ++ x0a
      :: str "    [" ++ x0a
      :: str "        2," ++ x0a
      :: str "        {" ++ x0a
      :: str "            " ++ x22 :: str "k" ++ x22 :: str ": [null, true]" ++ x0a
      :: str "        }" ++ x0a
      :: str "    ]" ++ x0a
      :: str "]" /\
  dump cs (JObject [(str "a", JInteger 1); (str "b", JArray [])]) 2
  = x7b :: x0a
      :: str "  " ++ x22 :: str "a" ++ x22 :: str ": 1," ++ x0a
      :: str "  " ++ x22 :: str "b" ++ x22 :: str ": []" ++ x0a
      :: str "}" /\
  dump cs (JArray [JInteger 1; JString (str "x"); JDouble one_and_a_half]) 4
  = x5b :: str "1, " ++ x22 :: str "x" ++ x22 :: str ", 1.5]".
Proof.
  assert (Hinline : ~ (existsb is_complex arr = true /\ 0 < indent) ->
                    existsb is_complex arr = false \/ indent <= 0).
  { intros H. destruct (existsb is_complex arr); [right|now left].
    destruct (Z.lt_ge_cases 0 indent); [exfalso; auto | lia]. }
  assert (Hnn : ~ (existsb is_complex arr = true /\ 0 < indent) ->
                no_newline (added oss (dumpValue cs (JArray arr) oss level indent))).
  { intros H. apply Hinline in H. simpl. unfold dumpArray.
    assert (E : existsb is_complex arr && (0 <? indent) = false).
    { destruct H as [H|H]; [now rewrite H|].
      apply Z.ltb_ge in H. rewrite H. apply andb_false_r. }
    rewrite E.
    destruct (dumpArray_loop_adds cs arr
                (all_add_text cs arr)
                false (Z.of_nat (length arr)) level indent 0 (put [x5b] oss))
      as [t [Ht Hno]].
    rewrite (added_app oss ([x5b] ++ t ++ [x5d])).
    - repeat (apply no_newline_app; split); try reflexivity.
      apply Hno. split; [reflexivity|]. tauto.
    - simpl oss_str at 1. rewrite Ht. simpl. now rewrite <- !app_assoc. }
  split; [|split; [|split; [|split; [|split; [|split; [|split]]]]]].
  - intros [Hc Hi]. simpl. now apply dumpArray_pretty.
  - intros H. split; [|now apply Hnn].
    simpl. apply dumpArray_one_line. now apply Hinline.
  - split.
    + intros [t Ht].
      destruct (existsb is_complex arr) eqn:Hc;
        destruct (Z.lt_ge_cases 0 indent) as [Hi|Hi]; auto; exfalso.
      * assert (N : ~ (true = true /\ 0 < indent)) by (intros [_ N]; lia).
        specialize (Hnn N). rewrite Ht in Hnn. discriminate.
      * assert (N : ~ (false = true /\ 0 < indent)) by (intros [N _]; discriminate).
        specialize (Hnn N). rewrite Ht in Hnn. discriminate.
      * assert (N : ~ (false = true /\ 0 < indent)) by (intros [N _]; discriminate).
        specialize (Hnn N). rewrite Ht in Hnn. discriminate.
    + intros [Hc Hi]. simpl. unfold dumpArray.
      apply Z.ltb_lt in Hi. rewrite Hc, Hi. cbv zeta. simpl andb. cbv iota.
      destruct (dumpArray_loop_adds cs arr
                (all_add_text cs arr)
                true (Z.of_nat (length arr)) level indent 0
                (put [x0a] (put [x5b] oss)))
        as [t [Ht _]].
      exists (t ++ spaces level ++ [x5d]).
      apply added_app. simpl oss_str at 1. rewrite Ht. simpl.
      now rewrite <- !app_assoc.
  - intros obj Hi. simpl. now apply dumpObject_pretty.
  - intros n. unfold spaces. split; [apply repeat_length|].
    apply Forall_forall. intros c Hc. symmetry. apply (repeat_spec _ _ _ Hc).
  - destruct cs; reflexivity.
  - destruct cs; reflexivity.
  - destruct cs; reflexivity.
Qed.

Lemma array_pretty_iff_complex_child_witness :
  dumpValue true (JArray [JArray []; JInteger 3]) oss_new 0 4
  = put [x5d] (put (spaces 0)
      (array_lines (dumpValue true) 0 4 [JArray []; JInteger 3]
         (put [x5b; x0a] oss_new))) /\
  oss_str (dumpValue true (JArray [JArray []; JInteger 3]) oss_new 0 4)
  = x5b :: x0a :: str "    []," ++ x0a :: str "    3" ++ [x0a; x5d] /\
  no_newline (added oss_new (dumpValue true (JArray [JInteger 1; JNull]) oss_new 0 4)) /\
  dumpValue true (JObject [(str "a", JNull)]) oss_new 0 4
  = put [x7d] (put (spaces 0)
      (object_lines (dumpValue true) true 0 4 [(str "a", JNull)]
         (put [x7b; x0a] oss_new))) /\
  oss_str (dumpValue true (JObject [(str "a", JNull)]) oss_new 0 4)
  = x7b :: x0a :: str "    " ++ x22 :: str "a" ++ x22 :: str ": null" ++ [x0a; x7d].
Proof.
  assert (H1 : dumpValue true (JArray [JArray []; JInteger 3]) oss_new 0 4
               = put [x5d] (put (spaces 0)
                   (array_lines (dumpValue true) 0 4 [JArray []; JInteger 3]
                      (put [x5b; x0a] oss_new)))).
  { apply (proj1 (array_pretty_iff_complex_child true [JArray []; JInteger 3]
                    oss_new 0 4)).
    split; [reflexivity | lia]. }
  assert (H2 : dumpValue true (JObject [(str "a", JNull)]) oss_new 0 4
               = put [x7d] (put (spaces 0)
                   (object_lines (dumpValue true) true 0 4 [(str "a", JNull)]
                      (put [x7b; x0a] oss_new)))).
  { apply (proj1 (proj2 (proj2 (proj2
             (array_pretty_iff_complex_child true [] oss_new 0 4))))).
    lia. }
  split; [exact H1|]. split; [rewrite H1; reflexivity|]. split; [|split].
  - apply (proj1 (proj2 (array_pretty_iff_complex_child true [JInteger 1; JNull]
                           oss_new 0 4))).
    intros [H _]. discriminate H.
  - exact H2.
  - rewrite H2. reflexivity.
Defined.

(** ** The parser monad *)

Lemma bind_Ok {A B : Type} (m : M A) (k : A -> M B) (p : parser) (b : B) (p2 : parser) :
  bind m k p = Ok b p2 <-> exists a p1, m p = Ok a p1 /\ k a p1 = Ok b p2.
Proof.
  unfold bind. split.
  - destruct (m p) as [a p1| | |]; try discriminate. eauto.
  - intros [a [p1 [-> H]]]. exact H.
Qed.

Lemma bind_of_Ok {A B : Type} (m : M A) (k : A -> M B) (p : parser) (a : A) (p1 : parser) :
  m p = Ok a p1 -> bind m k p = k a p1.
Proof.
  unfold bind. now intros ->.
Qed.

Lemma bind_not_out_of_fuel {A B : Type} (m : M A) (k : A -> M B) (p : parser) :
  m p <> OutOfFuel ->
  (forall a p1, m p = Ok a p1 -> k a p1 <> OutOfFuel) ->
  bind m k p <> OutOfFuel.
Proof.
  unfold bind. intros Hm Hk. destruct (m p) as [a p1| | |]; try discriminate.
  - now apply Hk.
  - contradiction.
Qed.

Lemma data_at_le (d : list byte) (i : nat) (c : byte) :
  data_at d i = Some c -> (i <= length d)%nat.
Proof.
  unfold data_at. destruct (nth_error d i) eqn:E.
  - intros _. apply Nat.lt_le_incl. apply nth_error_Some. congruence.
  - destruct (Nat.eqb_spec i (length d)); [lia | discriminate].
Qed.

Lemma data_at_in (d : list byte) (i : nat) :
  (i < length d)%nat -> data_at d i = nth_error d i.
Proof.
  unfold data_at. intros H. destruct (nth_error d i) eqn:E; [reflexivity|].
  apply nth_error_None in E. lia.
Qed.

Lemma data_at_end (d : list byte) : data_at d (length d) = Some x00.
Proof.
  unfold data_at. rewrite (proj2 (nth_error_None d (length d))) by lia.
  now rewrite Nat.eqb_refl.
Qed.

Lemma data_at_beyond (d : list byte) (i : nat) :
  (length d < i)%nat -> data_at d i = None.
Proof.
  unfold data_at. intros H. rewrite (proj2 (nth_error_None d i)) by lia.
  destruct (Nat.eqb_spec i (length d)); [lia | reflexivity].
Qed.

Lemma data_at_nonzero (d : list byte) (i : nat) (c : byte) :
  data_at d i = Some c -> c <> x00 -> (i < length d)%nat.
Proof.
  intros H Hc. pose proof (data_at_le _ _ _ H) as Hle.
  destruct (Nat.eq_dec i (length d)) as [E|E]; [|lia].
  subst. rewrite data_at_end in H. congruence.
Qed.

Lemma peek_Ok (p : parser) (c : byte) (p' : parser) :
  peek p = Ok c p' <-> p' = p /\ data_at (data p) (pos p) = Some c.
Proof.
  unfold peek. destruct (data_at (data p) (pos p)); split.
  - intros H. inversion H. auto.
  - intros [-> H]. inversion H. reflexivity.
  - discriminate.
  - intros [_ H]. discriminate.
Qed.

Lemma advance1_Ok (p : parser) (u : unit) (p' : parser) :
  advance1 p = Ok u p' ->
  data p' = data p /\ pos p' = S (pos p) /\ (pos p <= length (data p))%nat.
Proof.
  unfold advance1. destruct (data_at (data p) (pos p)) as [c|] eqn:E; [|discriminate].
  apply data_at_le in E.
  destruct (code c =? 10); intros H; inversion H; subst; simpl; auto.
Qed.

Lemma advance_1 (p : parser) : advance 1 p = advance1 p.
Proof.
  simpl. unfold bind, ret. destruct (advance1 p) as [[] p'| | |]; reflexivity.
Qed.

Lemma advance_Ok (n : nat) (p : parser) (u : unit) (p' : parser) :
  advance n p = Ok u p' -> data p' = data p /\ pos p' = (pos p + n)%nat.
Proof.
  revert p. induction n as [|n IH]; intros p; simpl.
  - unfold ret. intros H. inversion H. subst. split; [reflexivity | lia].
  - intros H. apply bind_Ok in H. destruct H as [a [p1 [H1 H2]]].
    apply advance1_Ok in H1. apply IH in H2.
    destruct H1 as [D1 [P1 _]]. destruct H2 as [D2 P2]. split; [congruence | lia].
Qed.

(** ** Cursor movement *)

Lemma steps_ret {A : Type} (a : A) : steps (ret a).
Proof.
  intros p a' p' H. inversion H. subst. auto.
Qed.

Lemma steps_bind {A B : Type} (m : M A) (k : A -> M B) :
  steps m -> (forall a, steps (k a)) -> steps (bind m k).
Proof.
  intros Hm Hk p b p2 H. apply bind_Ok in H. destruct H as [a [p1 [H1 H2]]].
  apply Hm in H1. apply Hk in H2. destruct H1, H2. split; [congruence | lia].
Qed.

Lemma consumes_steps {A : Type} (m : M A) : consumes m -> steps m.
Proof.
  intros H p a p' E. apply H in E. destruct E. split; [assumption | lia].
Qed.

Lemma consumes_bind_l {A B : Type} (m : M A) (k : A -> M B) :
  consumes m -> (forall a, steps (k a)) -> consumes (bind m k).
Proof.
  intros Hm Hk p b p2 H. apply bind_Ok in H. destruct H as [a [p1 [H1 H2]]].
  apply Hm in H1. apply Hk in H2. destruct H1, H2. split; [congruence | lia].
Qed.

Lemma consumes_bind_r {A B : Type} (m : M A) (k : A -> M B) :
  steps m -> (forall a, consumes (k a)) -> consumes (bind m k).
Proof.
  intros Hm Hk p b p2 H. apply bind_Ok in H. destruct H as [a [p1 [H1 H2]]].
  apply Hm in H1. apply Hk in H2. destruct H1, H2. split; [congruence | lia].
Qed.

Lemma steps_peek : steps peek.
Proof.
  intros p c p' H. apply peek_Ok in H. destruct H as [-> _]. auto.
Qed.

Lemma steps_get_pos : steps get_pos.
Proof.
  intros p c p' H. inversion H. subst. auto.
Qed.

Lemma steps_substring (start : nat) : steps (substring start).
Proof.
  intros p c p' H. inversion H. subst. auto.
Qed.

Lemma steps_looking_at (lit : list byte) : steps (looking_at lit).
Proof.
  intros p c p' H. unfold looking_at in H.
  destruct (strncmp_eq (data p) (pos p) lit); inversion H. subst. auto.
Qed.

Lemma steps_lift {A : Type} (o : outcome A) : steps (lift o).
Proof.
  intros p c p' H. unfold lift in H. destruct o; inversion H. subst. auto.
Qed.

Lemma steps_throwError {A : Type} (msg : list byte) : steps (@throwError A msg).
Proof.
  intros p c p' H. discriminate H.
Qed.

Lemma consumes_throwError {A : Type} (msg : list byte) : consumes (@throwError A msg).
Proof.
  intros p c p' H. discriminate H.
Qed.

Lemma steps_out_of_fuel {A : Type} : steps (@out_of_fuel A).
Proof.
  intros p c p' H. discriminate H.
Qed.

Lemma consumes_out_of_fuel {A : Type} : consumes (@out_of_fuel A).
Proof.
  intros p c p' H. discriminate H.
Qed.

Lemma consumes_advance (n : nat) : consumes (advance (S n)).
Proof.
  intros p u p' H. apply advance_Ok in H. destruct H. split; [assumption | lia].
Qed.

Lemma steps_advance (n : nat) : steps (advance n).
Proof.
  intros p u p' H. apply advance_Ok in H. destruct H. split; [assumption | lia].
Qed.

Lemma consumes_advance1 : consumes advance1.
Proof.
  intros p u p' H. apply advance1_Ok in H. destruct H as [D [P _]].
  split; [assumption | lia].
Qed.

Create HintDb parser.

#[local] Hint Resolve consumes_advance1 : parser.
#[local] Hint Resolve steps_ret steps_peek steps_get_pos steps_substring
  steps_looking_at steps_lift steps_throwError steps_out_of_fuel steps_advance
  consumes_advance consumes_throwError consumes_out_of_fuel : parser.

(** Splits [steps] and [consumes] goals along the structure of a
    computation. *)
Ltac steps_tac :=
  repeat first
    [ progress auto with parser
    | apply steps_bind; [|intros ?]
    | match goal with
      | |- steps (if ?c then _ else _) => destruct c
      | |- consumes (if ?c then _ else _) => destruct c
      end
    | apply consumes_bind_l; [solve [auto with parser]|intros ?]
    | apply consumes_steps; solve [auto with parser] ].

Lemma steps_skipWhitespace (fuel : nat) : steps (skipWhitespace fuel).
Proof.
  induction fuel as [|f IH]; cbn [skipWhitespace]; steps_tac.
Qed.

Lemma steps_skipDigits (fuel : nat) : steps (skipDigits fuel).
Proof.
  induction fuel as [|f IH]; cbn [skipDigits]; steps_tac.
Qed.

#[local] Hint Resolve steps_skipWhitespace steps_skipDigits : parser.

Lemma consumes_parseString_loop (fuel : nat) :
  forall s, consumes (parseString_loop fuel s).
Proof.
  induction fuel as [|f IH]; intros s; cbn [parseString_loop]; [auto with parser|].
  apply consumes_bind_r; [auto with parser|]. intros c.
  destruct (negb (code c =? 34)); [destruct (code c =? 92)|].
  - apply consumes_bind_l; [auto with parser|]. intros _. steps_tac.
    all: apply consumes_steps, IH.
  - apply consumes_bind_l; [auto with parser|]. intros _.
    apply consumes_steps, IH.
  - apply consumes_bind_l; [auto with parser|]. intros _. auto with parser.
Qed.

Lemma consumes_parseString (fuel : nat) : consumes (parseString fuel).
Proof.
  unfold parseString. apply consumes_bind_l; [auto with parser|].
  intros _. apply consumes_steps, consumes_parseString_loop.
Qed.

Lemma consumes_parseBoolean : consumes parseBoolean.
Proof.
  unfold parseBoolean. apply consumes_bind_r; [auto with parser|]. intros t.
  destruct t.
  - apply consumes_bind_l; auto with parser.
  - apply consumes_bind_r; [auto with parser|]. intros f. destruct f.
    + apply consumes_bind_l; auto with parser.
    + auto with parser.
Qed.

Lemma consumes_parseNull : consumes parseNull.
Proof.
  unfold parseNull. apply consumes_bind_r; [auto with parser|]. intros t.
  destruct t.
  - apply consumes_bind_l; auto with parser.
  - auto with parser.
Qed.

Lemma consumes_parseNumber (fuel : nat) : consumes (parseNumber fuel).
Proof.
  intros p v p' H. unfold parseNumber in H.
  apply bind_Ok in H. destruct H as [start [p0 [H0 H]]].
  inversion H0; subst p0 start; clear H0.
  apply bind_Ok in H. destruct H as [c [p0 [H0 H]]].
  apply peek_Ok in H0. destruct H0 as [-> Hc].
  apply bind_Ok in H. destruct H as [u [p1 [H1 H]]].
  assert (S1 : data p1 = data p /\ (pos p <= pos p1)%nat).
  { destruct (code c =? 45); [apply steps_advance in H1 | apply steps_ret in H1];
      assumption. }
  apply bind_Ok in H. destruct H as [u2 [p2 [H2 H]]].
  apply steps_skipDigits in H2.
  apply bind_Ok in H. destruct H as [c2 [p3 [H3 H]]].
  apply peek_Ok in H3. destruct H3 as [-> Hc2].
  destruct (code c2 =? 46).
  - apply bind_Ok in H. destruct H as [u3 [p3 [H3 H]]].
    apply consumes_advance in H3.
    assert (S4 : steps (skipDigits fuel ;; text <- substring (pos p) ;;
                        d <- lift (stod text) ;; ret (JDouble d))) by steps_tac.
    apply S4 in H. destruct S1, H2, H3, H. split; [congruence | lia].
  - apply bind_Ok in H. destruct H as [text [p3 [H3 H]]].
    inversion H3; subst p3 text; clear H3.
    apply bind_Ok in H. destruct H as [i [p3 [H3 H]]].
    inversion H; subst p' v; clear H.
    unfold lift in H3.
    destruct (stoi (firstn (pos p2 - pos p) (skipn (pos p) (data p2)))) eqn:E;
      inversion H3; subst p3; clear H3.
    destruct S1, H2. split; [congruence|].
    destruct (Nat.eq_dec (pos p2) (pos p)) as [E2|E2]; [|lia].
    rewrite E2, Nat.sub_diag in E. discriminate E.
Qed.

#[local] Hint Resolve consumes_parseString consumes_parseBoolean consumes_parseNull
  consumes_parseNumber : parser.

(** Every production consumes input when it returns. *)
Lemma consumes_productions (fuel : nat) :
  consumes (parseValue fuel) /\
  consumes (parseObject fuel) /\
  (forall obj, consumes (parseObject_loop fuel obj)) /\
  consumes (parseArray fuel) /\
  (forall arr, consumes (parseArray_loop fuel arr)).
Proof.
  induction fuel as [|f [IHV [IHO [IHOL [IHA IHAL]]]]].
  - split; [|split; [|split; [|split]]]; try intros ?; apply consumes_out_of_fuel.
  - split; [|split; [|split; [|split]]].
    + cbn [parseValue]. apply consumes_bind_r; [auto with parser|]. intros _.
      apply consumes_bind_r; [auto with parser|]. intros ch.
      repeat match goal with
             | |- consumes (if ?c then _ else _) => destruct c
             end; auto with parser.
    + cbn [parseObject]. apply consumes_bind_l; [auto with parser|]. intros _.
      apply steps_bind; [auto with parser|]. intros _.
      apply consumes_steps, IHOL.
    + intros obj. cbn [parseObject_loop]. apply consumes_bind_r; [auto with parser|]. intros c.
      destruct (negb (code c =? 125)).
      * apply consumes_bind_l; [auto with parser|]. intros k.
        steps_tac; try (apply consumes_steps; first [apply IHV | apply IHOL]).
      * apply consumes_bind_l; [auto with parser|]. intros _. auto with parser.
    + cbn [parseArray]. apply consumes_bind_l; [auto with parser|]. intros _.
      apply steps_bind; [auto with parser|]. intros _.
      apply consumes_steps, IHAL.
    + intros arr. cbn [parseArray_loop]. apply consumes_bind_r; [auto with parser|]. intros c.
      destruct (negb (code c =? 93)).
      * apply consumes_bind_l; [apply IHV|]. intros v.
        steps_tac; try (apply consumes_steps; apply IHAL).
      * apply consumes_bind_l; [auto with parser|]. intros _. auto with parser.
Qed.

Lemma consumes_parseValue (fuel : nat) : consumes (parseValue fuel).
Proof. apply consumes_productions. Qed.

Lemma consumes_parseArray_loop (fuel : nat) (arr : list JSON) :
  consumes (parseArray_loop fuel arr).
Proof. apply consumes_productions. Qed.

Lemma consumes_parseObject_loop (fuel : nat) (obj : map_t) :
  consumes (parseObject_loop fuel obj).
Proof. apply consumes_productions. Qed.

#[local] Hint Resolve consumes_parseValue consumes_parseArray_loop
  consumes_parseObject_loop : parser.

(** ** The fuel is enough *)

Lemma remaining_after (p p' : parser) :
  data p' = data p -> (pos p < pos p')%nat -> (pos p <= length (data p))%nat ->
  (remaining p' < remaining p)%nat.
Proof.
  unfold remaining. intros -> H1 H2. lia.
Qed.

Lemma remaining_steps (p p' : parser) :
  data p' = data p -> (pos p <= pos p')%nat -> (remaining p' <= remaining p)%nat.
Proof.
  unfold remaining. intros -> H1. lia.
Qed.

Lemma peek_not_out_of_fuel (p : parser) : peek p <> OutOfFuel.
Proof.
  unfold peek. destruct (data_at (data p) (pos p)); discriminate.
Qed.

Lemma advance1_not_out_of_fuel (p : parser) : advance1 p <> OutOfFuel.
Proof.
  unfold advance1. destruct (data_at (data p) (pos p)) as [c|]; [|discriminate].
  destruct (code c =? 10); discriminate.
Qed.

Lemma advance_not_out_of_fuel (n : nat) (p : parser) : advance n p <> OutOfFuel.
Proof.
  revert p. induction n as [|n IH]; intros p; simpl; [discriminate|].
  apply bind_not_out_of_fuel; [apply advance1_not_out_of_fuel | auto].
Qed.

Lemma lift_not_out_of_fuel {A : Type} (o : outcome A) (p : parser) :
  lift o p <> OutOfFuel.
Proof.
  destruct o; discriminate.
Qed.

Lemma looking_at_not_out_of_fuel (lit : list byte) (p : parser) :
  looking_at lit p <> OutOfFuel.
Proof.
  unfold looking_at. destruct (strncmp_eq (data p) (pos p) lit); discriminate.
Qed.

Lemma throwError_not_out_of_fuel {A : Type} (msg : list byte) (p : parser) :
  @throwError A msg p <> OutOfFuel.
Proof.
  discriminate.
Qed.

Lemma ret_not_out_of_fuel {A : Type} (a : A) (p : parser) : ret a p <> OutOfFuel.
Proof.
  discriminate.
Qed.

#[local] Hint Resolve peek_not_out_of_fuel advance_not_out_of_fuel
  lift_not_out_of_fuel looking_at_not_out_of_fuel throwError_not_out_of_fuel
  ret_not_out_of_fuel : parser.

Lemma skipWhitespace_enough (fuel : nat) :
  forall p, (remaining p < fuel)%nat -> skipWhitespace fuel p <> OutOfFuel.
Proof.
  induction fuel as [|f IH]; intros p Hf; [lia|]. cbn [skipWhitespace].
  apply bind_not_out_of_fuel; [auto with parser|]. intros c p1 Hc.
  apply peek_Ok in Hc. destruct Hc as [-> Hc].
  destruct (negb (code c =? 0) && isspace c); [|auto with parser].
  apply bind_not_out_of_fuel; [auto with parser|]. intros u p1 Hu.
  apply IH. apply consumes_advance in Hu. destruct Hu as [D P].
  apply data_at_le in Hc. pose proof (remaining_after p p1 D P Hc). lia.
Qed.

Lemma skipDigits_enough (fuel : nat) :
  forall p, (remaining p < fuel)%nat -> skipDigits fuel p <> OutOfFuel.
Proof.
  induction fuel as [|f IH]; intros p Hf; [lia|]. cbn [skipDigits].
  apply bind_not_out_of_fuel; [auto with parser|]. intros c p1 Hc.
  apply peek_Ok in Hc. destruct Hc as [-> Hc].
  destruct (is_digit c); [|auto with parser].
  apply bind_not_out_of_fuel; [auto with parser|]. intros u p1 Hu.
  apply IH. apply consumes_advance in Hu. destruct Hu as [D P].
  apply data_at_le in Hc. pose proof (remaining_after p p1 D P Hc). lia.
Qed.

Lemma parseString_loop_enough (fuel : nat) :
  forall s p, (remaining p < fuel)%nat -> parseString_loop fuel s p <> OutOfFuel.
Proof.
  induction fuel as [|f IH]; intros s p Hf; [lia|]. cbn [parseString_loop].
  apply bind_not_out_of_fuel; [auto with parser|]. intros c p1 Hc.
  apply peek_Ok in Hc. destruct Hc as [-> Hc]. apply data_at_le in Hc.
  destruct (negb (code c =? 34)); [destruct (code c =? 92)|].
  - apply bind_not_out_of_fuel; [auto with parser|]. intros u p1 Hu.
    apply consumes_advance in Hu. destruct Hu as [D1 P1].
    apply bind_not_out_of_fuel; [auto with parser|]. intros e p2 He.
    apply peek_Ok in He. destruct He as [-> He].
    apply bind_not_out_of_fuel.
    { repeat match goal with
             | |- (if ?c then _ else _) _ <> _ => destruct c
             end; auto with parser. }
    intros s' p2 Hs'.
    assert (S2 : data p2 = data p1 /\ (pos p1 <= pos p2)%nat).
    { revert Hs'.
      match goal with
      | |- ?m p1 = _ -> _ => assert (Sm : steps m) by steps_tac; apply Sm
      end. }
    apply bind_not_out_of_fuel; [auto with parser|]. intros u2 p3 Hu2.
    apply steps_advance in Hu2. destruct S2, Hu2.
    apply IH. assert (D3 : data p3 = data p) by congruence.
    assert (P3 : (pos p < pos p3)%nat) by lia.
    pose proof (remaining_after p p3 D3 P3 Hc). lia.
  - apply bind_not_out_of_fuel; [auto with parser|]. intros u p1 Hu.
    apply consumes_advance in Hu. destruct Hu as [D1 P1].
    apply IH. pose proof (remaining_after p p1 D1 P1 Hc). lia.
  - apply bind_not_out_of_fuel; auto with parser.
Qed.

(** Turns a run [H : m p = Ok a p'] into what it says about the text and the
    cursor. *)
Ltac track H :=
  match type of H with
  | ?m ?p = Ok _ _ =>
      first
        [ let Hc := fresh in
          assert (Hc : consumes m) by (auto with parser); apply Hc in H; clear Hc
        | let Hs := fresh in
          assert (Hs : steps m) by steps_tac; apply Hs in H; clear Hs ]
  end.

Ltac track_le H :=
  match type of H with
  | ?m ?p = Ok _ _ =>
      let Hs := fresh in
      assert (Hs : steps m) by steps_tac; apply Hs in H; clear Hs
  end.

(** Arithmetic on cursors and on the bytes that remain. *)
Ltac cursor :=
  unfold remaining in *;
  repeat match goal with
         | H : _ /\ _ |- _ => destruct H
         end;
  repeat match goal with
         | H : data ?a = data ?b |- _ => apply (f_equal (@length byte)) in H
         end;
  lia.

Lemma parseString_enough (fuel : nat) (p : parser) :
  (remaining p < fuel)%nat -> parseString fuel p <> OutOfFuel.
Proof.
  intros Hf. unfold parseString.
  apply bind_not_out_of_fuel; [auto with parser|]. intros u p1 Hu.
  track Hu. apply parseString_loop_enough. cursor.
Qed.

Lemma parseBoolean_enough (p : parser) : parseBoolean p <> OutOfFuel.
Proof.
  unfold parseBoolean.
  apply bind_not_out_of_fuel; [auto with parser|]. intros t p1 _. destruct t.
  - apply bind_not_out_of_fuel; auto with parser.
  - apply bind_not_out_of_fuel; [auto with parser|]. intros f p2 _. destruct f.
    + apply bind_not_out_of_fuel; auto with parser.
    + auto with parser.
Qed.

Lemma parseNull_enough (p : parser) : parseNull p <> OutOfFuel.
Proof.
  unfold parseNull.
  apply bind_not_out_of_fuel; [auto with parser|]. intros t p1 _. destruct t.
  - apply bind_not_out_of_fuel; auto with parser.
  - auto with parser.
Qed.

Lemma parseNumber_enough (fuel : nat) (p : parser) :
  (remaining p < fuel)%nat -> parseNumber fuel p <> OutOfFuel.
Proof.
  intros Hf. unfold parseNumber.
  apply bind_not_out_of_fuel; [discriminate|]. intros start p0 H0.
  inversion H0; subst p0 start; clear H0.
  apply bind_not_out_of_fuel; [auto with parser|]. intros c p0 Hc.
  apply peek_Ok in Hc. destruct Hc as [-> Hc].
  apply bind_not_out_of_fuel.
  { destruct (code c =? 45); auto with parser. }
  intros u p1 H1.
  assert (S1 : data p1 = data p /\ (pos p <= pos p1)%nat).
  { destruct (code c =? 45); track_le H1; assumption. }
  apply bind_not_out_of_fuel; [apply skipDigits_enough; cursor|].
  intros u2 p2 H2. track H2.
  apply bind_not_out_of_fuel; [auto with parser|]. intros c2 p3 H3.
  apply peek_Ok in H3. destruct H3 as [-> Hc2].
  destruct (code c2 =? 46).
  - apply bind_not_out_of_fuel; [auto with parser|]. intros u3 p3 H3. track H3.
    apply bind_not_out_of_fuel; [apply skipDigits_enough; cursor|].
    intros u4 p4 H4.
    apply bind_not_out_of_fuel; [discriminate|]. intros text p5 H5.
    apply bind_not_out_of_fuel; auto with parser.
  - apply bind_not_out_of_fuel; [discriminate|]. intros text p5 H5.
    apply bind_not_out_of_fuel; auto with parser.
Qed.

(** With fuel three times the bytes that remain, and a little more, no
    production runs out of it. *)
Lemma productions_enough (fuel : nat) :
  (forall p, (3 * remaining p + 2 <= fuel)%nat -> parseValue fuel p <> OutOfFuel) /\
  (forall p, (3 * remaining p + 1 <= fuel)%nat -> parseObject fuel p <> OutOfFuel) /\
  (forall obj p, (3 * remaining p + 3 <= fuel)%nat ->
                 parseObject_loop fuel obj p <> OutOfFuel) /\
  (forall p, (3 * remaining p + 1 <= fuel)%nat -> parseArray fuel p <> OutOfFuel) /\
  (forall arr p, (3 * remaining p + 3 <= fuel)%nat ->
                 parseArray_loop fuel arr p <> OutOfFuel).
Proof.
  induction fuel as [|f [IHV [IHO [IHOL [IHA IHAL]]]]].
  - repeat split; intros; lia.
  - split; [|split; [|split; [|split]]].
    + intros p Hf. cbn [parseValue].
      apply bind_not_out_of_fuel; [apply skipWhitespace_enough; lia|].
      intros u p1 H1. track H1.
      apply bind_not_out_of_fuel; [auto with parser|]. intros ch p2 H2.
      apply peek_Ok in H2. destruct H2 as [-> Hch].
      repeat match goal with
             | |- (if ?c then _ else _) _ <> _ => destruct c
             end.
      * apply IHO. cursor.
      * apply IHA. cursor.
      * apply parseString_enough. cursor.
      * apply parseBoolean_enough.
      * apply parseNull_enough.
      * apply parseNumber_enough. cursor.
      * auto with parser.
    + intros p Hf. cbn [parseObject].
      apply bind_not_out_of_fuel; [auto with parser|]. intros u p1 H1.
      pose proof H1 as H1'. rewrite advance_1 in H1'. apply advance1_Ok in H1'.
      apply bind_not_out_of_fuel; [apply skipWhitespace_enough; cursor|].
      intros u2 p2 H2. track H2. apply IHOL. cursor.
    + intros obj p Hf. cbn [parseObject_loop].
      apply bind_not_out_of_fuel; [auto with parser|]. intros c p0 Hc.
      apply peek_Ok in Hc. destruct Hc as [-> Hc]. apply data_at_le in Hc.
      destruct (negb (code c =? 125)).
      * apply bind_not_out_of_fuel; [apply parseString_enough; lia|].
        intros k p1 H1. track H1.
        apply bind_not_out_of_fuel; [auto with parser|]. intros key p2 H2. track H2.
        apply bind_not_out_of_fuel; [apply skipWhitespace_enough; cursor|].
        intros u3 p3 H3. track H3.
        apply bind_not_out_of_fuel; [auto with parser|]. intros c4 p4 H4.
        apply peek_Ok in H4. destruct H4 as [-> Hc4].
        apply bind_not_out_of_fuel.
        { destruct (negb (code c4 =? 58)); auto with parser. }
        intros u5 p5 H5.
        assert (S5 : data p5 = data p3 /\ (pos p3 <= pos p5)%nat).
        { destruct (negb (code c4 =? 58)); track_le H5; assumption. }
        apply bind_not_out_of_fuel; [auto with parser|]. intros u6 p6 H6. track H6.
        apply bind_not_out_of_fuel; [apply IHV; cursor|].
        intros value p7 H7. track H7.
        apply bind_not_out_of_fuel; [apply skipWhitespace_enough; cursor|].
        intros u8 p8 H8. track H8.
        apply bind_not_out_of_fuel; [auto with parser|]. intros c9 p9 H9.
        apply peek_Ok in H9. destruct H9 as [-> Hc9].
        apply bind_not_out_of_fuel.
        { destruct (code c9 =? 44); [|auto with parser].
          apply bind_not_out_of_fuel; [auto with parser|]. intros u p10 H10.
          track H10. apply skipWhitespace_enough. cursor. }
        intros u10 p10 H10.
        assert (S10 : data p10 = data p8 /\ (pos p8 <= pos p10)%nat).
        { destruct (code c9 =? 44); track_le H10; assumption. }
        apply IHOL. cursor.
      * apply bind_not_out_of_fuel; auto with parser.
    + intros p Hf. cbn [parseArray].
      apply bind_not_out_of_fuel; [auto with parser|]. intros u p1 H1.
      pose proof H1 as H1'. rewrite advance_1 in H1'. apply advance1_Ok in H1'.
      apply bind_not_out_of_fuel; [apply skipWhitespace_enough; cursor|].
      intros u2 p2 H2. track H2. apply IHAL. cursor.
    + intros arr p Hf. cbn [parseArray_loop].
      apply bind_not_out_of_fuel; [auto with parser|]. intros c p0 Hc.
      apply peek_Ok in Hc. destruct Hc as [-> Hc]. apply data_at_le in Hc.
      destruct (negb (code c =? 93)).
      * apply bind_not_out_of_fuel; [apply IHV; lia|].
        intros value p7 H7. track H7.
        apply bind_not_out_of_fuel; [apply skipWhitespace_enough; cursor|].
        intros u8 p8 H8. track H8.
        apply bind_not_out_of_fuel; [auto with parser|]. intros c9 p9 H9.
        apply peek_Ok in H9. destruct H9 as [-> Hc9].
        apply bind_not_out_of_fuel.
        { destruct (code c9 =? 44); [|auto with parser].
          apply bind_not_out_of_fuel; [auto with parser|]. intros u p10 H10.
          track H10. apply skipWhitespace_enough. cursor. }
        intros u10 p10 H10.
        assert (S10 : data p10 = data p8 /\ (pos p8 <= pos p10)%nat).
        { destruct (code c9 =? 44); track_le H10; assumption. }
        apply IHAL. cursor.
      * apply bind_not_out_of_fuel; auto with parser.
Qed.

(** The parser terminates: the fuel [parse] starts with never runs out. *)
Theorem parse_terminates (d : list byte) : parse d <> OutOfFuel.
Proof.
  unfold parse, parse_, parse_fuel.
  apply bind_not_out_of_fuel.
  - apply skipWhitespace_enough. unfold remaining. simpl. lia.
  - intros u p1 H1. track H1. destruct H1 as [D P].
    apply productions_enough. unfold remaining. rewrite D. simpl data. lia.
Qed.

(** ** More fuel changes nothing *)

Lemma refines_refl {A : Type} (r : presult A) : refines r r.
Proof. now right. Qed.

Lemma refines_out_of_fuel {A : Type} (r : presult A) : refines OutOfFuel r.
Proof. now left. Qed.

Lemma refines_bind {A B : Type} (m m' : M A) (k k' : A -> M B) (p : parser) :
  refines (m p) (m' p) ->
  (forall a p1, refines (k a p1) (k' a p1)) ->
  refines (bind m k p) (bind m' k' p).
Proof.
  unfold bind. intros [E|E] Hk; rewrite E.
  - now left.
  - destruct (m' p); [apply Hk | now right ..].
Qed.

Lemma refines_eq {A : Type} (r r' : presult A) :
  refines r r' -> r <> OutOfFuel -> r' = r.
Proof.
  intros [E|E] H; [contradiction | congruence].
Qed.

(** Splits a [refines] goal along the structure of the two computations. *)
Ltac refines_tac :=
  repeat first
    [ apply refines_refl
    | apply refines_out_of_fuel
    | apply refines_bind; [|intros ? ?]
    | match goal with
      | |- refines ((if ?c then _ else _) _) _ => destruct c
      | H : forall f', (_ <= f')%nat -> _ |- refines (?F ?f _) (?F ?f' _) =>
          apply H; lia
      | H : forall f', (_ <= f')%nat -> _ |- refines (?F ?f _ _) (?F ?f' _ _) =>
          apply H; lia
      end ].

Lemma skipWhitespace_mono (f : nat) :
  forall f', (f <= f')%nat ->
  forall p, refines (skipWhitespace f p) (skipWhitespace f' p).
Proof.
  induction f as [|f IH]; intros f' Hf p; [apply refines_out_of_fuel|].
  destruct f' as [|f']; [lia|]. cbn [skipWhitespace]. refines_tac.
Qed.

Lemma skipDigits_mono (f : nat) :
  forall f', (f <= f')%nat ->
  forall p, refines (skipDigits f p) (skipDigits f' p).
Proof.
  induction f as [|f IH]; intros f' Hf p; [apply refines_out_of_fuel|].
  destruct f' as [|f']; [lia|]. cbn [skipDigits]. refines_tac.
Qed.

Lemma parseString_loop_mono (f : nat) :
  forall f', (f <= f')%nat ->
  forall s p, refines (parseString_loop f s p) (parseString_loop f' s p).
Proof.
  induction f as [|f IH]; intros f' Hf s p; [apply refines_out_of_fuel|].
  destruct f' as [|f']; [lia|]. cbn [parseString_loop]. refines_tac.
Qed.

Lemma parseString_mono (f f' : nat) :
  (f <= f')%nat -> forall p, refines (parseString f p) (parseString f' p).
Proof.
  intros Hf p. unfold parseString. apply refines_bind; [apply refines_refl|].
  intros u p1. now apply parseString_loop_mono.
Qed.

Lemma parseNumber_mono (f f' : nat) :
  (f <= f')%nat -> forall p, refines (parseNumber f p) (parseNumber f' p).
Proof.
  intros Hf p. unfold parseNumber.
  pose proof (fun p => skipDigits_mono f f' Hf p) as HD.
  repeat first
    [ apply refines_refl
    | apply HD
    | apply refines_bind; [|intros ? ?]
    | match goal with
      | |- refines ((if ?c then _ else _) _) _ => destruct c
      end ].
Qed.

Lemma productions_mono (f : nat) :
  forall f', (f <= f')%nat ->
  (forall p, refines (parseValue f p) (parseValue f' p)) /\
  (forall p, refines (parseObject f p) (parseObject f' p)) /\
  (forall obj p, refines (parseObject_loop f obj p) (parseObject_loop f' obj p)) /\
  (forall p, refines (parseArray f p) (parseArray f' p)) /\
  (forall arr p, refines (parseArray_loop f arr p) (parseArray_loop f' arr p)).
Proof.
  induction f as [|f IH]; intros f' Hf.
  - repeat split; intros; apply refines_out_of_fuel.
  - destruct f' as [|f']; [lia|].
    assert (Hf' : (f <= f')%nat) by lia.
    destruct (IH f' Hf') as [IHV [IHO [IHOL [IHA IHAL]]]].
    pose proof (skipWhitespace_mono f f' Hf') as HW.
    pose proof (parseString_mono f f' Hf') as HS.
    pose proof (parseNumber_mono f f' Hf') as HN.
    repeat split; intros;
      cbn [parseValue parseObject parseObject_loop parseArray parseArray_loop];
      repeat first
        [ apply refines_refl
        | apply HW | apply HS | apply HN
        | apply IHV | apply IHO | apply IHOL | apply IHA | apply IHAL
        | apply refines_bind; [|intros ? ?]
        | match goal with
          | |- refines ((if ?c then _ else _) _) _ => destruct c
          end ].
Qed.

Lemma parse__mono (f f' : nat) :
  (f <= f')%nat -> forall p, refines (parse_ f p) (parse_ f' p).
Proof.
  intros Hf p. unfold parse_. apply refines_bind.
  - now apply skipWhitespace_mono.
  - intros u p1. now apply productions_mono.
Qed.

(** A result found with some fuel is the result of [parse]. *)
Lemma parse_of_fuel (d : list byte) (f : nat) (r : presult JSON) :
  parse_ f (JSONParser d) = r -> r <> OutOfFuel -> parse d = r.
Proof.
  intros Hr Hne. unfold parse.
  destruct (Nat.le_ge_cases f (parse_fuel d)) as [H|H].
  - pose proof (parse__mono _ _ H (JSONParser d)) as R.
    rewrite Hr in R. now apply refines_eq.
  - pose proof (parse__mono _ _ H (JSONParser d)) as R.
    rewrite Hr in R. destruct R as [E|E]; [|exact E].
    exfalso. now apply (parse_terminates d).
Qed.

(** ** Malformed input *)

(** C3 fails on the code: a lone minus sign makes [std::stoi] throw
    [std::invalid_argument], which carries no line and column, and a string
    literal without closing quote makes the parser read beyond the end of the
    buffer, which is undefined behaviour and no exception at all.  An integer
    literal beyond the range of [int] leaves as [std::out_of_range]. *)
Theorem malformed_numbers_and_strings_escape_throwError :
  parse (str "-") = Throw invalid_argument /\
  parse (x22 :: str "abc") = Undefined /\
  parse (str "99999999999") = Throw out_of_range /\
  (forall message p, Throw (A := JSON) invalid_argument <> Throw (syntax_error message p)).
Proof.
  repeat split; try reflexivity. intros message p. discriminate.
Qed.

(** ** Literals *)

Lemma at_cursor_data_at (p : parser) (l rest : list byte) (k : nat) :
  at_cursor p = l ++ rest -> (k < length l)%nat ->
  data_at (data p) (pos p + k) = nth_error l k.
Proof.
  unfold at_cursor. intros H Hk.
  assert (E : nth_error (data p) (pos p + k) = nth_error l k).
  { rewrite <- nth_error_skipn, H. now apply nth_error_app1. }
  unfold data_at. rewrite E.
  destruct (nth_error l k) eqn:N; [reflexivity|].
  apply nth_error_None in N. lia.
Qed.

Lemma strncmp_eq_starts_with (lit : list byte) :
  Forall (fun c => c <> x00) lit ->
  forall d i, (i <= length d)%nat ->
  strncmp_eq d i lit = Some (starts_with lit (skipn i d)).
Proof.
  induction 1 as [|c lit Hc Hlit IH]; intros d i Hi; simpl; [reflexivity|].
  destruct (Nat.eq_dec i (length d)) as [E|E].
  - subst. rewrite data_at_end, skipn_all.
    destruct (Byte.eqb x00 c) eqn:B; [|reflexivity].
    apply byte_eqb_eq in B. congruence.
  - assert (Hlt : (i < length d)%nat) by lia.
    rewrite data_at_in by assumption.
    destruct (nth_error d i) as [x|] eqn:N; [|apply nth_error_None in N; lia].
    assert (S : skipn i d = x :: skipn (S i) d).
    { rewrite <- (firstn_skipn i d) in N at 1.
      rewrite nth_error_app2 in N by (rewrite length_firstn; lia).
      rewrite length_firstn, Nat.min_l, Nat.sub_diag in N by lia.
      destruct (skipn i d) as [|y r] eqn:Sk; [discriminate|].
      inversion N; subst. f_equal.
      change (S i) with (1 + i)%nat. rewrite <- skipn_skipn, Sk. reflexivity. }
    rewrite S. destruct (Byte.eqb x c); simpl; [|reflexivity].
    apply IH. lia.
Qed.

Lemma starts_with_app (lit s : list byte) :
  starts_with lit s = true <-> exists rest, s = lit ++ rest.
Proof.
  revert s. induction lit as [|c lit IH]; intros s; simpl.
  - split; [eauto | reflexivity].
  - destruct s as [|x s].
    + split; [discriminate | intros [rest H]; discriminate].
    + rewrite andb_true_iff, byte_eqb_eq, IH. split.
      * intros [-> [rest ->]]. eauto.
      * intros [rest H]. inversion H. eauto.
Qed.

Lemma moved_moved (p : parser) (a b : nat) :
  moved (moved p a) b = moved p (a + b).
Proof.
  unfold moved. simpl. f_equal; lia.
Qed.

Lemma moved_0 (p : parser) : moved p 0 = p.
Proof.
  unfold moved. destruct p. simpl. f_equal; lia.
Qed.

Lemma advance_over (lit : list byte) :
  Forall (fun c => code c <> 10) lit ->
  forall p rest, at_cursor p = lit ++ rest ->
  advance (length lit) p = Ok tt (moved p (length lit)).
Proof.
  induction 1 as [|c lit Hc Hlit IH]; intros p rest Hp.
  - simpl. unfold ret. now rewrite moved_0.
  - cbn [advance length].
    pose proof (at_cursor_data_at p (c :: lit) rest 0 Hp) as H0.
    rewrite Nat.add_0_r in H0. simpl in H0. specialize (H0 ltac:(lia)).
    assert (E1 : advance1 p = Ok tt (moved p 1)).
    { unfold advance1. rewrite H0.
      destruct (code c =? 10) eqn:E; [apply Z.eqb_eq in E; contradiction|].
      unfold moved. f_equal. f_equal; lia. }
    rewrite (bind_of_Ok _ _ _ _ _ E1).
    rewrite (IH (moved p 1) rest).
    + now rewrite moved_moved.
    + unfold at_cursor in *. simpl.
      replace (pos p + 1)%nat with (1 + pos p)%nat by lia.
      rewrite <- skipn_skipn, Hp. reflexivity.
Qed.

Lemma skipWhitespace_none (f : nat) (p : parser) (c : byte) :
  data_at (data p) (pos p) = Some c -> isspace c = false ->
  skipWhitespace (S f) p = Ok tt p.
Proof.
  intros Hc Hs. cbn [skipWhitespace].
  rewrite (bind_of_Ok peek _ p c p) by (now apply peek_Ok).
  rewrite Hs, andb_false_r. reflexivity.
Qed.

Lemma looking_at_starts_with (lit : list byte) (p : parser) :
  Forall (fun c => c <> x00) lit -> (pos p <= length (data p))%nat ->
  looking_at lit p = Ok (starts_with lit (at_cursor p)) p.
Proof.
  intros Hl Hp. unfold looking_at. now rewrite strncmp_eq_starts_with.
Qed.

Lemma parseBoolean_by_prefix (p : parser) :
  (pos p <= length (data p))%nat ->
  parseBoolean p
  = if starts_with (str "true") (at_cursor p)
    then Ok (JBoolean true) (moved p 4)
    else if starts_with (str "false") (at_cursor p)
         then Ok (JBoolean false) (moved p 5)
         else Throw (syntax_error (str "Unexpected boolean value in JSON") p).
Proof.
  intros Hp. unfold parseBoolean.
  rewrite (bind_of_Ok _ _ _ _ _ (looking_at_starts_with (str "true") p
             ltac:(repeat constructor; discriminate) Hp)).
  destruct (starts_with (str "true") (at_cursor p)) eqn:T.
  - apply starts_with_app in T. destruct T as [rest T].
    rewrite (bind_of_Ok _ _ _ _ _ (advance_over (str "true")
               ltac:(repeat constructor; discriminate) p rest T)).
    reflexivity.
  - rewrite (bind_of_Ok _ _ _ _ _ (looking_at_starts_with (str "false") p
               ltac:(repeat constructor; discriminate) Hp)).
    destruct (starts_with (str "false") (at_cursor p)) eqn:F; [|reflexivity].
    apply starts_with_app in F. destruct F as [rest F].
    rewrite (bind_of_Ok _ _ _ _ _ (advance_over (str "false")
               ltac:(repeat constructor; discriminate) p rest F)).
    reflexivity.
Qed.

Lemma parseNull_by_prefix (p : parser) :
  (pos p <= length (data p))%nat ->
  parseNull p
  = if starts_with (str "null") (at_cursor p)
    then Ok JNull (moved p 4)
    else Throw (syntax_error (str "Unexpected null value in JSON") p).
Proof.
  intros Hp. unfold parseNull.
  rewrite (bind_of_Ok _ _ _ _ _ (looking_at_starts_with (str "null") p
             ltac:(repeat constructor; discriminate) Hp)).
  destruct (starts_with (str "null") (at_cursor p)) eqn:T; [|reflexivity].
  apply starts_with_app in T. destruct T as [rest T].
  rewrite (bind_of_Ok _ _ _ _ _ (advance_over (str "null")
             ltac:(repeat constructor; discriminate) p rest T)).
  reflexivity.
Qed.

(** C8, as stated, fails: the text [truex] is not rejected, the parser
    returns the Boolean true and leaves the cursor on the [x]. *)
Lemma truex_is_accepted :
  parse (str "truex") = Ok (JBoolean true) (mk_parser (str "truex") 4 1 5) /\
  (forall e, parse (str "truex") <> Throw e).
Proof.
  split; [reflexivity | discriminate].
Qed.

(** C8, amended: on lookahead [t] or [f] the parser accepts exactly the texts
    that begin with the four bytes of [true] or the five bytes of [false],
    whatever follows them, consumes those bytes only and returns the Boolean;
    on lookahead [n] it accepts exactly the texts that begin with the four
    bytes of [null].  Any other text with such a lookahead is a syntax error
    reported at the line and column of the lookahead. *)
Theorem literals_match_by_prefix (f : nat) (p : parser) (ch : byte) :
  data_at (data p) (pos p) = Some ch ->
  (code ch = 116 \/ code ch = 102 ->
   parseValue (S (S f)) p
   = if starts_with (str "true") (at_cursor p)
     then Ok (JBoolean true) (moved p 4)
     else if starts_with (str "false") (at_cursor p)
          then Ok (JBoolean false) (moved p 5)
          else Throw (syntax_error (str "Unexpected boolean value in JSON") p)) /\
  (code ch = 110 ->
   parseValue (S (S f)) p
   = if starts_with (str "null") (at_cursor p)
     then Ok JNull (moved p 4)
     else Throw (syntax_error (str "Unexpected null value in JSON") p)).
Proof.
  intros Hch. pose proof (data_at_le _ _ _ Hch) as Hp.
  assert (Hpeek : peek p = Ok ch p) by (now apply peek_Ok).
  split.
  - intros Hc. cbn [parseValue].
    rewrite (bind_of_Ok _ _ _ _ _ (skipWhitespace_none f p ch Hch
               ltac:(unfold isspace; destruct Hc as [-> | ->]; reflexivity))).
    rewrite (bind_of_Ok _ _ _ _ _ Hpeek).
    replace (code ch =? 123) with false by (destruct Hc as [-> | ->]; reflexivity).
    replace (code ch =? 91) with false by (destruct Hc as [-> | ->]; reflexivity).
    replace (code ch =? 34) with false by (destruct Hc as [-> | ->]; reflexivity).
    replace ((code ch =? 116) || (code ch =? 102)) with true
      by (destruct Hc as [-> | ->]; reflexivity).
    now apply parseBoolean_by_prefix.
  - intros Hc. cbn [parseValue].
    rewrite (bind_of_Ok _ _ _ _ _ (skipWhitespace_none f p ch Hch
               ltac:(unfold isspace; rewrite Hc; reflexivity))).
    rewrite (bind_of_Ok _ _ _ _ _ Hpeek). rewrite Hc. simpl.
    now apply parseNull_by_prefix.
Qed.

Lemma literals_match_by_prefix_witness :
  parseValue 2 (JSONParser (str "truex"))
  = Ok (JBoolean true) (moved (JSONParser (str "truex")) 4) /\
  parseValue 2 (JSONParser (str "nul"))
  = Throw (syntax_error (str "Unexpected null value in JSON") (JSONParser (str "nul"))).
Proof.
  split.
  - apply (proj1 (literals_match_by_prefix 0 (JSONParser (str "truex")) x74
                    eq_refl)).
    left. reflexivity.
  - apply (proj2 (literals_match_by_prefix 0 (JSONParser (str "nul")) x6e
                    eq_refl)).
    reflexivity.
Defined.

(** ** Trailing commas *)

Lemma at_cursor_moved (p : parser) (l rest : list byte) :
  at_cursor p = l ++ rest -> at_cursor (moved p (length l)) = rest.
Proof.
  unfold at_cursor, moved. simpl. intros H.
  replace (pos p + length l)%nat with (length l + pos p)%nat by lia.
  rewrite <- skipn_skipn, H, skipn_app, skipn_all, Nat.sub_diag. reflexivity.
Qed.

Lemma at_cursor_peek (p : parser) (c : byte) (rest : list byte) :
  at_cursor p = c :: rest -> peek p = Ok c p.
Proof.
  intros H. apply peek_Ok. split; [reflexivity|].
  pose proof (at_cursor_data_at p [c] rest 0 H ltac:(simpl; lia)) as E.
  now rewrite Nat.add_0_r in E.
Qed.

Lemma advance_one (p : parser) (c : byte) (rest : list byte) :
  at_cursor p = c :: rest -> code c <> 10 -> advance 1 p = Ok tt (moved p 1).
Proof.
  intros H Hc. apply (advance_over [c]) with (rest := rest); [|exact H].
  constructor; [exact Hc | constructor].
Qed.

(** The closing bracket ends the loop of [parseArray]. *)
Lemma parseArray_loop_close (f : nat) (arr : list JSON) (p : parser)
    (rest : list byte) :
  at_cursor p = x5d :: rest ->
  parseArray_loop (S f) arr p = Ok (JArray arr) (moved p 1).
Proof.
  intros H. cbn [parseArray_loop].
  rewrite (bind_of_Ok _ _ _ _ _ (at_cursor_peek p _ _ H)).
  change (negb (code x5d =? 93)) with false. cbv iota.
  rewrite (bind_of_Ok _ _ _ _ _ (advance_one p _ _ H ltac:(discriminate))).
  reflexivity.
Qed.

(** The closing brace ends the loop of [parseObject]. *)
Lemma parseObject_loop_close (f : nat) (obj : map_t) (p : parser)
    (rest : list byte) :
  at_cursor p = x7d :: rest ->
  parseObject_loop (S f) obj p = Ok (JObject obj) (moved p 1).
Proof.
  intros H. cbn [parseObject_loop].
  rewrite (bind_of_Ok _ _ _ _ _ (at_cursor_peek p _ _ H)).
  change (negb (code x7d =? 125)) with false. cbv iota.
  rewrite (bind_of_Ok _ _ _ _ _ (advance_one p _ _ H ltac:(discriminate))).
  reflexivity.
Qed.

Lemma skipWhitespace_at (f : nat) (p : parser) (c : byte) (rest : list byte) :
  at_cursor p = c :: rest -> isspace c = false -> skipWhitespace (S f) p = Ok tt p.
Proof.
  intros H Hc. apply (skipWhitespace_none f p c); [|exact Hc].
  apply at_cursor_peek in H. now apply peek_Ok in H.
Qed.

(** The comma step of both loops, on a comma directly before the closing
    bracket or brace [c]. *)
Lemma comma_then_close (f : nat) (p : parser) (c : byte) (rest : list byte) :
  at_cursor p = x2c :: c :: rest -> isspace c = false ->
  (ch <- peek ;;
   (if code ch =? 44 then advance 1 ;; skipWhitespace (S f) else ret tt)) p
  = Ok tt (moved p 1).
Proof.
  intros H Hc.
  rewrite (bind_of_Ok _ _ _ _ _ (at_cursor_peek p _ _ H)).
  change (code x2c =? 44) with true. cbv iota.
  rewrite (bind_of_Ok _ _ _ _ _ (advance_one p _ _ H ltac:(discriminate))).
  apply (skipWhitespace_at f (moved p 1) c rest); [|exact Hc].
  apply (at_cursor_moved p [x2c] (c :: rest) H).
Qed.

(** C7: a comma that follows the last element of an array and stands
    directly before the closing bracket is consumed and ends the array with
    the elements read so far; likewise a comma after the last member of an
    object, directly before the closing brace.  The text [[1,2,]] is the
    array of 1 and 2. *)
Theorem trailing_comma_is_accepted :
  (forall f p arr c v p2 rest,
     data_at (data p) (pos p) = Some c -> code c <> 93 ->
     array_element f p = Ok v p2 ->
     at_cursor p2 = x2c :: x5d :: rest ->
     parseArray_loop (S f) arr p = Ok (JArray (arr ++ [v])) (moved p2 2)) /\
  (forall f p obj c key value p2 rest,
     data_at (data p) (pos p) = Some c -> code c <> 125 ->
     object_member f p = Ok (key, value) p2 ->
     at_cursor p2 = x2c :: x7d :: rest ->
     parseObject_loop (S f) obj p
     = Ok (JObject (map_set key value obj)) (moved p2 2)) /\
  parse (str "[1,2,]")
  = Ok (JArray [JInteger 1; JInteger 2]) (mk_parser (str "[1,2,]") 6 1 7) /\
  parse (x7b :: x22 :: str "a" ++ x22 :: str ":1,}")
  = Ok (JObject [(str "a", JInteger 1)])
       (mk_parser (x7b :: x22 :: str "a" ++ x22 :: str ":1,}") 8 1 9).
Proof.
  split; [|split; [|split; reflexivity]].
  - intros f p arr c v p2 rest Hc Hne He Hp2.
    unfold array_element in He.
    apply bind_Ok in He. destruct He as [v' [p1 [HV He]]].
    apply bind_Ok in He. destruct He as [u [p2' [HW He]]].
    inversion He; subst v' p2'; clear He.
    destruct f as [|f]; [discriminate HV|].
    cbn [parseArray_loop].
    rewrite (bind_of_Ok peek _ p c p) by (now apply peek_Ok).
    destruct (Z.eqb_spec (code c) 93) as [E|_]; [contradiction|]. cbn [negb].
    rewrite (bind_of_Ok _ _ _ _ _ HV), (bind_of_Ok _ _ _ _ _ HW).
    pose proof (comma_then_close f p2 x5d rest Hp2 eq_refl) as HC.
    unfold bind at 1. unfold bind in HC at 1.
    destruct (peek p2) as [ch p2'| | |]; try discriminate HC.
    rewrite (bind_of_Ok _ _ _ _ _ HC).
    change (moved p2 2) with (moved p2 (1 + 1)). rewrite <- moved_moved.
    apply (parseArray_loop_close f (arr ++ [v]) (moved p2 1) rest).
    apply (at_cursor_moved p2 [x2c] (x5d :: rest) Hp2).
  - intros f p obj c key value p2 rest Hc Hne Hm Hp2.
    unfold object_member in Hm.
    destruct f as [|f].
    { apply bind_Ok in Hm. destruct Hm as [k [p1 [HS _]]].
      unfold parseString in HS. apply bind_Ok in HS.
      destruct HS as [u [p0 [_ HS]]]. discriminate HS. }
    cbn [parseObject_loop].
    rewrite (bind_of_Ok peek _ p c p) by (now apply peek_Ok).
    destruct (Z.eqb_spec (code c) 125) as [E|_]; [contradiction|]. cbn [negb].
    apply bind_Ok in Hm. destruct Hm as [k [p1 [H1 Hm]]].
    rewrite (bind_of_Ok _ _ _ _ _ H1).
    apply bind_Ok in Hm. destruct Hm as [key' [p1' [H2 Hm]]].
    rewrite (bind_of_Ok _ _ _ _ _ H2).
    apply bind_Ok in Hm. destruct Hm as [u3 [p3 [H3 Hm]]].
    rewrite (bind_of_Ok _ _ _ _ _ H3).
    apply bind_Ok in Hm. destruct Hm as [c4 [p4 [H4 Hm]]].
    rewrite (bind_of_Ok _ _ _ _ _ H4).
    apply bind_Ok in Hm. destruct Hm as [u5 [p5 [H5 Hm]]].
    rewrite (bind_of_Ok _ _ _ _ _ H5).
    apply bind_Ok in Hm. destruct Hm as [u6 [p6 [H6 Hm]]].
    rewrite (bind_of_Ok _ _ _ _ _ H6).
    apply bind_Ok in Hm. destruct Hm as [v7 [p7 [H7 Hm]]].
    rewrite (bind_of_Ok _ _ _ _ _ H7).
    apply bind_Ok in Hm. destruct Hm as [u8 [p8 [H8 Hm]]].
    rewrite (bind_of_Ok _ _ _ _ _ H8).
    inversion Hm; subst key' v7 p8; clear Hm.
    pose proof (comma_then_close f p2 x7d rest Hp2 eq_refl) as HC.
    unfold bind at 1. unfold bind in HC at 1.
    destruct (peek p2) as [ch p2'| | |]; try discriminate HC.
    rewrite (bind_of_Ok _ _ _ _ _ HC).
    change (moved p2 2) with (moved p2 (1 + 1)). rewrite <- moved_moved.
    apply (parseObject_loop_close f (map_set key value obj) (moved p2 1) rest).
    apply (at_cursor_moved p2 [x2c] (x7d :: rest) Hp2).
Qed.

Lemma trailing_comma_is_accepted_witness :
  parseArray_loop 6 [JInteger 1] (mk_parser (str "[1,2,]") 3 1 4)
  = Ok (JArray ([JInteger 1] ++ [JInteger 2]))
       (moved (mk_parser (str "[1,2,]") 4 1 5) 2).
Proof.
  apply (proj1 trailing_comma_is_accepted 5%nat (mk_parser (str "[1,2,]") 3 1 4)
           [JInteger 1] x32 (JInteger 2) (mk_parser (str "[1,2,]") 4 1 5) []).
  - reflexivity.
  - discriminate.
  - reflexivity.
  - reflexivity.
Defined.

(** ** The parser reads no further than its lookahead *)

Lemma agree_le (n m : nat) (d d' : list byte) :
  (m <= n)%nat -> agree n d d' -> agree m d d'.
Proof.
  intros H A i Hi. apply A. lia.
Qed.

Lemma agree_data_at (n : nat) (d d' : list byte) (i : nat) :
  agree n d d' -> (i < n)%nat -> data_at d' i = data_at d i.
Proof.
  intros A Hi. unfold data_at. rewrite (A i Hi).
  destruct (nth_error d i) eqn:E; [reflexivity|].
  apply nth_error_None in E.
  assert (E' : (length d' <= i)%nat) by (apply nth_error_None; rewrite (A i Hi);
                                         now apply nth_error_None).
  destruct (Nat.eqb_spec i (length d)) as [H|H].
  - assert (L : (i <= length d')%nat).
    { destruct (Nat.le_gt_cases i (length d')) as [L|L]; [exact L|].
      assert (N : nth_error d' (length d') = nth_error d (length d'))
        by (apply A; lia).
      rewrite (proj2 (nth_error_None d' (length d'))) in N by lia.
      symmetry in N. apply nth_error_None in N. lia. }
    destruct (Nat.eqb_spec i (length d')); [reflexivity | lia].
  - assert (N : nth_error d' (length d) = nth_error d (length d))
      by (apply A; lia).
    rewrite (proj2 (nth_error_None d (length d))) in N by lia.
    apply nth_error_None in N.
    destruct (Nat.eqb_spec i (length d')); [lia | reflexivity].
Qed.

Lemma agree_substring (n : nat) (d d' : list byte) (start stop : nat) :
  agree n d d' -> (stop <= n)%nat ->
  firstn (stop - start) (skipn start d') = firstn (stop - start) (skipn start d).
Proof.
  intros A Hs. apply nth_error_ext. intros k.
  rewrite !nth_error_firstn, !nth_error_skipn.
  destruct (Nat.ltb_spec k (stop - start)); [|reflexivity].
  apply A. lia.
Qed.

Lemma agree_app (w rest : list byte) (n : nat) :
  (n <= length w)%nat -> agree n w (w ++ rest).
Proof.
  intros H i Hi. apply nth_error_app1. lia.
Qed.

Lemma closed_stable {A : Type} (m : M A) : closed m -> stable m.
Proof.
  intros H p a p' d' E Ag. apply H; [exact E|].
  apply (agree_le (S (pos p'))); [lia | exact Ag].
Qed.

Lemma stable_bind {A B : Type} (m : M A) (k : A -> M B) :
  stable m -> steps m -> (forall a, stable (k a)) -> (forall a, steps (k a)) ->
  stable (bind m k).
Proof.
  intros Hm Sm Hk Sk p b p2 d' E Ag.
  apply bind_Ok in E. destruct E as [a [p1 [E1 E2]]].
  pose proof (Sm _ _ _ E1) as [D1 P1]. pose proof (Sk a _ _ _ E2) as [D2 P2].
  rewrite (bind_of_Ok _ _ _ _ _ (Hm _ _ _ d' E1
             (agree_le (S (pos p2)) (S (pos p1)) _ _ ltac:(lia) Ag))).
  apply (Hk a p1 b p2 d' E2). now rewrite D1.
Qed.

Lemma closed_bind {A B : Type} (m : M A) (k : A -> M B) :
  closed m -> steps m -> (forall a, closed (k a)) -> (forall a, steps (k a)) ->
  closed (bind m k).
Proof.
  intros Hm Sm Hk Sk p b p2 d' E Ag.
  apply bind_Ok in E. destruct E as [a [p1 [E1 E2]]].
  pose proof (Sm _ _ _ E1) as [D1 P1]. pose proof (Sk a _ _ _ E2) as [D2 P2].
  rewrite (bind_of_Ok _ _ _ _ _ (Hm _ _ _ d' E1
             (agree_le (pos p2) (pos p1) _ _ ltac:(lia) Ag))).
  apply (Hk a p1 b p2 d' E2). now rewrite D1.
Qed.

Lemma closed_bind_r {A B : Type} (m : M A) (k : A -> M B) :
  stable m -> steps m -> (forall a, closed (k a)) -> (forall a, consumes (k a)) ->
  closed (bind m k).
Proof.
  intros Hm Sm Hk Sk p b p2 d' E Ag.
  apply bind_Ok in E. destruct E as [a [p1 [E1 E2]]].
  pose proof (Sm _ _ _ E1) as [D1 P1]. pose proof (Sk a _ _ _ E2) as [D2 P2].
  rewrite (bind_of_Ok _ _ _ _ _ (Hm _ _ _ d' E1
             (agree_le (pos p2) (S (pos p1)) _ _ ltac:(lia) Ag))).
  apply (Hk a p1 b p2 d' E2). now rewrite D1.
Qed.

Lemma closed_ret {A : Type} (a : A) : closed (ret a).
Proof.
  intros p a' p' d' E _. inversion E. reflexivity.
Qed.

Lemma closed_get_pos : closed get_pos.
Proof.
  intros p a' p' d' E _. inversion E. reflexivity.
Qed.

Lemma closed_lift {A : Type} (o : outcome A) : closed (lift o).
Proof.
  intros p a' p' d' E _. destruct o; inversion E. reflexivity.
Qed.

Lemma closed_throwError {A : Type} (msg : list byte) : closed (@throwError A msg).
Proof.
  intros p a' p' d' E _. discriminate E.
Qed.

Lemma closed_out_of_fuel {A : Type} : closed (@out_of_fuel A).
Proof.
  intros p a' p' d' E _. discriminate E.
Qed.

Lemma closed_substring (start : nat) : closed (substring start).
Proof.
  intros p a' p' d' E Ag. inversion E; subst. unfold substring. simpl.
  f_equal. now apply (agree_substring (pos p')).
Qed.

Lemma stable_peek : stable peek.
Proof.
  intros p c p' d' E Ag. apply peek_Ok in E. destruct E as [-> E].
  apply peek_Ok. split; [reflexivity|]. simpl.
  rewrite (agree_data_at _ _ _ (pos p) Ag) by lia. exact E.
Qed.

Lemma closed_advance1 : closed advance1.
Proof.
  intros p u p' d' E Ag. pose proof (advance1_Ok _ _ _ E) as [D [P L]].
  unfold advance1 in *. simpl.
  rewrite (agree_data_at _ _ _ (pos p) Ag) by lia.
  destruct (data_at (data p) (pos p)) as [c|]; [|discriminate].
  destruct (code c =? 10); inversion E; reflexivity.
Qed.

Lemma closed_advance (n : nat) : closed (advance n).
Proof.
  induction n as [|n IH]; cbn [advance]; [apply closed_ret|].
  apply closed_bind; auto with parser.
  - apply closed_advance1.
  - apply consumes_steps, consumes_advance1.
Qed.

#[local] Hint Resolve closed_ret closed_get_pos closed_lift closed_throwError
  closed_out_of_fuel closed_substring closed_advance : parser.
#[local] Hint Resolve stable_peek : parser.

Lemma closed_parseBoolean : closed parseBoolean.
Proof.
  intros p v p' d' E Ag.
  assert (Hp : (pos p <= length (data p))%nat).
  { unfold parseBoolean in E. apply bind_Ok in E. destruct E as [t [p1 [E _]]].
    unfold looking_at in E. simpl in E.
    destruct (data_at (data p) (pos p)) eqn:D; [|discriminate].
    now apply data_at_le in D. }
  rewrite parseBoolean_by_prefix in E by exact Hp.
  destruct (starts_with (str "true") (at_cursor p)) eqn:T.
  - inversion E; subst v p'; clear E. simpl in Ag.
    apply starts_with_app in T. destruct T as [rest T].
    unfold parseBoolean.
    assert (L : looking_at (str "true") (with_data d' p) = Ok true (with_data d' p)).
    { unfold looking_at. simpl.
      rewrite !(agree_data_at _ _ _ _ Ag) by lia.
      pose proof (at_cursor_data_at p _ rest 0 T ltac:(simpl; lia)) as H0.
      pose proof (at_cursor_data_at p _ rest 1 T ltac:(simpl; lia)) as H1.
      pose proof (at_cursor_data_at p _ rest 2 T ltac:(simpl; lia)) as H2.
      pose proof (at_cursor_data_at p _ rest 3 T ltac:(simpl; lia)) as H3.
      rewrite Nat.add_0_r in H0.
      replace (pos p + 1)%nat with (S (pos p)) in H1 by lia.
      replace (pos p + 2)%nat with (S (S (pos p))) in H2 by lia.
      replace (pos p + 3)%nat with (S (S (S (pos p)))) in H3 by lia.
      rewrite H0, H1, H2, H3. reflexivity. }
    rewrite (bind_of_Ok _ _ _ _ _ L).
    assert (A4 : advance 4 p = Ok tt (moved p 4)).
    { apply (advance_over (str "true")) with (rest := rest); [|exact T].
      repeat constructor; discriminate. }
    rewrite (bind_of_Ok _ _ _ _ _ (closed_advance 4 p tt (moved p 4) d' A4 Ag)).
    reflexivity.
  - destruct (starts_with (str "false") (at_cursor p)) eqn:F; [|discriminate].
    inversion E; subst v p'; clear E. simpl in Ag.
    apply starts_with_app in F. destruct F as [rest F].
    unfold parseBoolean.
    pose proof (at_cursor_data_at p _ rest 0 F ltac:(simpl; lia)) as H0.
    pose proof (at_cursor_data_at p _ rest 1 F ltac:(simpl; lia)) as H1.
    pose proof (at_cursor_data_at p _ rest 2 F ltac:(simpl; lia)) as H2.
    pose proof (at_cursor_data_at p _ rest 3 F ltac:(simpl; lia)) as H3.
    pose proof (at_cursor_data_at p _ rest 4 F ltac:(simpl; lia)) as H4.
    rewrite Nat.add_0_r in H0.
    replace (pos p + 1)%nat with (S (pos p)) in H1 by lia.
    replace (pos p + 2)%nat with (S (S (pos p))) in H2 by lia.
    replace (pos p + 3)%nat with (S (S (S (pos p)))) in H3 by lia.
    replace (pos p + 4)%nat with (S (S (S (S (pos p))))) in H4 by lia.
    assert (L : looking_at (str "true") (with_data d' p) = Ok false (with_data d' p)).
    { unfold looking_at. simpl.
      rewrite !(agree_data_at _ _ _ _ Ag) by lia.
      rewrite H0. reflexivity. }
    rewrite (bind_of_Ok _ _ _ _ _ L).
    assert (L2 : looking_at (str "false") (with_data d' p) = Ok true (with_data d' p)).
    { unfold looking_at. simpl.
      rewrite !(agree_data_at _ _ _ _ Ag) by lia.
      rewrite H0, H1, H2, H3, H4. reflexivity. }
    rewrite (bind_of_Ok _ _ _ _ _ L2).
    assert (A5 : advance 5 p = Ok tt (moved p 5)).
    { apply (advance_over (str "false")) with (rest := rest); [|exact F].
      repeat constructor; discriminate. }
    rewrite (bind_of_Ok _ _ _ _ _ (closed_advance 5 p tt (moved p 5) d' A5 Ag)).
    reflexivity.
Qed.

Lemma closed_parseNull : closed parseNull.
Proof.
  intros p v p' d' E Ag.
  assert (Hp : (pos p <= length (data p))%nat).
  { unfold parseNull in E. apply bind_Ok in E. destruct E as [t [p1 [E _]]].
    unfold looking_at in E. simpl in E.
    destruct (data_at (data p) (pos p)) eqn:D; [|discriminate].
    now apply data_at_le in D. }
  rewrite parseNull_by_prefix in E by exact Hp.
  destruct (starts_with (str "null") (at_cursor p)) eqn:T; [|discriminate].
  inversion E; subst v p'; clear E. simpl in Ag.
  apply starts_with_app in T. destruct T as [rest T].
  unfold parseNull.
  assert (L : looking_at (str "null") (with_data d' p) = Ok true (with_data d' p)).
  { unfold looking_at. simpl.
    rewrite !(agree_data_at _ _ _ _ Ag) by lia.
    pose proof (at_cursor_data_at p _ rest 0 T ltac:(simpl; lia)) as H0.
    pose proof (at_cursor_data_at p _ rest 1 T ltac:(simpl; lia)) as H1.
    pose proof (at_cursor_data_at p _ rest 2 T ltac:(simpl; lia)) as H2.
    pose proof (at_cursor_data_at p _ rest 3 T ltac:(simpl; lia)) as H3.
    rewrite Nat.add_0_r in H0.
    replace (pos p + 1)%nat with (S (pos p)) in H1 by lia.
    replace (pos p + 2)%nat with (S (S (pos p))) in H2 by lia.
    replace (pos p + 3)%nat with (S (S (S (pos p)))) in H3 by lia.
    rewrite H0, H1, H2, H3. reflexivity. }
  rewrite (bind_of_Ok _ _ _ _ _ L).
  assert (A4 : advance 4 p = Ok tt (moved p 4)).
  { apply (advance_over (str "null")) with (rest := rest); [|exact T].
    repeat constructor; discriminate. }
  rewrite (bind_of_Ok _ _ _ _ _ (closed_advance 4 p tt (moved p 4) d' A4 Ag)).
  reflexivity.
Qed.

Lemma consumes_parseObject (fuel : nat) : consumes (parseObject fuel).
Proof. apply consumes_productions. Qed.

Lemma consumes_parseArray (fuel : nat) : consumes (parseArray fuel).
Proof. apply consumes_productions. Qed.

#[local] Hint Resolve consumes_parseObject consumes_parseArray : parser.
#[local] Hint Resolve closed_parseBoolean closed_parseNull : parser.

Ltac solve_steps := solve [steps_tac].

Ltac solve_consumes :=
  solve
    [ auto with parser
    | apply consumes_bind_l; [solve_consumes | intros ?; solve_steps]
    | apply consumes_bind_r; [solve_steps | intros ?; solve_consumes]
    | match goal with
      | |- consumes (if ?c then _ else _) => destruct c; solve_consumes
      end ].

(** Solve [stable] and [closed] goals along the structure of a computation. *)
Ltac stable_tac :=
  first
    [ solve [auto with parser]
    | apply closed_stable; closed_tac
    | apply stable_bind;
      [stable_tac | solve_steps | intros ?; stable_tac | intros ?; solve_steps]
    | match goal with
      | |- stable (if ?c then _ else _) => destruct c; stable_tac
      end ]
with closed_tac :=
  first
    [ solve [auto with parser]
    | apply closed_bind;
      [closed_tac | solve_steps | intros ?; closed_tac | intros ?; solve_steps]
    | apply closed_bind_r;
      [stable_tac | solve_steps | intros ?; closed_tac | intros ?; solve_consumes]
    | match goal with
      | |- closed (if ?c then _ else _) => destruct c; closed_tac
      end ].

Lemma stable_skipWhitespace (fuel : nat) : stable (skipWhitespace fuel).
Proof.
  induction fuel as [|f IH]; cbn [skipWhitespace]; stable_tac.
Qed.

Lemma stable_skipDigits (fuel : nat) : stable (skipDigits fuel).
Proof.
  induction fuel as [|f IH]; cbn [skipDigits]; stable_tac.
Qed.

#[local] Hint Resolve stable_skipWhitespace stable_skipDigits : parser.

#[local] Hint Resolve consumes_parseString_loop : parser.

Lemma closed_parseString_loop (fuel : nat) :
  forall s, closed (parseString_loop fuel s).
Proof.
  induction fuel as [|f IH]; intros s; cbn [parseString_loop]; closed_tac.
Qed.

#[local] Hint Resolve closed_parseString_loop : parser.

Lemma closed_parseString (fuel : nat) : closed (parseString fuel).
Proof.
  unfold parseString. closed_tac.
Qed.

Lemma stable_parseNumber (fuel : nat) : stable (parseNumber fuel).
Proof.
  unfold parseNumber. stable_tac.
Qed.

#[local] Hint Resolve closed_parseString stable_parseNumber : parser.

(** A value with lookahead is a number; every other production ends with its
    last byte. *)
Lemma stable_productions (fuel : nat) :
  stable (parseValue fuel) /\
  closed (parseObject fuel) /\
  (forall obj, closed (parseObject_loop fuel obj)) /\
  closed (parseArray fuel) /\
  (forall arr, closed (parseArray_loop fuel arr)).
Proof.
  induction fuel as [|f [IHV [IHO [IHOL [IHA IHAL]]]]].
  - split; [|split; [|split; [|split]]]; try intros ?;
      first [apply closed_out_of_fuel | apply closed_stable, closed_out_of_fuel].
  - split; [|split; [|split; [|split]]]; try intros ?;
      cbn [parseValue parseObject parseObject_loop parseArray parseArray_loop].
    + stable_tac.
    + closed_tac.
    + closed_tac.
    + closed_tac.
    + closed_tac.
Qed.

(** ** A value ends inside the text *)

Lemma lands_bind {A B : Type} (m : M A) (k : A -> M B) :
  (forall a, lands (k a)) -> lands (bind m k).
Proof.
  intros Hk p b p2 E. apply bind_Ok in E. destruct E as [a [p1 [_ E]]].
  now apply (Hk a) in E.
Qed.

Lemma lands_still {A B : Type} (m : M A) (k : A -> M B) :
  lands m -> (forall a, still (k a)) -> lands (bind m k).
Proof.
  intros Hm Hk p b p2 E. apply bind_Ok in E. destruct E as [a [p1 [E1 E2]]].
  apply (Hk a) in E2. subst p2. now apply Hm in E1.
Qed.

Lemma lands_peek {B : Type} (k : byte -> M B) :
  (forall c p b p', data_at (data p) (pos p) = Some c -> k c p = Ok b p' ->
                    (pos p' <= length (data p'))%nat) ->
  lands (bind peek k).
Proof.
  intros Hk p b p2 E. apply bind_Ok in E. destruct E as [c [p1 [E1 E2]]].
  apply peek_Ok in E1. destruct E1 as [-> E1]. eauto.
Qed.

Lemma lands_throwError {A : Type} (msg : list byte) : lands (@throwError A msg).
Proof.
  intros p a p' E. discriminate E.
Qed.

Lemma lands_out_of_fuel {A : Type} : lands (@out_of_fuel A).
Proof.
  intros p a p' E. discriminate E.
Qed.

Lemma still_ret {A : Type} (a : A) : still (ret a).
Proof.
  intros p a' p' E. now inversion E.
Qed.

Lemma still_lift {A : Type} (o : outcome A) : still (lift o).
Proof.
  intros p a' p' E. destruct o; now inversion E.
Qed.

Lemma still_substring (start : nat) : still (substring start).
Proof.
  intros p a' p' E. now inversion E.
Qed.

Lemma still_bind {A B : Type} (m : M A) (k : A -> M B) :
  still m -> (forall a, still (k a)) -> still (bind m k).
Proof.
  intros Hm Hk p b p2 E. apply bind_Ok in E. destruct E as [a [p1 [E1 E2]]].
  apply Hm in E1. apply (Hk a) in E2. congruence.
Qed.

(** After a byte that is not the terminating zero was consumed the cursor is
    still inside the text or at its end. *)
Lemma lands_advance_real (p : parser) (c : byte) (u : unit) (p' : parser) :
  data_at (data p) (pos p) = Some c -> c <> x00 ->
  advance 1 p = Ok u p' -> (pos p' <= length (data p'))%nat.
Proof.
  intros Hc Hne E. pose proof (data_at_nonzero _ _ _ Hc Hne) as L.
  apply advance_Ok in E. destruct E as [D P]. rewrite D, P. lia.
Qed.

Lemma lands_skipWhitespace (fuel : nat) : lands (skipWhitespace fuel).
Proof.
  induction fuel as [|f IH]; cbn [skipWhitespace]; [apply lands_out_of_fuel|].
  apply lands_peek. intros c p b p' Hc E.
  destruct (negb (code c =? 0) && isspace c).
  - revert E. apply lands_bind. intros _. exact IH.
  - inversion E; subst. now apply data_at_le in Hc.
Qed.

Lemma lands_skipDigits (fuel : nat) : lands (skipDigits fuel).
Proof.
  induction fuel as [|f IH]; cbn [skipDigits]; [apply lands_out_of_fuel|].
  apply lands_peek. intros c p b p' Hc E.
  destruct (is_digit c).
  - revert E. apply lands_bind. intros _. exact IH.
  - inversion E; subst. now apply data_at_le in Hc.
Qed.

Lemma lands_parseString_loop (fuel : nat) : forall s, lands (parseString_loop fuel s).
Proof.
  induction fuel as [|f IH]; intros s; cbn [parseString_loop];
    [apply lands_out_of_fuel|].
  apply lands_peek. intros c p b p' Hc E.
  destruct (code c =? 34) eqn:Q; simpl negb in E; cbv iota in E.
  - apply bind_Ok in E. destruct E as [u [p1 [E1 E2]]].
    inversion E2; subst. apply (lands_advance_real p c u p' Hc); [|exact E1].
    intros ->. discriminate Q.
  - destruct (code c =? 92).
    + revert E. repeat (apply lands_bind; intros ?). apply IH.
    + revert E. apply lands_bind. intros _. apply IH.
Qed.

Lemma lands_parseString (fuel : nat) : lands (parseString fuel).
Proof.
  unfold parseString. apply lands_bind. intros _. apply lands_parseString_loop.
Qed.

Lemma starts_with_length (lit : list byte) (p : parser) :
  (0 < length lit)%nat ->
  starts_with lit (at_cursor p) = true ->
  (pos p + length lit <= length (data p))%nat.
Proof.
  intros Hl H. apply starts_with_app in H. destruct H as [rest H].
  apply (f_equal (@length byte)) in H. unfold at_cursor in H.
  rewrite length_skipn, length_app in H. lia.
Qed.

Lemma lands_parseBoolean : lands parseBoolean.
Proof.
  intros p v p' E.
  assert (Hp : (pos p <= length (data p))%nat).
  { unfold parseBoolean in E. apply bind_Ok in E. destruct E as [t [p1 [E _]]].
    unfold looking_at in E. simpl in E.
    destruct (data_at (data p) (pos p)) eqn:D; [|discriminate].
    now apply data_at_le in D. }
  rewrite parseBoolean_by_prefix in E by exact Hp.
  destruct (starts_with (str "true") (at_cursor p)) eqn:T.
  - inversion E; subst. simpl. apply starts_with_length in T; simpl in *; lia.
  - destruct (starts_with (str "false") (at_cursor p)) eqn:F; [|discriminate].
    inversion E; subst. simpl. apply starts_with_length in F; simpl in *; lia.
Qed.

Lemma lands_parseNull : lands parseNull.
Proof.
  intros p v p' E.
  assert (Hp : (pos p <= length (data p))%nat).
  { unfold parseNull in E. apply bind_Ok in E. destruct E as [t [p1 [E _]]].
    unfold looking_at in E. simpl in E.
    destruct (data_at (data p) (pos p)) eqn:D; [|discriminate].
    now apply data_at_le in D. }
  rewrite parseNull_by_prefix in E by exact Hp.
  destruct (starts_with (str "null") (at_cursor p)) eqn:T; [|discriminate].
  inversion E; subst. simpl. apply starts_with_length in T; simpl in *; lia.
Qed.

Lemma lands_parseNumber (fuel : nat) : lands (parseNumber fuel).
Proof.
  unfold parseNumber. do 4 (apply lands_bind; intros ?).
  apply lands_peek. intros c p b p' Hc E.
  destruct (code c =? 46).
  - revert E. apply lands_bind. intros _. apply lands_still.
    + apply lands_skipDigits.
    + intros _. repeat (apply still_bind; [|intros ?]);
        first [apply still_substring | apply still_lift | apply still_ret].
  - assert (S : still (text <- substring a;; i <- lift (stoi text);; ret (JInteger i))).
    { repeat (apply still_bind; [|intros ?]);
        first [apply still_substring | apply still_lift | apply still_ret]. }
    apply S in E. subst. now apply data_at_le in Hc.
Qed.

Lemma lands_productions (fuel : nat) :
  lands (parseValue fuel) /\
  lands (parseObject fuel) /\
  (forall obj, lands (parseObject_loop fuel obj)) /\
  lands (parseArray fuel) /\
  (forall arr, lands (parseArray_loop fuel arr)).
Proof.
  induction fuel as [|f [IHV [IHO [IHOL [IHA IHAL]]]]].
  - split; [|split; [|split; [|split]]]; try intros ?; apply lands_out_of_fuel.
  - split; [|split; [|split; [|split]]]; try intros ?;
      cbn [parseValue parseObject parseObject_loop parseArray parseArray_loop].
    + do 2 (apply lands_bind; intros ?).
      repeat match goal with
             | |- lands (if ?c then _ else _) => destruct c
             end;
        first [ assumption | apply lands_parseString | apply lands_parseBoolean
              | apply lands_parseNull | apply lands_parseNumber
              | apply lands_throwError ].
    + do 2 (apply lands_bind; intros ?). apply IHOL.
    + apply lands_peek. intros c p b p' Hc E.
      destruct (code c =? 125) eqn:Q; simpl negb in E; cbv iota in E.
      * apply bind_Ok in E. destruct E as [u [p1 [E1 E2]]].
        inversion E2; subst. apply (lands_advance_real p c u p' Hc); [|exact E1].
        intros ->. discriminate Q.
      * revert E. repeat (apply lands_bind; intros ?). apply IHOL.
    + do 2 (apply lands_bind; intros ?). apply IHAL.
    + apply lands_peek. intros c p b p' Hc E.
      destruct (code c =? 93) eqn:Q; simpl negb in E; cbv iota in E.
      * apply bind_Ok in E. destruct E as [u [p1 [E1 E2]]].
        inversion E2; subst. apply (lands_advance_real p c u p' Hc); [|exact E1].
        intros ->. discriminate Q.
      * revert E. repeat (apply lands_bind; intros ?). apply IHAL.
Qed.

Lemma lands_parse_ (fuel : nat) : lands (parse_ fuel).
Proof.
  unfold parse_. apply lands_bind. intros _. apply lands_productions.
Qed.

(** ** Trailing content *)

Lemma with_data_data (d' : list byte) (p : parser) : data (with_data d' p) = d'.
Proof. reflexivity. Qed.

Lemma skipDigits_boundary (fuel : nat) :
  forall p u p' d',
    skipDigits fuel p = Ok u p' ->
    agree (pos p') (data p) d' ->
    (exists c', data_at d' (pos p') = Some c' /\ is_digit c' = false) ->
    skipDigits fuel (with_data d' p) = Ok u (with_data d' p').
Proof.
  induction fuel as [|f IH]; intros p u p' d' E Ag Hc'; [discriminate E|].
  cbn [skipDigits] in *.
  apply bind_Ok in E. destruct E as [c [p0 [E0 E]]].
  apply peek_Ok in E0. destruct E0 as [-> Hc].
  destruct (is_digit c) eqn:Dc.
  - apply bind_Ok in E. destruct E as [u1 [p1 [E1 E2]]].
    pose proof E1 as T1. track T1. pose proof E2 as T2. track_le T2.
    destruct T1 as [D1 P1], T2 as [D2 P2].
    assert (Hpeek : peek (with_data d' p) = Ok c (with_data d' p)).
    { apply (stable_peek p c p d'); [now apply peek_Ok|].
      apply (agree_le (pos p')); [lia | exact Ag]. }
    rewrite (bind_of_Ok _ _ _ _ _ Hpeek), Dc.
    rewrite (bind_of_Ok _ _ _ _ _ (closed_advance 1 p u1 p1 d' E1
               (agree_le (pos p') (pos p1) _ _ ltac:(lia) Ag))).
    apply IH; [exact E2 | now rewrite D1 | exact Hc'].
  - inversion E; subst p' u; clear E.
    destruct Hc' as [c' [Hc' Dc']].
    rewrite (bind_of_Ok peek _ _ c' (with_data d' p)) by (now apply peek_Ok).
    now rewrite Dc'.
Qed.

Lemma parseNumber_boundary (fuel : nat) (p : parser) (v : JSON) (p' : parser)
    (d' : list byte) :
  parseNumber fuel p = Ok v p' ->
  agree (pos p') (data p) d' ->
  ends_value v (data_at d' (pos p')) ->
  parseNumber fuel (with_data d' p) = Ok v (with_data d' p').
Proof.
  intros E Ag Hend. pose proof E as Tall. track Tall. destruct Tall as [Dall Pall].
  unfold parseNumber in *.
  apply bind_Ok in E. destruct E as [start [p0 [E0 E]]].
  inversion E0; subst p0 start; clear E0.
  rewrite (bind_of_Ok get_pos _ _ (pos p) (with_data d' p)) by reflexivity.
  apply bind_Ok in E. destruct E as [c [p0 [E0 E]]].
  pose proof (proj1 (peek_Ok _ _ _) E0) as [-> Hc].
  rewrite (bind_of_Ok _ _ _ _ _ (stable_peek p c p d' E0
             (agree_le (pos p') (S (pos p)) _ _ ltac:(lia) Ag))).
  apply bind_Ok in E. destruct E as [u1 [p1 [E1 E]]].
  assert (S1 : data p1 = data p /\ (pos p <= pos p1)%nat).
  { destruct (code c =? 45); track_le E1; assumption. }
  destruct S1 as [D1 P1].
  apply bind_Ok in E. destruct E as [u2 [p2 [E2 E]]].
  pose proof E2 as T2. track_le T2. destruct T2 as [D2 P2].
  apply bind_Ok in E. destruct E as [c2 [p3 [E3 E]]].
  pose proof (proj1 (peek_Ok _ _ _) E3) as [-> Hc2].
  destruct (code c2 =? 46) eqn:Dot.
  - (* a point: the digits before it have their lookahead inside the value *)
    apply bind_Ok in E. destruct E as [u3 [p3 [E3' E]]].
    pose proof E3' as T3. track T3. destruct T3 as [D3 P3].
    apply bind_Ok in E. destruct E as [u4 [p4 [E4 E]]].
    pose proof E4 as T4. track_le T4. destruct T4 as [D4 P4].
    apply bind_Ok in E. destruct E as [text [p5 [E5 E]]].
    inversion E5; subst p5 text; clear E5.
    apply bind_Ok in E. destruct E as [d [p5 [E5 E]]].
    inversion E; subst v p'; clear E.
    assert (p5 = p4) by (unfold lift in E5; destruct (stod _); now inversion E5).
    subst p5.
    assert (Ag2 : agree (S (pos p2)) (data p) d')
      by (apply (agree_le (pos p4)); [lia | exact Ag]).
    assert (M1 : (if code c =? 45 then advance 1 else ret tt) (with_data d' p)
                 = Ok u1 (with_data d' p1)).
    { destruct (code c =? 45).
      - apply (closed_advance 1 p u1 p1 d' E1).
        apply (agree_le (S (pos p2))); [lia | exact Ag2].
      - inversion E1; subst. reflexivity. }
    rewrite (bind_of_Ok _ _ _ _ _ M1).
    rewrite (bind_of_Ok _ _ _ _ _ (stable_skipDigits fuel p1 u2 p2 d' E2
               ltac:(rewrite D1; exact Ag2))).
    rewrite (bind_of_Ok _ _ _ _ _ (stable_peek p2 c2 p2 d' E3
               ltac:(rewrite D2, D1; exact Ag2))).
    rewrite Dot.
    rewrite (bind_of_Ok _ _ _ _ _ (closed_advance 1 p2 u3 p3 d' E3'
               ltac:(rewrite D2, D1; apply (agree_le (pos p4)); [lia | exact Ag]))).
    destruct Hend as [c' [Hc' Dc']].
    rewrite (bind_of_Ok _ _ _ _ _ (skipDigits_boundary fuel p3 u4 p4 d' E4
               ltac:(rewrite D3, D2, D1; exact Ag)
               (ex_intro _ c' (conj Hc' Dc')))).
    unfold substring at 1. unfold bind at 1. simpl.
    rewrite (agree_substring (pos p4) (data p) d' (pos p) (pos p4) Ag (le_n _)).
    replace (data p4) with (data p) in E5 by congruence.
    unfold lift in *. destruct (stod _); inversion E5; subst. reflexivity.
  - (* no point: the lookahead of the digits is the byte after the value *)
    apply bind_Ok in E. destruct E as [text [p5 [E5 E]]].
    inversion E5; subst p5 text; clear E5.
    apply bind_Ok in E. destruct E as [i [p5 [E5 E]]].
    inversion E; subst v p'; clear E.
    assert (p5 = p2) by (unfold lift in E5; destruct (stoi _); now inversion E5).
    subst p5.
    destruct Hend as [c' [Hc' [Dc' Pc']]].
    assert (M1 : (if code c =? 45 then advance 1 else ret tt) (with_data d' p)
                 = Ok u1 (with_data d' p1)).
    { destruct (code c =? 45).
      - apply (closed_advance 1 p u1 p1 d' E1).
        apply (agree_le (pos p2)); [lia | exact Ag].
      - inversion E1; subst. reflexivity. }
    rewrite (bind_of_Ok _ _ _ _ _ M1).
    rewrite (bind_of_Ok _ _ _ _ _ (skipDigits_boundary fuel p1 u2 p2 d' E2
               ltac:(rewrite D1; exact Ag)
               (ex_intro _ c' (conj Hc' Dc')))).
    rewrite (bind_of_Ok peek _ _ c' (with_data d' p2)) by (now apply peek_Ok).
    replace (code c' =? 46) with false by (symmetry; now apply Z.eqb_neq).
    unfold substring at 1. unfold bind at 1. simpl.
    rewrite (agree_substring (pos p2) (data p) d' (pos p) (pos p2) Ag (le_n _)).
    replace (data p2) with (data p) in E5 by congruence.
    unfold lift in *. destruct (stoi _); inversion E5; subst. reflexivity.
Qed.

(** The tags the productions return. *)
Lemma parseString_loop_tag (fuel : nat) :
  forall s p v p', parseString_loop fuel s p = Ok v p' -> getType v = String.
Proof.
  induction fuel as [|f IH]; intros s p v p' E; [discriminate E|].
  cbn [parseString_loop] in E.
  apply bind_Ok in E. destruct E as [c [p0 [_ E]]].
  destruct (negb (code c =? 34)); [destruct (code c =? 92)|].
  - apply bind_Ok in E. destruct E as [u [p1 [_ E]]].
    apply bind_Ok in E. destruct E as [e [p2 [_ E]]].
    apply bind_Ok in E. destruct E as [s' [p3 [_ E]]].
    apply bind_Ok in E. destruct E as [u' [p4 [_ E]]]. eauto.
  - apply bind_Ok in E. destruct E as [u [p1 [_ E]]]. eauto.
  - apply bind_Ok in E. destruct E as [u [p1 [_ E]]]. now inversion E.
Qed.

Lemma ends_value_not_number (v : JSON) (o : option byte) :
  getType v <> Integer -> getType v <> Double -> ends_value v o.
Proof.
  destruct v; simpl; intros H1 H2; try exact I; contradiction.
Qed.

Lemma parseValue_boundary (fuel : nat) (p : parser) (v : JSON) (p' : parser)
    (d' : list byte) :
  parseValue fuel p = Ok v p' ->
  agree (pos p') (data p) d' ->
  ends_value v (data_at d' (pos p')) ->
  parseValue fuel (with_data d' p) = Ok v (with_data d' p').
Proof.
  intros E Ag Hend. destruct fuel as [|f]; [discriminate E|].
  cbn [parseValue] in *.
  apply bind_Ok in E. destruct E as [u [p1 [E1 E]]].
  pose proof E1 as T1. track_le T1. destruct T1 as [D1 P1].
  apply bind_Ok in E. destruct E as [ch [p2 [E2 E]]].
  pose proof (proj1 (peek_Ok _ _ _) E2) as [-> Hch].
  assert (C : (pos p1 < pos p')%nat /\ data p' = data p1).
  { revert E.
    match goal with
    | |- ?m p1 = _ -> _ => assert (Cm : consumes m) by solve_consumes
    end.
    intros E. apply Cm in E. tauto. }
  destruct C as [P2 D2].
  assert (Ag1 : agree (S (pos p1)) (data p) d')
    by (apply (agree_le (pos p')); [lia | exact Ag]).
  rewrite (bind_of_Ok _ _ _ _ _ (stable_skipWhitespace f p u p1 d' E1 Ag1)).
  rewrite (bind_of_Ok _ _ _ _ _ (stable_peek p1 ch p1 d' E2
             ltac:(rewrite D1; exact Ag1))).
  assert (Ag' : agree (pos p') (data p1) d') by (now rewrite D1).
  destruct (stable_productions f) as [_ [CO [_ [CA _]]]].
  repeat match goal with
         | |- (if ?c then _ else _) _ = _ => destruct c
         end.
  - now apply CO.
  - now apply CA.
  - now apply closed_parseString.
  - now apply closed_parseBoolean.
  - now apply closed_parseNull.
  - now apply parseNumber_boundary.
  - discriminate E.
Qed.

Lemma parse__boundary (fuel : nat) (p : parser) (v : JSON) (p' : parser)
    (d' : list byte) :
  parse_ fuel p = Ok v p' ->
  agree (pos p') (data p) d' ->
  ends_value v (data_at d' (pos p')) ->
  parse_ fuel (with_data d' p) = Ok v (with_data d' p').
Proof.
  intros E Ag Hend. unfold parse_ in *.
  apply bind_Ok in E. destruct E as [u [p1 [E1 E]]].
  pose proof E1 as T1. track_le T1. destruct T1 as [D1 P1].
  pose proof E as T2. track T2. destruct T2 as [D2 P2].
  rewrite (bind_of_Ok _ _ _ _ _ (stable_skipWhitespace fuel p u p1 d' E1
             (agree_le (pos p') (S (pos p1)) _ _ ltac:(lia) Ag))).
  apply parseValue_boundary; [exact E | now rewrite D1 | exact Hend].
Qed.

Lemma stable_parse_ (fuel : nat) : stable (parse_ fuel).
Proof.
  unfold parse_. destruct (stable_productions fuel) as [SV _]. stable_tac.
Qed.

Lemma data_at_app_end (w rest : list byte) :
  data_at (w ++ rest) (length w) = first_byte rest.
Proof.
  destruct rest as [|c rest]; simpl.
  - rewrite app_nil_r. apply data_at_end.
  - rewrite data_at_in by (rewrite length_app; simpl; lia).
    rewrite nth_error_app2 by lia. now rewrite Nat.sub_diag.
Qed.

(** C10: the top-level parse of a text [w] followed by any content [rest]
    returns the value of [w], with the cursor where it stood after [w] alone:
    nothing of [rest] is read and nothing checks that the input is used up.
    That [w] is the whole leading value means that [rest] does not go on with
    its last token: after a number it does not begin with a digit (nor, after
    an integer, with a point).  So [true garbage] and [nullx] parse as true
    and as null, with the cursor left before the end of the text. *)
Theorem trailing_content_is_ignored :
  (forall (w rest : list byte) (v : JSON) (p : parser),
     parse w = Ok v p ->
     ends_value v (first_byte rest) ->
     parse (w ++ rest) = Ok v (with_data (w ++ rest) p) /\
     (pos p <= length w)%nat) /\
  parse (str "true garbage")
  = Ok (JBoolean true) (mk_parser (str "true garbage") 4 1 5) /\
  parse (str "nullx") = Ok JNull (mk_parser (str "nullx") 4 1 5).
Proof.
  split; [|split; reflexivity].
  intros w rest v p E Hend.
  unfold parse in E.
  pose proof (lands_parse_ _ _ _ _ E) as L.
  pose proof E as T. 
  assert (Sp : steps (parse_ (parse_fuel w))).
  { unfold parse_. steps_tac. }
  apply Sp in T. destruct T as [D _]. rewrite D in L. simpl in L.
  split; [|exact L].
  apply (parse_of_fuel (w ++ rest) (parse_fuel w)); [|discriminate].
  change (JSONParser (w ++ rest)) with (with_data (w ++ rest) (JSONParser w)).
  destruct (Nat.eq_dec (pos p) (length w)) as [Eq|Ne].
  - apply parse__boundary; [exact E | |].
    + simpl. now apply agree_app.
    + rewrite Eq, data_at_app_end. exact Hend.
  - apply stable_parse_; [exact E|].
    simpl. apply agree_app. lia.
Qed.

Lemma trailing_content_is_ignored_witness :
  parse (str "12" ++ str " 3")
  = Ok (JInteger 12) (with_data (str "12" ++ str " 3") (mk_parser (str "12") 2 1 3))
  /\ (2 <= length (str "12"))%nat.
Proof.
  apply (proj1 trailing_content_is_ignored (str "12") (str " 3") (JInteger 12)
           (mk_parser (str "12") 2 1 3)).
  - reflexivity.
  - simpl. exists x20. repeat split. discriminate.
Defined.

(** ** The text of numbers reads back *)

Lemma digits_acc_app (fuel : nat) (base : Z) :
  forall n acc, digits_acc fuel base n acc = digits_acc fuel base n [] ++ acc.
Proof.
  induction fuel as [|f IH]; intros n acc; simpl; [reflexivity|].
  destruct (n / base =? 0); [reflexivity|].
  rewrite IH. rewrite (IH _ [_]). now rewrite <- app_assoc.
Qed.

Lemma digits_value_app (a b : list byte) :
  digits_value (a ++ b)
  = fold_left (fun acc c => 10 * acc + digit_value c) b (digits_value a).
Proof.
  unfold digits_value. apply fold_left_app.
Qed.

Lemma digits_acc_value (fuel : nat) :
  forall n, 0 <= n < 2 ^ Z.of_nat fuel ->
  digits_value (digits_acc fuel 10 n []) = n.
Proof.
  induction fuel as [|f IH]; intros n Hn.
  - simpl in *. assert (n = 0) by lia. subst. reflexivity.
  - cbn [digits_acc].
    assert (Hd : digit_value (digit_char (n mod 10)) = n mod 10)
      by (apply digit_char_value; apply Z.mod_pos_bound; lia).
    destruct (Z.eqb_spec (n / 10) 0) as [E|E].
    + unfold digits_value. cbn [fold_left]. rewrite Hd.
      pose proof (Z.div_mod n 10 ltac:(lia)). lia.
    + rewrite digits_acc_app, digits_value_app. cbn [fold_left]. rewrite Hd.
      rewrite IH.
      * pose proof (Z.div_mod n 10 ltac:(lia)). lia.
      * rewrite Nat2Z.inj_succ, Z.pow_succ_r in Hn by lia.
        split; [apply Z.div_pos; lia|].
        apply Z.div_lt_upper_bound; lia.
Qed.

Lemma digits_of_value (n : Z) : 0 <= n -> digits_value (digits_of 10 n) = n.
Proof.
  intros Hn. unfold digits_of. apply digits_acc_value.
  split; [exact Hn|].
  destruct (Z.eq_dec n 0) as [->|Hne]; [reflexivity|].
  rewrite Nat2Z.inj_succ, Z2Nat.id by apply Z.log2_nonneg.
  apply Z.log2_spec. lia.
Qed.

Lemma digits_of_digits (n : Z) : forallb is_digit (digits_of 10 n) = true.
Proof.
  apply forallb_forall. apply Forall_forall.
  apply digits_of_Forall; [lia|]. intros d Hd. now apply digit_char_is_digit.
Qed.

Lemma digits_of_nonempty (base n : Z) : digits_of base n <> [].
Proof.
  unfold digits_of. cbn [digits_acc].
  destruct (n / base =? 0); [discriminate|].
  rewrite digits_acc_app. intros H. apply app_eq_nil in H. destruct H. discriminate.
Qed.

Lemma take_digits_all (ds : list byte) :
  forallb is_digit ds = true -> take_digits ds = ds.
Proof.
  induction ds as [|c ds IH]; simpl; [reflexivity|].
  intros H. apply andb_true_iff in H. destruct H as [Hc H].
  rewrite Hc. f_equal. now apply IH.
Qed.

Lemma drop_space_digit (s : list byte) (c : byte) :
  isspace c = false -> drop_space (c :: s) = c :: s.
Proof.
  intros H. simpl. now rewrite H.
Qed.

Lemma is_digit_not_space (c : byte) : is_digit c = true -> isspace c = false.
Proof.
  unfold is_digit, isspace. intros H.
  apply andb_true_iff in H. destruct H as [H1 H2].
  apply Z.leb_le in H1. apply Z.leb_le in H2.
  apply orb_false_iff. split.
  - apply Z.eqb_neq. lia.
  - apply andb_false_iff. right. apply Z.leb_gt. lia.
Qed.

Lemma split_sign_digit (c : byte) (ds : list byte) :
  is_digit c = true -> split_sign (c :: ds) = (false, c :: ds).
Proof.
  intros Hc. unfold split_sign. unfold is_digit in Hc.
  apply andb_true_iff in Hc. destruct Hc as [H1 H2].
  apply Z.leb_le in H1. apply Z.leb_le in H2.
  destruct (Z.eqb_spec (code c) 45); [lia|].
  destruct (Z.eqb_spec (code c) 43); [lia|]. reflexivity.
Qed.

Lemma stoi_digits (neg : bool) (ds : list byte) :
  forallb is_digit ds = true -> ds <> [] ->
  stoi ((if neg then [x2d] else []) ++ ds)
  = let v := if neg then - digits_value ds else digits_value ds in
    if in_int_range v then Return v else Raise out_of_range.
Proof.
  intros Hd Hne. destruct ds as [|c ds]; [contradiction|].
  assert (Hc : is_digit c = true).
  { simpl in Hd. now apply andb_true_iff in Hd. }
  unfold stoi. destruct neg.
  - change ([x2d] ++ c :: ds) with (x2d :: c :: ds).
    rewrite drop_space_digit by reflexivity.
    change (split_sign (x2d :: c :: ds)) with (true, c :: ds). cbv iota beta.
    rewrite take_digits_all by exact Hd. reflexivity.
  - change ([] ++ c :: ds) with (c :: ds).
    rewrite drop_space_digit by (now apply is_digit_not_space).
    rewrite split_sign_digit by exact Hc.
    rewrite take_digits_all by exact Hd. reflexivity.
Qed.

(** [std::stoi] reads the decimal text of an [int] back. *)
Lemma stoi_dec_of_int (i : Z) :
  in_int_range i = true -> stoi (dec_of_int i) = Return i.
Proof.
  intros Hr. unfold dec_of_int.
  destruct (Z.ltb_spec i 0) as [Hneg|Hpos].
  - change (x2d :: digits_of 10 (- i)) with ((if true then [x2d] else []) ++ digits_of 10 (- i)).
    rewrite stoi_digits; [|apply digits_of_digits|apply digits_of_nonempty].
    cbv zeta. rewrite digits_of_value by lia.
    replace (- - i) with i by lia. now rewrite Hr.
  - change (digits_of 10 i) with ((if false then [x2d] else []) ++ digits_of 10 i).
    rewrite stoi_digits; [|apply digits_of_digits|apply digits_of_nonempty].
    cbv zeta. rewrite digits_of_value by lia. now rewrite Hr.
Qed.

(** ** Running the parser over a known text *)

Lemma at_text_data_at (p : parser) (l : list byte) :
  at_text p l -> data_at (data p) (pos p) = first_byte l.
Proof.
  intros [Hp H]. unfold at_cursor in H. destruct l as [|c l]; simpl.
  - apply skipn_all_iff in H.
    replace (pos p) with (length (data p)) by lia. apply data_at_end.
  - pose proof (at_cursor_data_at p [c] l 0 H ltac:(simpl; lia)) as E.
    now rewrite Nat.add_0_r in E.
Qed.

Lemma at_text_peek (p : parser) (c : byte) (l : list byte) :
  at_text p (c :: l) -> peek p = Ok c p.
Proof.
  intros H. apply peek_Ok. split; [reflexivity|]. now rewrite (at_text_data_at p _ H).
Qed.

Lemma at_text_length (p : parser) (l : list byte) :
  at_text p l -> (pos p + length l = length (data p))%nat.
Proof.
  intros [Hp H]. apply (f_equal (@length byte)) in H. unfold at_cursor in H.
  rewrite length_skipn in H. lia.
Qed.

Lemma at_text_advanced (p p' : parser) (l1 l2 : list byte) :
  at_text p (l1 ++ l2) -> advanced p (length l1) p' -> at_text p' l2.
Proof.
  intros H [D P]. pose proof (at_text_length _ _ H) as L.
  destruct H as [Hp H]. rewrite length_app in L. split.
  - rewrite D, P. lia.
  - unfold at_cursor in *. rewrite D, P.
    replace (pos p + length l1)%nat with (length l1 + pos p)%nat by lia.
    rewrite <- skipn_skipn, H, skipn_app, skipn_all, Nat.sub_diag. reflexivity.
Qed.

Lemma advanced_refl (p : parser) : advanced p 0 p.
Proof.
  split; [reflexivity | lia].
Qed.

Lemma advanced_trans (p p1 p2 : parser) (n m : nat) :
  advanced p n p1 -> advanced p1 m p2 -> advanced p (n + m) p2.
Proof.
  intros [D1 P1] [D2 P2]. split; [congruence | lia].
Qed.

Lemma advanced_eq (p p' : parser) (n m : nat) :
  advanced p n p' -> n = m -> advanced p m p'.
Proof.
  now intros H ->.
Qed.

Lemma at_text_advance1 (p : parser) (c : byte) (l : list byte) :
  at_text p (c :: l) -> exists p', advance 1 p = Ok tt p' /\ advanced p 1 p'.
Proof.
  intros H. rewrite advance_1. unfold advance1.
  rewrite (at_text_data_at p _ H). simpl.
  destruct (code c =? 10); eexists; (split; [reflexivity|]);
    split; simpl; try reflexivity; lia.
Qed.

Lemma at_text_advance (n : nat) :
  forall p l rest, at_text p (l ++ rest) -> length l = n ->
  exists p', advance n p = Ok tt p' /\ advanced p n p'.
Proof.
  induction n as [|n IH]; intros p l rest H Hl.
  - exists p. split; [reflexivity | apply advanced_refl].
  - destruct l as [|c l]; [discriminate|]. simpl in Hl.
    destruct (at_text_advance1 p c (l ++ rest) H) as [p1 [E1 A1]].
    pose proof (at_text_advanced p p1 [c] (l ++ rest) H A1) as H1.
    destruct (IH p1 l rest H1 ltac:(lia)) as [p2 [E2 A2]].
    exists p2. split.
    + cbn [advance]. rewrite advance_1 in E1.
      now rewrite (bind_of_Ok _ _ _ _ _ E1).
    + apply (advanced_trans p p1 p2 1 n A1 A2).
Qed.

Lemma skipWhitespace_stop (f : nat) (p : parser) (l : list byte) :
  at_text p l -> not_space (first_byte l) -> skipWhitespace (S f) p = Ok tt p.
Proof.
  intros H [c [Hc Hs]]. apply (skipWhitespace_none f p c); [|exact Hs].
  now rewrite (at_text_data_at p l H).
Qed.

Lemma isspace_nonzero (c : byte) : isspace c = true -> (code c =? 0) = false.
Proof.
  unfold isspace. intros H. apply Z.eqb_neq. intros E. rewrite E in H.
  discriminate H.
Qed.

Lemma skipWhitespace_text (w : list byte) :
  ws_text w = true ->
  forall p rest f,
    at_text p (w ++ rest) -> not_space (first_byte rest) ->
    (length w < f)%nat ->
    exists p', skipWhitespace f p = Ok tt p' /\ advanced p (length w) p'.
Proof.
  induction w as [|c w IH]; intros Hw p rest f H Hrest Hf.
  - destruct f as [|f]; [simpl in Hf; lia|].
    exists p. split; [|apply advanced_refl].
    now apply (skipWhitespace_stop f p rest).
  - destruct f as [|f]; [simpl in Hf; lia|]. simpl in Hw.
    apply andb_true_iff in Hw. destruct Hw as [Hc Hw].
    cbn [skipWhitespace].
    rewrite (bind_of_Ok _ _ _ _ _ (at_text_peek p c _ H)).
    rewrite Hc, (isspace_nonzero c Hc).
    change (negb false && true) with true. cbv iota.
    destruct (at_text_advance1 p c _ H) as [p1 [E1 A1]].
    rewrite (bind_of_Ok _ _ _ _ _ E1).
    pose proof (at_text_advanced p p1 [c] _ H A1) as H1.
    destruct (IH Hw p1 rest f H1 Hrest ltac:(simpl in Hf; lia)) as [p2 [E2 A2]].
    exists p2. split; [exact E2|].
    apply (advanced_trans p p1 p2 1 (length w) A1 A2).
Qed.

Lemma skipDigits_text (ds : list byte) :
  forallb is_digit ds = true ->
  forall p rest f,
    at_text p (ds ++ rest) ->
    (exists c, first_byte rest = Some c /\ is_digit c = false) ->
    (length ds < f)%nat ->
    exists p', skipDigits f p = Ok tt p' /\ advanced p (length ds) p'.
Proof.
  induction ds as [|c ds IH]; intros Hd p rest f H Hrest Hf.
  - destruct f as [|f]; [simpl in Hf; lia|].
    exists p. split; [|apply advanced_refl].
    destruct Hrest as [c [Hc Dc]]. cbn [skipDigits].
    rewrite (bind_of_Ok peek _ p c p)
      by (apply peek_Ok; split; [reflexivity|];
          now rewrite (at_text_data_at p _ H)).
    now rewrite Dc.
  - destruct f as [|f]; [simpl in Hf; lia|]. simpl in Hd.
    apply andb_true_iff in Hd. destruct Hd as [Hc Hd].
    cbn [skipDigits].
    rewrite (bind_of_Ok _ _ _ _ _ (at_text_peek p c _ H)). rewrite Hc.
    destruct (at_text_advance1 p c _ H) as [p1 [E1 A1]].
    rewrite (bind_of_Ok _ _ _ _ _ E1).
    pose proof (at_text_advanced p p1 [c] _ H A1) as H1.
    destruct (IH Hd p1 rest f H1 Hrest ltac:(simpl in Hf; lia)) as [p2 [E2 A2]].
    exists p2. split; [exact E2|].
    apply (advanced_trans p p1 p2 1 (length ds) A1 A2).
Qed.

(** ** Strings read back *)

Lemma escape_step {A : Type} (s : list byte) (e : byte) (k : list byte -> M A) :
  bind (if code e =? 92 then ret (s ++ [x5c])
        else if code e =? 34 then ret (s ++ [x22])
        else if code e =? 47 then ret (s ++ [x2f])
        else if code e =? 98 then ret (s ++ [x08])
        else if code e =? 102 then ret (s ++ [x0c])
        else if code e =? 110 then ret (s ++ [x0a])
        else if code e =? 114 then ret (s ++ [x0d])
        else if code e =? 116 then ret (s ++ [x09])
        else throwError (str "Invalid escape character in string")) k
  = match unescape e with
    | Some x => k (s ++ [x])
    | None => throwError (str "Invalid escape character in string")
    end.
Proof.
  unfold unescape.
  repeat match goal with
         | |- context [if ?c then _ else _] => destruct c
         end; reflexivity.
Qed.

Lemma escape_char_plain (cs : bool) (c : byte) :
  plain_char cs c = true ->
  (escape_char cs c = [c] /\ (code c =? 34) = false /\ (code c =? 92) = false)
  \/ (exists e, escape_char cs c = [x5c; e] /\ unescape e = Some c).
Proof.
  destruct cs; destruct c; intros H;
    first [ discriminate H
          | left; repeat split; reflexivity
          | right; eexists; split; reflexivity ].
Qed.

Lemma parseString_loop_text (cs : bool) (s : list byte) :
  plain_string cs s = true ->
  forall acc p rest f,
    at_text p (flat_map (escape_char cs) s ++ x22 :: rest) ->
    (length (flat_map (escape_char cs) s) < f)%nat ->
    exists p', parseString_loop f acc p = Ok (JString (acc ++ s)) p'
               /\ advanced p (length (flat_map (escape_char cs) s) + 1) p'.
Proof.
  induction s as [|c s IH]; intros Hs acc p rest f H Hf.
  - simpl in *. destruct f as [|f]; [lia|]. cbn [parseString_loop].
    rewrite (bind_of_Ok _ _ _ _ _ (at_text_peek p _ _ H)).
    change (negb (code x22 =? 34)) with false. cbv iota.
    destruct (at_text_advance1 p _ _ H) as [p1 [E1 A1]].
    rewrite (bind_of_Ok _ _ _ _ _ E1). rewrite app_nil_r.
    exists p1. split; [reflexivity | exact A1].
  - simpl in Hs. apply andb_true_iff in Hs. destruct Hs as [Hc Hs].
    cbn [flat_map] in *. rewrite <- app_assoc in H. rewrite length_app in *.
    destruct f as [|f]; [lia|].
    destruct (escape_char_plain cs c Hc) as [[E [Q B]]|[e [E U]]]; rewrite E in *.
    + cbn [parseString_loop].
      rewrite (bind_of_Ok _ _ _ _ _ (at_text_peek p _ _ H)).
      rewrite Q, B. cbn [negb].
      destruct (at_text_advance1 p _ _ H) as [p1 [E1 A1]].
      rewrite (bind_of_Ok _ _ _ _ _ E1).
      pose proof (at_text_advanced p p1 [c] _ H A1) as H1.
      destruct (IH Hs (acc ++ [c]) p1 rest f H1 ltac:(simpl in Hf; lia))
        as [p2 [E2 A2]].
      exists p2. split.
      * rewrite E2. now rewrite <- app_assoc.
      * apply (advanced_eq p p2 _ _ (advanced_trans p p1 p2 _ _ A1 A2)).
        simpl. lia.
    + cbn [parseString_loop].
      rewrite (bind_of_Ok _ _ _ _ _ (at_text_peek p _ _ H)).
      change (negb (code x5c =? 34)) with true.
      change (code x5c =? 92) with true. cbv iota.
      destruct (at_text_advance1 p _ _ H) as [p1 [E1 A1]].
      rewrite (bind_of_Ok _ _ _ _ _ E1).
      pose proof (at_text_advanced p p1 [x5c] _ H A1) as H1.
      rewrite (bind_of_Ok _ _ _ _ _ (at_text_peek p1 _ _ H1)).
      rewrite escape_step, U.
      destruct (at_text_advance1 p1 _ _ H1) as [p2 [E2 A2]].
      rewrite (bind_of_Ok _ _ _ _ _ E2).
      pose proof (at_text_advanced p1 p2 [e] _ H1 A2) as H2.
      destruct (IH Hs (acc ++ [c]) p2 rest f H2 ltac:(simpl in Hf; lia))
        as [p3 [E3 A3]].
      exists p3. split.
      * rewrite E3. now rewrite <- app_assoc.
      * apply (advanced_eq p p3 _ _
                 (advanced_trans p p1 p3 _ _ A1 (advanced_trans p1 p2 p3 _ _ A2 A3))).
        simpl. lia.
Qed.

Lemma parseString_text (cs : bool) (s : list byte) (p : parser) (rest : list byte)
    (f : nat) :
  plain_string cs s = true ->
  at_text p (quoted cs s ++ rest) ->
  (length (quoted cs s) < f)%nat ->
  exists p', parseString f p = Ok (JString s) p'
             /\ advanced p (length (quoted cs s)) p'.
Proof.
  intros Hs H Hf. unfold quoted in *. cbn [app] in H.
  rewrite <- app_assoc in H. cbn [app] in H.
  unfold parseString.
  destruct (at_text_advance1 p _ _ H) as [p1 [E1 A1]].
  rewrite (bind_of_Ok _ _ _ _ _ E1).
  pose proof (at_text_advanced p p1 [x22] _ H A1) as H1.
  cbn [length] in Hf. rewrite length_app in Hf. simpl in Hf.
  destruct (parseString_loop_text cs s Hs [] p1 rest f H1 ltac:(lia))
    as [p2 [E2 A2]].
  exists p2. split; [exact E2|].
  apply (advanced_eq p p2 _ _ (advanced_trans p p1 p2 _ _ A1 A2)).
  cbn [length]. rewrite length_app. simpl. lia.
Qed.

(** ** Numbers and literals read back *)

Lemma substring_text (p p' : parser) (t rest : list byte) :
  at_text p (t ++ rest) -> advanced p (length t) p' ->
  substring (pos p) p' = Ok t p'.
Proof.
  intros [_ H] [D P]. unfold substring. f_equal.
  rewrite D, P. unfold at_cursor in H. rewrite H.
  replace (pos p + length t - pos p)%nat with (length t) by lia.
  rewrite firstn_app, firstn_all, Nat.sub_diag. simpl. apply app_nil_r.
Qed.

Lemma is_digit_codes (c : byte) :
  is_digit c = true -> 48 <= code c <= 57.
Proof.
  unfold is_digit. intros H. apply andb_true_iff in H. destruct H as [H1 H2].
  apply Z.leb_le in H1. apply Z.leb_le in H2. lia.
Qed.

Lemma sign_step (neg : bool) (ds rest : list byte) (p : parser) :
  forallb is_digit ds = true -> ds <> [] ->
  at_text p ((if neg then [x2d] else []) ++ ds ++ rest) ->
  exists c p1,
    peek p = Ok c p
    /\ (if code c =? 45 then advance 1 else ret tt) p = Ok tt p1
    /\ advanced p (length (if neg then [x2d] else [])) p1.
Proof.
  intros Hd Hne H. destruct neg.
  - exists x2d. destruct (at_text_advance1 p _ _ H) as [p1 [E1 A1]].
    exists p1. split; [apply (at_text_peek p _ _ H)|]. split; assumption.
  - destruct ds as [|c ds]; [contradiction|].
    exists c, p. split; [apply (at_text_peek p _ _ H)|].
    simpl in Hd. apply andb_true_iff in Hd. destruct Hd as [Hc _].
    apply is_digit_codes in Hc.
    destruct (Z.eqb_spec (code c) 45); [lia|].
    split; [reflexivity | apply advanced_refl].
Qed.

Lemma parseNumber_int_text (neg : bool) (ds rest : list byte) (p : parser)
    (f : nat) (i : Z) :
  forallb is_digit ds = true -> ds <> [] ->
  at_text p (((if neg then [x2d] else []) ++ ds) ++ rest) ->
  ends_number (first_byte rest) ->
  (length ds < f)%nat ->
  stoi ((if neg then [x2d] else []) ++ ds) = Return i ->
  exists p', parseNumber f p = Ok (JInteger i) p'
             /\ advanced p (length ((if neg then [x2d] else []) ++ ds)) p'.
Proof.
  intros Hd Hne H [c2 [Hc2 [Dc2 Pc2]]] Hf Hi.
  pose proof H as H0. rewrite <- app_assoc in H.
  destruct (sign_step neg ds rest p Hd Hne H) as [c [p1 [Ec [E1 A1]]]].
  pose proof (at_text_advanced p p1 _ _ H A1) as H1.
  destruct (skipDigits_text ds Hd p1 rest f H1
              (ex_intro _ c2 (conj Hc2 Dc2)) Hf) as [p2 [E2 A2]].
  pose proof (at_text_advanced p1 p2 _ _ H1 A2) as H2.
  pose proof (advanced_trans p p1 p2 _ _ A1 A2) as A.
  rewrite <- length_app in A.
  exists p2. split; [|exact A].
  unfold parseNumber.
  rewrite (bind_of_Ok get_pos _ p (pos p) p) by reflexivity.
  rewrite (bind_of_Ok _ _ _ _ _ Ec), (bind_of_Ok _ _ _ _ _ E1),
    (bind_of_Ok _ _ _ _ _ E2).
  rewrite (bind_of_Ok peek _ p2 c2 p2)
    by (apply peek_Ok; split; [reflexivity|];
        now rewrite (at_text_data_at p2 _ H2)).
  destruct (Z.eqb_spec (code c2) 46); [contradiction|].
  rewrite (bind_of_Ok _ _ _ _ _ (substring_text p p2 _ rest H0 A)).
  rewrite Hi. reflexivity.
Qed.

Lemma take_drop_digits (r : list byte) :
  r = take_digits r ++ drop_digits r /\ forallb is_digit (take_digits r) = true.
Proof.
  induction r as [|c r [IH1 IH2]]; simpl; [auto|].
  destruct (is_digit c) eqn:E; simpl.
  - rewrite E, IH2. split; [now rewrite <- IH1 | reflexivity].
  - auto.
Qed.

Lemma decimal_text_shape (t : list byte) :
  decimal_text t = true ->
  exists (neg : bool) ip fp,
    t = ((if neg then [x2d] else []) ++ ip) ++ x2e :: fp
    /\ forallb is_digit ip = true /\ ip <> []
    /\ forallb is_digit fp = true /\ fp <> [].
Proof.
  unfold decimal_text. intros H.
  set (r := match t with
            | [] => t
            | c :: t' => if code c =? 45 then t' else t
            end) in *.
  assert (Ht : exists neg : bool, t = (if neg then [x2d] else []) ++ r).
  { destruct t as [|c t']; [now exists false|]. subst r.
    destruct (Z.eqb_spec (code c) 45) as [E|E].
    - exists true. simpl. f_equal.
      apply code_inj. now rewrite E.
    - now exists false. }
  destruct Ht as [neg Ht].
  destruct (take_drop_digits r) as [Hr Hip].
  destruct (take_digits r) as [|d ip] eqn:Eip; [discriminate H|].
  destruct (drop_digits r) as [|c fp] eqn:Efp; [discriminate H|].
  apply andb_true_iff in H. destruct H as [H Hfp].
  apply andb_true_iff in H. destruct H as [Hc Hlen].
  apply Z.eqb_eq in Hc.
  assert (c = x2e) by (apply code_inj; now rewrite Hc). subst c.
  exists neg, (d :: ip), fp. repeat split.
  - rewrite Ht, Hr. now rewrite <- app_assoc.
  - exact Hip.
  - discriminate.
  - exact Hfp.
  - intros ->. discriminate Hlen.
Qed.

Lemma parseNumber_decimal_text (t rest : list byte) (p : parser) (f : nat)
    (d : double) :
  decimal_text t = true ->
  at_text p (t ++ rest) ->
  (exists c, first_byte rest = Some c /\ is_digit c = false) ->
  (length t < f)%nat ->
  stod t = Return d ->
  exists p', parseNumber f p = Ok (JDouble d) p' /\ advanced p (length t) p'.
Proof.
  intros Ht H Hrest Hf Hd.
  destruct (decimal_text_shape t Ht) as [neg [ip [fp [E [Dip [Nip [Dfp Nfp]]]]]]].
  pose proof H as H0. rewrite E in H. rewrite <- !app_assoc in H.
  assert (Lt : length t
               = (length (if neg then [x2d] else []) + length ip + 1 + length fp)%nat).
  { rewrite E. rewrite !length_app. simpl. lia. }
  destruct (sign_step neg ip _ p Dip Nip H) as [c [p1 [Ec [E1 A1]]]].
  pose proof (at_text_advanced p p1 _ _ H A1) as H1.
  destruct (skipDigits_text ip Dip p1 _ f H1
              (ex_intro _ x2e (conj eq_refl eq_refl)) ltac:(lia)) as [p2 [E2 A2]].
  pose proof (at_text_advanced p1 p2 _ _ H1 A2) as H2.
  cbn [app] in H2.
  destruct (at_text_advance1 p2 _ _ H2) as [p3 [E3 A3]].
  pose proof (at_text_advanced p2 p3 [x2e] _ H2 A3) as H3.
  destruct (skipDigits_text fp Dfp p3 rest f H3 Hrest ltac:(lia)) as [p4 [E4 A4]].
  pose proof (advanced_trans p p1 p4 _ _ A1
                (advanced_trans p1 p2 p4 _ _ A2
                   (advanced_trans p2 p3 p4 _ _ A3 A4))) as A.
  assert (A' : advanced p (length t) p4) by (apply (advanced_eq _ _ _ _ A); lia).
  exists p4. split; [|exact A'].
  unfold parseNumber.
  rewrite (bind_of_Ok get_pos _ p (pos p) p) by reflexivity.
  rewrite (bind_of_Ok _ _ _ _ _ Ec), (bind_of_Ok _ _ _ _ _ E1),
    (bind_of_Ok _ _ _ _ _ E2).
  rewrite (bind_of_Ok _ _ _ _ _ (at_text_peek p2 _ _ H2)).
  change (code x2e =? 46) with true. cbv iota.
  rewrite (bind_of_Ok _ _ _ _ _ E3), (bind_of_Ok _ _ _ _ _ E4).
  rewrite (bind_of_Ok _ _ _ _ _ (substring_text p p4 _ rest H0 A')).
  rewrite Hd. reflexivity.
Qed.

(** The dispatch of [parseValue] on a text that begins with [c]. *)
Lemma parseValue_begin (f : nat) (p : parser) (c : byte) (l : list byte) :
  at_text p (c :: l) -> isspace c = false ->
  parseValue (S (S f)) p
  = (if code c =? 123 then parseObject (S f)
     else if code c =? 91 then parseArray (S f)
     else if code c =? 34 then parseString (S f)
     else if (code c =? 116) || (code c =? 102) then parseBoolean
     else if code c =? 110 then parseNull
     else if (code c =? 45) || is_digit c then parseNumber (S f)
     else throwError (str "Unexpected character in JSON")) p.
Proof.
  intros H Hc. cbn [parseValue].
  rewrite (bind_of_Ok _ _ _ _ _ (skipWhitespace_stop f p _ H
             (ex_intro _ c (conj eq_refl Hc)))).
  now rewrite (bind_of_Ok _ _ _ _ _ (at_text_peek p c l H)).
Qed.

Lemma parseValue_number (f : nat) (p : parser) (c : byte) (l : list byte) :
  at_text p (c :: l) -> code c = 45 \/ is_digit c = true ->
  parseValue (S (S f)) p = parseNumber (S f) p.
Proof.
  intros H Hc.
  assert (R : 48 <= code c <= 57 \/ code c = 45).
  { destruct Hc as [Hc|Hc]; [now right | left; now apply is_digit_codes]. }
  rewrite (parseValue_begin f p c l H).
  - destruct (Z.eqb_spec (code c) 123); [lia|].
    destruct (Z.eqb_spec (code c) 91); [lia|].
    destruct (Z.eqb_spec (code c) 34); [lia|].
    destruct (Z.eqb_spec (code c) 116); [lia|].
    destruct (Z.eqb_spec (code c) 102); [lia|].
    destruct (Z.eqb_spec (code c) 110); [lia|]. cbn [orb].
    destruct Hc as [Hc|Hc]; [rewrite Hc | rewrite Hc, orb_true_r]; reflexivity.
  - unfold isspace. apply orb_false_iff. split.
    + apply Z.eqb_neq. lia.
    + apply andb_false_iff. right. apply Z.leb_gt. lia.
Qed.

Lemma eventually_from (P : nat -> Prop) (f0 : nat) :
  (forall f, (f0 <= f)%nat -> P f) -> eventually P.
Proof.
  intros H. now exists f0.
Qed.

Lemma parses_null : parses (str "null") JNull.
Proof.
  intros p rest H _. apply (eventually_from _ 2). intros f Hf.
  destruct f as [|[|f]]; try lia.
  exists (moved p 4). split; [|split; reflexivity].
  rewrite (parseValue_begin f p x6e _ H eq_refl).
  change (parseNull p = Ok JNull (moved p 4)).
  rewrite parseNull_by_prefix by apply H.
  destruct H as [_ H]. rewrite H. reflexivity.
Qed.

Lemma parses_boolean (b : bool) :
  parses (if b then str "true" else str "false") (JBoolean b).
Proof.
  intros p rest H _. apply (eventually_from _ 2). intros f Hf.
  destruct f as [|[|f]]; try lia. destruct b.
  - exists (moved p 4). split; [|split; reflexivity].
    rewrite (parseValue_begin f p x74 _ H eq_refl).
    change (parseBoolean p = Ok (JBoolean true) (moved p 4)).
    rewrite parseBoolean_by_prefix by apply H.
    destruct H as [_ H]. rewrite H. reflexivity.
  - exists (moved p 5). split; [|split; reflexivity].
    rewrite (parseValue_begin f p x66 _ H eq_refl).
    change (parseBoolean p = Ok (JBoolean false) (moved p 5)).
    rewrite parseBoolean_by_prefix by apply H.
    destruct H as [_ H]. rewrite H. reflexivity.
Qed.

Lemma dec_of_int_shape (i : Z) :
  exists (neg : bool) ds,
    dec_of_int i = (if neg then [x2d] else []) ++ ds
    /\ forallb is_digit ds = true /\ ds <> [].
Proof.
  unfold dec_of_int. destruct (i <? 0).
  - exists true, (digits_of 10 (- i)).
    split; [reflexivity|]. split; [apply digits_of_digits | apply digits_of_nonempty].
  - exists false, (digits_of 10 i).
    split; [reflexivity|]. split; [apply digits_of_digits | apply digits_of_nonempty].
Qed.

Lemma signed_digits_head (neg : bool) (ds l : list byte) :
  forallb is_digit ds = true -> ds <> [] ->
  exists c l', ((if neg then [x2d] else []) ++ ds) ++ l = c :: l'
               /\ (code c = 45 \/ is_digit c = true).
Proof.
  intros Hd Hne. destruct neg.
  - exists x2d, (ds ++ l). split; [reflexivity | now left].
  - destruct ds as [|c ds]; [contradiction|].
    exists c, (ds ++ l). split; [reflexivity|]. right.
    simpl in Hd. now apply andb_true_iff in Hd.
Qed.

Lemma parses_integer (i : Z) :
  in_int_range i = true -> parses (dec_of_int i) (JInteger i).
Proof.
  intros Hi p rest H Hrest.
  destruct (dec_of_int_shape i) as [neg [ds [E [Hd Hne]]]].
  apply (eventually_from _ (S (S (length ds)))). intros f Hf.
  destruct f as [|[|f]]; try lia.
  pose proof (stoi_dec_of_int i Hi) as Hs. rewrite E in *.
  destruct (signed_digits_head neg ds rest Hd Hne) as [c [l' [Ec Hc]]].
  rewrite (parseValue_number f p c l'); [|rewrite <- Ec; exact H|exact Hc].
  apply (parseNumber_int_text neg ds rest p (S f) i); auto. lia.
Qed.

Lemma double_eqb_eq (x y : double) : double_eqb x y = true -> x = y.
Proof.
  destruct x as [s|s| |s m e], y as [s'|s'| |s' m' e']; simpl; try discriminate;
    try reflexivity.
  - intros H. apply Bool.eqb_prop in H. congruence.
  - intros H. apply Bool.eqb_prop in H. congruence.
  - intros H. apply andb_true_iff in H. destruct H as [H He].
    apply andb_true_iff in H. destruct H as [Hs Hm].
    apply Bool.eqb_prop in Hs. apply Pos.eqb_eq in Hm. apply Z.eqb_eq in He.
    congruence.
Qed.

Lemma parses_double (d : double) :
  double_survives d = true -> parses (format_double d) (JDouble d).
Proof.
  intros Hd p rest H [c2 [Hc2 [Dc2 _]]].
  unfold double_survives in Hd. apply andb_true_iff in Hd.
  destruct Hd as [Ht Hs].
  destruct (stod (format_double d)) as [d'| |] eqn:Es; try discriminate.
  apply double_eqb_eq in Hs. subst d'.
  apply (eventually_from _ (S (S (length (format_double d))))). intros f Hf.
  destruct f as [|[|f]]; try lia.
  destruct (decimal_text_shape _ Ht) as [neg [ip [fp [E [Dip [Nip _]]]]]].
  destruct (signed_digits_head neg ip (x2e :: fp ++ rest) Dip Nip)
    as [c [l' [Ec Hc]]].
  rewrite (parseValue_number f p c l').
  - apply (parseNumber_decimal_text _ rest p (S f) d); auto.
    + now exists c2.
    + lia.
  - rewrite <- Ec. rewrite E in H. now rewrite <- app_assoc in H.
  - exact Hc.
Qed.

Lemma parses_string (cs : bool) (s : list byte) :
  plain_string cs s = true -> parses (quoted cs s) (JString s).
Proof.
  intros Hs p rest H _.
  apply (eventually_from _ (S (S (length (quoted cs s))))). intros f Hf.
  destruct f as [|[|f]]; try lia.
  rewrite (parseValue_begin f p x22 (flat_map (escape_char cs) s ++ [x22] ++ rest))
    by (try reflexivity; unfold quoted in H; cbn [app] in H;
        now rewrite <- app_assoc in H).
  change (exists p', parseString (S f) p = Ok (JString s) p'
                     /\ advanced p (length (quoted cs s)) p').
  apply (parseString_text cs s p rest (S f) Hs H). lia.
Qed.

(** ** Arrays and objects read back *)

Lemma value_start_facts (c : byte) :
  value_start c = true ->
  isspace c = false /\ (code c =? 93) = false /\ (code c =? 125) = false
  /\ (code c =? 44) = false.
Proof.
  destruct c; intros H; try discriminate H; repeat split; reflexivity.
Qed.

Lemma isspace_ends_number (c : byte) :
  isspace c = true -> is_digit c = false /\ code c <> 46.
Proof.
  destruct c; intros H; try discriminate H; split; try reflexivity; discriminate.
Qed.

Lemma ws_head_ends_number (w next : list byte) (c : byte) :
  ws_text w = true -> first_byte next = Some c ->
  is_digit c = false -> code c <> 46 ->
  ends_number (first_byte (w ++ next)).
Proof.
  intros Hw Hn Dc Pc. destruct w as [|x w]; simpl.
  - exists c. auto.
  - simpl in Hw. apply andb_true_iff in Hw. destruct Hw as [Hx _].
    exists x. split; [reflexivity|]. now apply isspace_ends_number.
Qed.

Lemma first_byte_app (l next : list byte) :
  l <> [] -> first_byte (l ++ next) = first_byte l.
Proof.
  destruct l; [contradiction | reflexivity].
Qed.

(** After the last element: white space, then a byte that is no comma. *)
Lemma after_last_element (w next : list byte) (c : byte) (p : parser) (f : nat) :
  ws_text w = true ->
  at_text p (w ++ next) ->
  first_byte next = Some c -> isspace c = false -> (code c =? 44) = false ->
  (length w < f)%nat ->
  exists p', after_element f p = Ok tt p' /\ advanced p (length w) p'.
Proof.
  intros Hw H Hn Sc Cc Hf.
  destruct (skipWhitespace_text w Hw p next f H
              (ex_intro _ c (conj Hn Sc)) Hf) as [p1 [E1 A1]].
  pose proof (at_text_advanced p p1 _ _ H A1) as H1.
  exists p1. split; [|exact A1]. unfold after_element.
  rewrite (bind_of_Ok _ _ _ _ _ E1).
  rewrite (bind_of_Ok peek _ p1 c p1)
    by (apply peek_Ok; split; [reflexivity|];
        now rewrite (at_text_data_at p1 _ H1)).
  now rewrite Cc.
Qed.

(** After an element that is not the last: a comma, white space, then a byte
    that is no white space. *)
Lemma after_inner_element (w next : list byte) (p : parser) (f : nat) :
  ws_text w = true ->
  at_text p (x2c :: w ++ next) ->
  not_space (first_byte next) ->
  (length w < f)%nat ->
  exists p', after_element f p = Ok tt p' /\ advanced p (S (length w)) p'.
Proof.
  intros Hw H Hn Hf. destruct f as [|f]; [lia|].
  unfold after_element.
  rewrite (bind_of_Ok _ _ _ _ _ (skipWhitespace_stop f p _ H
             (ex_intro _ x2c (conj eq_refl eq_refl)))).
  rewrite (bind_of_Ok _ _ _ _ _ (at_text_peek p _ _ H)).
  change (code x2c =? 44) with true. cbv iota.
  destruct (at_text_advance1 p _ _ H) as [p1 [E1 A1]].
  rewrite (bind_of_Ok _ _ _ _ _ E1).
  pose proof (at_text_advanced p p1 [x2c] _ H A1) as H1.
  destruct (skipWhitespace_text w Hw p1 next (S f) H1 Hn Hf) as [p2 [E2 A2]].
  exists p2. split; [exact E2|].
  apply (advanced_trans p p1 p2 1 (length w) A1 A2).
Qed.

(** A result that is no [OutOfFuel] stays with more fuel. *)
Lemma raise_fuel {A : Type} (r r' : presult A) (a : A) (p : parser) :
  refines r r' -> r = Ok a p -> r' = Ok a p.
Proof.
  intros [E|E] H; congruence.
Qed.

Lemma after_element_mono (f f' : nat) :
  (f <= f')%nat -> forall p, refines (after_element f p) (after_element f' p).
Proof.
  intros Hf p. pose proof (skipWhitespace_mono f) as HW.
  unfold after_element. refines_tac.
Qed.

(** One turn of the loop of [parseArray]. *)
Lemma parseArray_loop_turn (f : nat) (arr : list JSON) (p p1 p2 : parser)
    (c : byte) (v : JSON) :
  peek p = Ok c p -> (code c =? 93) = false ->
  parseValue f p = Ok v p1 ->
  after_element f p1 = Ok tt p2 ->
  parseArray_loop (S f) arr p = parseArray_loop f (arr ++ [v]) p2.
Proof.
  intros Ep Hc Ev Ea. cbn [parseArray_loop].
  rewrite (bind_of_Ok _ _ _ _ _ Ep), Hc. cbn [negb].
  rewrite (bind_of_Ok _ _ _ _ _ Ev).
  unfold after_element in Ea.
  apply bind_Ok in Ea. destruct Ea as [[] [q1 [E1 Ea]]].
  apply bind_Ok in Ea. destruct Ea as [c' [q2 [E2 E3]]].
  rewrite (bind_of_Ok _ _ _ _ _ E1), (bind_of_Ok _ _ _ _ _ E2).
  now rewrite (bind_of_Ok _ _ _ _ _ E3).
Qed.

(** One turn of the loop of [parseObject]. *)
Lemma parseObject_loop_turn (f : nat) (obj : map_t) (p p1 p2 p3 p4 : parser)
    (c : byte) (key : list byte) (v : JSON) :
  peek p = Ok c p -> (code c =? 125) = false ->
  parseString f p = Ok (JString key) p1 ->
  skipWhitespace f p1 = Ok tt p1 ->
  peek p1 = Ok x3a p1 ->
  advance 1 p1 = Ok tt p2 ->
  parseValue f p2 = Ok v p3 ->
  after_element f p3 = Ok tt p4 ->
  parseObject_loop (S f) obj p = parseObject_loop f (map_set key v obj) p4.
Proof.
  intros Ep Hc Es Ew Ec Ead Ev Ea. cbn [parseObject_loop].
  rewrite (bind_of_Ok _ _ _ _ _ Ep), Hc. cbn [negb].
  rewrite (bind_of_Ok _ _ _ _ _ Es).
  rewrite (bind_of_Ok (lift (JSONTypeTraits_string_get (JString key))) _ p1 key p1)
    by reflexivity.
  rewrite (bind_of_Ok _ _ _ _ _ Ew), (bind_of_Ok _ _ _ _ _ Ec).
  change (negb (code x3a =? 58)) with false. cbv iota.
  rewrite (bind_of_Ok (ret tt) _ p1 tt p1) by reflexivity.
  rewrite (bind_of_Ok _ _ _ _ _ Ead), (bind_of_Ok _ _ _ _ _ Ev).
  unfold after_element in Ea.
  apply bind_Ok in Ea. destruct Ea as [[] [q1 [E1 Ea]]].
  apply bind_Ok in Ea. destruct Ea as [c' [q2 [E2 E3]]].
  rewrite (bind_of_Ok _ _ _ _ _ E1), (bind_of_Ok _ _ _ _ _ E2).
  now rewrite (bind_of_Ok _ _ _ _ _ E3).
Qed.

Lemma render_items_cons {A : Type} (item : A -> list byte) (mid last : list byte)
    (x : A) (rest : list A) :
  render_items item mid last (x :: rest)
  = item x ++ match rest with
              | [] => last
              | _ => mid ++ render_items item mid last rest
              end.
Proof.
  destruct rest; reflexivity.
Qed.

Lemma render_items_begins {A : Type} (item : A -> list byte) (mid last : list byte)
    (x : A) (rest : list A) (next : list byte) :
  begins_value (item x) ->
  exists c l, render_items item mid last (x :: rest) ++ next = c :: l
              /\ value_start c = true.
Proof.
  intros [c [l [E Hc]]]. rewrite render_items_cons, E. exists c. eexists.
  split; [reflexivity | exact Hc].
Qed.

(** A value after white space is read by [parseValue] like the value alone. *)
Lemma parses_after_space (w t : list byte) (v : JSON) :
  ws_text w = true -> parses t v -> begins_value t ->
  forall p rest,
    at_text p (w ++ t ++ rest) -> ends_number (first_byte rest) ->
    returns parseValue p v (length w + length t).
Proof.
  intros Hw Ht [c [l [Et Hc]]] p rest H Hrest.
  destruct (value_start_facts c Hc) as [Sc _].
  assert (Hn : not_space (first_byte (t ++ rest))).
  { rewrite Et. exists c. auto. }
  destruct (skipWhitespace_text w Hw p (t ++ rest) (S (length w)) H Hn
              ltac:(lia)) as [p1 [E1 A1]].
  pose proof (at_text_advanced p p1 _ _ H A1) as H1.
  destruct (Ht p1 rest H1 Hrest) as [f0 Hf0].
  destruct (Hf0 (S (S (f0 + length w))) ltac:(lia)) as [p2 [E2 A2]].
  exists (S (S (f0 + length w))), p2. split.
  - cbn [parseValue] in *.
    rewrite (bind_of_Ok _ _ _ _ _ (skipWhitespace_stop _ p1 _ H1 Hn)) in E2.
    now rewrite (bind_of_Ok _ _ _ _ _
                   (raise_fuel _ _ _ _
                      (skipWhitespace_mono (S (length w)) (S (f0 + length w))
                         ltac:(lia) p) E1)).
  - apply (advanced_trans p p1 p2 _ _ A1 A2).
Qed.

Section Loops.

Variable w w' : list byte.
Hypothesis Hw : ws_text w = true.
Hypothesis Hw' : ws_text w' = true.

(** The loop of [parseArray] over the elements as the serializer writes
    them: a comma and the white space [w] between two elements, the white
    space [w'] after the last one. *)
Lemma parseArray_loop_text (item : JSON -> list byte) (items : list JSON) :
  Forall (fun x => parses (item x) x /\ begins_value (item x)) items ->
  forall arr p rest,
    at_text p (render_items item (x2c :: w) w' items ++ x5d :: rest) ->
    returns (fun f => parseArray_loop f arr) p (JArray (arr ++ items))
      (length (render_items item (x2c :: w) w' items) + 1).
Proof.
  induction 1 as [|x r [Hx Bx] Hr IH]; intros arr p rest H.
  - exists 1%nat, (moved p 1). split; [|split; reflexivity].
    rewrite app_nil_r. apply (parseArray_loop_close 0 arr p rest). apply H.
  - rewrite render_items_cons in *. rewrite <- app_assoc in H.
    destruct Bx as [c [l [Ec Hc]]].
    destruct (value_start_facts c Hc) as [Sc [Cb [_ _]]].
    assert (Ep : peek p = Ok c p).
    { rewrite Ec in H. apply (at_text_peek p c _ H). }
    destruct r as [|y r'].
    + (* the last element *)
      destruct (Hx p (w' ++ x5d :: rest) H
                  (ws_head_ends_number w' (x5d :: rest) x5d Hw' eq_refl eq_refl
                     ltac:(discriminate))) as [f1 Hf1].
      destruct (Hf1 f1 (le_n _)) as [p1 [E1 A1]].
      pose proof (at_text_advanced p p1 _ _ H A1) as H1.
      destruct (after_last_element w' (x5d :: rest) x5d p1 (S (length w')) Hw' H1
                  eq_refl eq_refl eq_refl ltac:(lia)) as [p2 [E2 A2]].
      pose proof (at_text_advanced p1 p2 _ _ H1 A2) as H2.
      remember (max f1 (S (length w'))) as F eqn:EF.
      exists (S (S F)), (moved p2 1). split.
      * rewrite (parseArray_loop_turn (S F) arr p p1 p2 c x Ep Cb
                   (raise_fuel _ _ _ _
                      (proj1 (productions_mono f1 (S F) ltac:(lia)) p) E1)
                   (raise_fuel _ _ _ _
                      (after_element_mono (S (length w')) (S F) ltac:(lia) p1) E2)).
        apply (parseArray_loop_close _ (arr ++ [x]) p2 rest). apply H2.
      * apply (advanced_eq p (moved p2 1) _ _
                 (advanced_trans p p1 _ _ _ A1
                    (advanced_trans p1 p2 _ _ _ A2
                       (conj eq_refl eq_refl : advanced p2 1 (moved p2 1))))).
        rewrite !length_app. lia.
    + (* an element followed by a comma *)
      rewrite <- app_assoc in H. cbn [app] in H.
      inversion Hr as [|y' r'' [Hy By] Hr']; subst.
      destruct (render_items_begins item (x2c :: w) w' y r' (x5d :: rest) By)
        as [cy [ly [Ey Hcy]]].
      destruct (value_start_facts cy Hcy) as [Scy _].
      assert (En : ends_number
                     (first_byte (x2c :: w ++ render_items item (x2c :: w) w' (y :: r')
                                    ++ x5d :: rest))).
      { exists x2c. repeat split. discriminate. }
      destruct (Hx p _ H En) as [f1 Hf1].
      destruct (Hf1 f1 (le_n _)) as [p1 [E1 A1]].
      pose proof (at_text_advanced p p1 _ _ H A1) as H1.
      destruct (after_inner_element w _ p1 (S (length w)) Hw H1
                  ltac:(rewrite Ey; exists cy; auto) ltac:(lia))
        as [p2 [E2 A2]].
      pose proof (at_text_advanced p1 p2 (x2c :: w) _ H1 A2) as H2.
      destruct (IH (arr ++ [x]) p2 rest H2) as [f3 [p3 [E3 A3]]].
      remember (max f1 (max (S (length w)) f3)) as F eqn:EF.
      exists (S F), p3. split.
      * rewrite (parseArray_loop_turn F arr p p1 p2 c x Ep Cb
                   (raise_fuel _ _ _ _
                      (proj1 (productions_mono f1 F ltac:(lia)) p) E1)
                   (raise_fuel _ _ _ _
                      (after_element_mono (S (length w)) F ltac:(lia) p1) E2)).
        rewrite <- app_assoc in E3.
        apply (raise_fuel _ _ _ _
                 (proj2 (proj2 (proj2 (proj2 (productions_mono f3 F ltac:(lia)))))
                    (arr ++ [x]) p2) E3).
      * apply (advanced_eq p p3 _ _
                 (advanced_trans p p1 _ _ _ A1
                    (advanced_trans p1 p2 _ _ _ A2 A3))).
        rewrite !length_app. cbn [length]. lia.
Qed.

End Loops.

Lemma render_items_split {A : Type} (item : A -> list byte) (mid last : list byte)
    (x : A) (rest : list A) :
  render_items item mid last (x :: rest)
  = item x ++ separator mid last rest ++ render_items item mid last rest.
Proof.
  destruct rest; [|reflexivity]. simpl. now rewrite app_nil_r.
Qed.

Section ObjectLoop.

Variable w w' wv : list byte.
Hypothesis Hw : ws_text w = true.
Hypothesis Hw' : ws_text w' = true.
Hypothesis Hwv : ws_text wv = true.
Variable cs : bool.
Variable text : JSON -> list byte.

Lemma separator_ends_number (r : list (list byte * JSON)) (rest : list byte) :
  ends_number (first_byte (separator (x2c :: w) w' r
             ++ render_items (member_text cs wv text) (x2c :: w) w' r
             ++ x7d :: rest)).
Proof.
  destruct r as [|[k v] r]; cbn [separator].
  - cbn [render_items app].
    apply (ws_head_ends_number w' (x7d :: rest) x7d Hw' eq_refl eq_refl).
    discriminate.
  - exists x2c. repeat split. discriminate.
Qed.

(** What follows a member is passed by [after_element]. *)
Lemma after_member (r : list (list byte * JSON)) (rest : list byte) (p : parser) :
  at_text p (separator (x2c :: w) w' r
             ++ render_items (member_text cs wv text) (x2c :: w) w' r
             ++ x7d :: rest) ->
  exists p', after_element (S (length w + length w')) p = Ok tt p'
             /\ advanced p (length (separator (x2c :: w) w' r)) p'.
Proof.
  destruct r as [|[k v] r]; cbn [separator]; intros H.
  - cbn [render_items app] in *.
    apply (after_last_element w' (x7d :: rest) x7d p _ Hw' H eq_refl eq_refl
             eq_refl). lia.
  - apply (after_inner_element w _ p _ Hw H); [|lia].
    rewrite render_items_split. unfold member_text at 1, quoted.
    exists x22. split; reflexivity.
Qed.

(** The loop of [parseObject] over the members as the serializer writes
    them. *)
Lemma parseObject_loop_text (members : list (list byte * JSON)) :
  Forall (fun kv => plain_string cs (fst kv) = true
                    /\ parses (text (snd kv)) (snd kv)
                    /\ begins_value (text (snd kv))) members ->
  forall obj p rest,
    at_text p (render_items (member_text cs wv text) (x2c :: w) w' members
               ++ x7d :: rest) ->
    returns (fun f => parseObject_loop f obj) p (JObject (insert_all members obj))
      (length (render_items (member_text cs wv text) (x2c :: w) w' members) + 1).
Proof.
  induction 1 as [|[k v] r [Hk [Hv Bv]] Hr IH]; intros obj p rest H.
  - exists 1%nat, (moved p 1). split; [|split; reflexivity].
    apply (parseObject_loop_close 0 obj p rest). apply H.
  - cbn [fst snd] in *.
    rewrite render_items_split in *.
    set (tail := separator (x2c :: w) w' r
                 ++ render_items (member_text cs wv text) (x2c :: w) w' r
                 ++ x7d :: rest) in *.
    assert (H0 : at_text p (quoted cs k ++ x3a :: wv ++ text v ++ tail)).
    { unfold member_text in H. cbn [fst snd] in H.
      rewrite <- !app_assoc in H. cbn [app] in H.
      rewrite <- !app_assoc in H. exact H. }
    clear H.
    assert (Ep : peek p = Ok x22 p) by (apply (at_text_peek p x22 _ H0)).
    destruct (parseString_text cs k p _ (S (length (quoted cs k))) Hk H0
                ltac:(lia)) as [p1 [E1 A1]].
    pose proof (at_text_advanced p p1 _ _ H0 A1) as H1.
    destruct (at_text_advance1 p1 _ _ H1) as [p2 [E2 A2]].
    pose proof (at_text_advanced p1 p2 [x3a] _ H1 A2) as H2.
    destruct (parses_after_space wv (text v) v Hwv Hv Bv p2 tail H2
                (separator_ends_number r rest)) as [f3 [p3 [E3 A3]]].
    rewrite app_assoc in H2. rewrite <- length_app in A3.
    pose proof (at_text_advanced p2 p3 _ _ H2 A3) as H3.
    destruct (after_member r rest p3 H3) as [p4 [E4 A4]].
    pose proof (at_text_advanced p3 p4 _ _ H3 A4) as H4.
    destruct (IH (map_set k v obj) p4 rest H4) as [f5 [p5 [E5 A5]]].
    remember (max (length (quoted cs k))
                (max f3 (max (S (length w + length w')) f5))) as F eqn:EF.
    exists (S (S F)), p5. split.
    + rewrite (parseObject_loop_turn (S F) obj p p1 p2 p3 p4 x22 k v Ep eq_refl
                 (raise_fuel _ _ _ _
                    (parseString_mono (S (length (quoted cs k))) (S F)
                       ltac:(lia) p) E1)
                 (skipWhitespace_stop F p1 _ H1
                    (ex_intro _ x3a (conj eq_refl eq_refl)))
                 (at_text_peek p1 x3a _ H1) E2
                 (raise_fuel _ _ _ _
                    (proj1 (productions_mono f3 (S F) ltac:(lia)) p2) E3)
                 (raise_fuel _ _ _ _
                    (after_element_mono (S (length w + length w')) (S F)
                       ltac:(lia) p3) E4)).
      apply (raise_fuel _ _ _ _
               (proj1 (proj2 (proj2 (productions_mono f5 (S F) ltac:(lia))))
                  (map_set k v obj) p4) E5).
    + apply (advanced_eq p p5 _ _
               (advanced_trans p p1 _ _ _ A1
                  (advanced_trans p1 p2 _ _ _ A2
                     (advanced_trans p2 p3 _ _ _ A3
                        (advanced_trans p3 p4 _ _ _ A4 A5))))).
      unfold member_text. cbn [fst snd].
      rewrite !length_app. cbn [length]. rewrite !length_app. lia.
Qed.

End ObjectLoop.

(** ** The text of a value reads back as the value *)

Lemma returns_reads (t : list byte) (v : JSON) (p : parser) :
  returns parseValue p v (length t) -> reads parseValue t v p.
Proof.
  intros [f [p' [E A]]]. exists f. intros f' Hf. exists p'. split; [|exact A].
  apply (raise_fuel _ _ _ _ (proj1 (productions_mono f f' Hf) p) E).
Qed.

Lemma ws_spaces (n : Z) : ws_text (spaces n) = true.
Proof.
  unfold spaces. induction (Z.to_nat n) as [|k IH]; [reflexivity | exact IH].
Qed.

Lemma ws_newline_spaces (n : Z) : ws_text (x0a :: spaces n) = true.
Proof.
  exact (ws_spaces n).
Qed.

Lemma parses_array (w0 w w' : list byte) (item : JSON -> list byte)
    (items : list JSON) :
  ws_text w0 = true -> ws_text w = true -> ws_text w' = true ->
  Forall (fun x => parses (item x) x /\ begins_value (item x)) items ->
  parses (x5b :: w0 ++ render_items item (x2c :: w) w' items ++ [x5d])
    (JArray items).
Proof.
  intros H0 Hw Hw' Hall p rest H _. apply returns_reads.
  cbn [app] in H. rewrite <- !app_assoc in H. cbn [app] in H.
  destruct (at_text_advance1 p _ _ H) as [p1 [E1 A1]].
  pose proof (at_text_advanced p p1 [x5b] _ H A1) as H1.
  assert (Hn : not_space (first_byte (render_items item (x2c :: w) w' items
                                        ++ x5d :: rest))).
  { destruct Hall as [|x r [_ Bx] _].
    - exists x5d. split; reflexivity.
    - destruct (render_items_begins item (x2c :: w) w' x r (x5d :: rest) Bx)
        as [c [l [E Hc]]].
      rewrite E. exists c. split; [reflexivity|].
      apply (value_start_facts c Hc). }
  destruct (skipWhitespace_text w0 H0 p1 _ (S (length w0)) H1 Hn ltac:(lia))
    as [p2 [E2 A2]].
  pose proof (at_text_advanced p1 p2 _ _ H1 A2) as H2.
  destruct (parseArray_loop_text w w' Hw Hw' item items Hall [] p2 rest H2)
    as [f3 [p3 [E3 A3]]].
  remember (max (S (length w0)) f3) as F eqn:EF.
  exists (S (S (S F))), p3. split.
  - rewrite (parseValue_begin (S F) p x5b _ H eq_refl).
    change (parseArray (S (S F)) p = Ok (JArray items) p3).
    cbn [parseArray].
    rewrite (bind_of_Ok _ _ _ _ _ E1).
    rewrite (bind_of_Ok _ _ _ _ _
               (raise_fuel _ _ _ _
                  (skipWhitespace_mono (S (length w0)) (S F) ltac:(lia) p1) E2)).
    apply (raise_fuel _ _ _ _
             (proj2 (proj2 (proj2 (proj2 (productions_mono f3 (S F) ltac:(lia)))))
                [] p2) E3).
  - apply (advanced_eq p p3 _ _
             (advanced_trans p p1 _ _ _ A1 (advanced_trans p1 p2 _ _ _ A2 A3))).
    cbn [length]. rewrite !length_app. cbn [length]. lia.
Qed.

Lemma parses_object (w0 w w' wv : list byte) (cs : bool)
    (text : JSON -> list byte) (members : list (list byte * JSON)) :
  ws_text w0 = true -> ws_text w = true -> ws_text w' = true ->
  ws_text wv = true ->
  Forall (fun kv => plain_string cs (fst kv) = true
                    /\ parses (text (snd kv)) (snd kv)
                    /\ begins_value (text (snd kv))) members ->
  parses (x7b :: w0 ++ render_items (member_text cs wv text) (x2c :: w) w' members
            ++ [x7d])
    (JObject (insert_all members [])).
Proof.
  intros H0 Hw Hw' Hwv Hall p rest H _. apply returns_reads.
  cbn [app] in H. rewrite <- !app_assoc in H. cbn [app] in H.
  destruct (at_text_advance1 p _ _ H) as [p1 [E1 A1]].
  pose proof (at_text_advanced p p1 [x7b] _ H A1) as H1.
  assert (Hn : not_space (first_byte
                 (render_items (member_text cs wv text) (x2c :: w) w' members
                    ++ x7d :: rest))).
  { destruct members as [|kv r].
    - exists x7d. split; reflexivity.
    - rewrite render_items_split. unfold member_text at 1, quoted.
      exists x22. split; reflexivity. }
  destruct (skipWhitespace_text w0 H0 p1 _ (S (length w0)) H1 Hn ltac:(lia))
    as [p2 [E2 A2]].
  pose proof (at_text_advanced p1 p2 _ _ H1 A2) as H2.
  destruct (parseObject_loop_text w w' wv Hw Hw' Hwv cs text members Hall [] p2
              rest H2) as [f3 [p3 [E3 A3]]].
  remember (max (S (length w0)) f3) as F eqn:EF.
  exists (S (S (S F))), p3. split.
  - rewrite (parseValue_begin (S F) p x7b _ H eq_refl).
    change (parseObject (S (S F)) p = Ok (JObject (insert_all members [])) p3).
    cbn [parseObject].
    rewrite (bind_of_Ok _ _ _ _ _ E1).
    rewrite (bind_of_Ok _ _ _ _ _
               (raise_fuel _ _ _ _
                  (skipWhitespace_mono (S (length w0)) (S F) ltac:(lia) p1) E2)).
    apply (raise_fuel _ _ _ _
             (proj1 (proj2 (proj2 (productions_mono f3 (S F) ltac:(lia))))
                [] p2) E3).
  - apply (advanced_eq p p3 _ _
             (advanced_trans p p1 _ _ _ A1 (advanced_trans p1 p2 _ _ _ A2 A3))).
    cbn [length]. rewrite !length_app. cbn [length]. lia.
Qed.

(** *** A map in key order is rebuilt by inserting its members in order *)

Lemma map_set_last (k : list byte) (v : JSON) (acc : map_t) :
  Forall (fun kv => string_compare (fst kv) k = Lt) acc ->
  map_set k v acc = acc ++ [(k, v)].
Proof.
  induction 1 as [|[k' v'] acc Hk _ IH]; [reflexivity|].
  cbn [fst] in Hk. cbn [map_set app].
  rewrite (string_compare_antisym k' k), Hk. cbn [CompOpp]. now rewrite IH.
Qed.

Lemma map_sorted_above (k : list byte) (m : map_t) :
  keys_above k m -> map_sorted m ->
  Forall (fun kv => string_compare k (fst kv) = Lt) m.
Proof.
  revert k. induction m as [|[k' v'] m IH]; intros k Hk Hm; constructor.
  - exact Hk.
  - destruct Hm as [Hk' Hm]. specialize (IH k' Hk' Hm).
    eapply Forall_impl; [|exact IH]. intros kv H.
    apply (string_compare_trans_lt k k' (fst kv) Hk H).
Qed.

Lemma insert_all_sorted (o : map_t) :
  map_sorted o ->
  forall acc,
    Forall (fun kv => Forall (fun a => string_compare (fst a) (fst kv) = Lt) acc) o ->
    insert_all o acc = acc ++ o.
Proof.
  induction o as [|[k v] o IH]; intros Hs acc Hacc.
  - now rewrite app_nil_r.
  - destruct Hs as [Hk Hs]. inversion Hacc as [|? ? Hkv Ho]; subst.
    cbn [fst] in Hkv.
    change (insert_all ((k, v) :: o) acc) with (insert_all o (map_set k v acc)).
    rewrite (map_set_last k v acc Hkv).
    rewrite (IH Hs (acc ++ [(k, v)])).
    + now rewrite <- app_assoc.
    + pose proof (map_sorted_above k o Hk Hs) as Hab.
      rewrite Forall_forall in *. intros kv Hin.
      apply Forall_app. split.
      * apply (Ho kv Hin).
      * constructor; [|constructor]. apply (Hab kv Hin).
Qed.

Lemma insert_all_map (o : map_t) : map_sorted o -> insert_all o [] = o.
Proof.
  intros Hs. apply (insert_all_sorted o Hs []).
  apply Forall_forall. intros kv _. constructor.
Qed.

(** *** The values of the round trip *)

Lemma round_trips_array (cs : bool) (a : list JSON) :
  round_trips cs (JArray a) <-> Forall (round_trips cs) a.
Proof.
  cbn [round_trips]. induction a as [|x a IH].
  - split; [constructor | trivial].
  - split.
    + intros [Hx Ha]. constructor; [exact Hx | now apply IH].
    + intros H. inversion H; subst. split; [assumption | now apply IH].
Qed.

Lemma round_trips_object (cs : bool) (o : map_t) :
  round_trips cs (JObject o) <->
  map_sorted o /\
  Forall (fun kv => plain_string cs (fst kv) = true /\ round_trips cs (snd kv)) o.
Proof.
  cbn [round_trips]. apply and_iff_compat_l. induction o as [|[k x] o IH].
  - split; [constructor | trivial].
  - split.
    + intros [Hk [Hx Ho]]. constructor; [split; assumption | now apply IH].
    + intros H. inversion H as [|? ? [Hk Hx] Ho]; subst.
      split; [exact Hk|]. split; [exact Hx | now apply IH].
Qed.

Lemma signed_digits_begin (neg : bool) (ds l : list byte) :
  forallb is_digit ds = true -> ds <> [] ->
  begins_value (((if neg then [x2d] else []) ++ ds) ++ l).
Proof.
  intros Hd Hne.
  destruct (signed_digits_head neg ds l Hd Hne) as [c [l' [E Hc]]].
  exists c, l'. split; [exact E|]. unfold value_start.
  destruct Hc as [Hc|Hc].
  - cbn [existsb]. rewrite Hc. cbn. apply orb_true_r.
  - now rewrite Hc.
Qed.

Lemma render_parses (cs : bool) (indent : Z) (v : JSON) :
  round_trips cs v ->
  forall level,
    parses (render cs indent level v) v
    /\ begins_value (render cs indent level v).
Proof.
  induction v as [|b|i|d|s|a IH|o IH] using JSON_nested_ind; intros Hv level.
  - split; [apply parses_null|]. exists x6e. eexists. split; reflexivity.
  - split; [apply parses_boolean|].
    destruct b; [exists x74 | exists x66]; eexists; split; reflexivity.
  - split; [now apply parses_integer|]. cbn [render].
    destruct (dec_of_int_shape i) as [neg [ds [E [Hd Hne]]]].
    rewrite E, <- (app_nil_r (_ ++ ds)). now apply signed_digits_begin.
  - split; [now apply parses_double|]. cbn [render].
    cbn [round_trips] in Hv. unfold double_survives in Hv.
    apply andb_true_iff in Hv. destruct Hv as [Ht _].
    destruct (decimal_text_shape _ Ht) as [neg [ip [fp [E [Dip [Nip _]]]]]].
    rewrite E. now apply signed_digits_begin.
  - split; [now apply parses_string|]. exists x22. eexists. split; reflexivity.
  - apply round_trips_array in Hv.
    assert (Hall : forall lv, Forall (fun x => parses (render cs indent lv x) x
                                  /\ begins_value (render cs indent lv x)) a).
    { intros lv. rewrite Forall_forall in *. intros x Hin.
      apply (IH x Hin (Hv x Hin)). }
    cbn [render]. destruct (existsb is_complex a && (0 <? indent)).
    + split; [|exists x5b; eexists; split; reflexivity].
      apply (parses_array (x0a :: spaces (level + indent))
               (x0a :: spaces (level + indent)) (x0a :: spaces level)
               (render cs indent (level + indent)) a
               (ws_newline_spaces _) (ws_newline_spaces _) (ws_newline_spaces _)
               (Hall _)).
    + split; [|exists x5b; eexists; split; reflexivity].
      apply (parses_array [] [x20] [] (render cs indent (level + indent)) a
               eq_refl eq_refl eq_refl (Hall _)).
  - apply round_trips_object in Hv. destruct Hv as [Hs Hv].
    assert (Hall : forall lv, Forall (fun kv => plain_string cs (fst kv) = true
                    /\ parses (render cs indent lv (snd kv)) (snd kv)
                    /\ begins_value (render cs indent lv (snd kv))) o).
    { intros lv. rewrite Forall_forall in *. intros kv Hin.
      destruct (Hv kv Hin) as [Hk Hx]. split; [exact Hk|].
      apply (IH kv Hin Hx). }
    cbn [render]. destruct (0 <? indent).
    + split; [|exists x7b; eexists; split; reflexivity].
      rewrite <- (insert_all_map o Hs) at 2.
      destruct o as [|kv o].
      * apply (parses_object (x0a :: spaces level) [] [] [] cs
                 (render cs indent level) []
                 (ws_newline_spaces _) eq_refl eq_refl eq_refl (Forall_nil _)).
      * rewrite <- app_assoc.
        apply (parses_object (x0a :: spaces (level + indent))
                 (x0a :: spaces (level + indent)) (x0a :: spaces level) [x20]
                 cs (render cs indent (level + indent)) (kv :: o)
                 (ws_newline_spaces _) (ws_newline_spaces _)
                 (ws_newline_spaces _) eq_refl (Hall _)).
    + split; [|exists x7b; eexists; split; reflexivity].
      rewrite <- (insert_all_map o Hs) at 2.
      apply (parses_object [] [] [] [] cs (render cs indent (level + indent)) o
               eq_refl eq_refl eq_refl eq_refl (Hall _)).
Qed.

(** ** The serializer writes the text [render] *)

Lemma dumpChar_plain (cs : bool) (ch : byte) (oss : ostringstream) :
  plain_char cs ch = true ->
  dumpChar cs ch oss = put (escape_char cs ch) oss.
Proof.
  unfold plain_char, two_char_escape, escape_char, dumpChar. cbn [existsb].
  destruct (code ch =? 34); [reflexivity|].
  destruct (code ch =? 92); [reflexivity|].
  destruct (code ch =? 8); [reflexivity|].
  destruct (code ch =? 12); [reflexivity|].
  destruct (code ch =? 10); [reflexivity|].
  destruct (code ch =? 13); [reflexivity|].
  destruct (code ch =? 9); [reflexivity|].
  cbn [orb]. intros H. apply negb_true_iff in H. rewrite H. reflexivity.
Qed.

Lemma dumpChars_plain (cs : bool) (s : list byte) :
  plain_string cs s = true ->
  forall oss,
    fold_left (fun o ch => dumpChar cs ch o) s oss
    = put (flat_map (escape_char cs) s) oss.
Proof.
  induction s as [|ch s IH]; intros Hs oss.
  - cbn. now rewrite put_nil.
  - cbn [plain_string forallb] in Hs. apply andb_true_iff in Hs.
    destruct Hs as [Hc Hs]. cbn [fold_left flat_map].
    rewrite (dumpChar_plain cs ch oss Hc), (IH Hs). apply put_put.
Qed.

Lemma dumpString_plain (cs : bool) (s : list byte) (oss : ostringstream) :
  plain_string cs s = true ->
  dumpString cs s oss = put (quoted cs s) oss.
Proof.
  intros Hs. unfold dumpString, quoted.
  rewrite (dumpChars_plain cs s Hs), !put_put. reflexivity.
Qed.

Section DumpRender.

Variable dv : JSON -> ostringstream -> Z -> Z -> ostringstream.
Variable cs : bool.
Variables level indent : Z.
Variable text : JSON -> list byte.

Lemma array_lines_render (items : list JSON) :
  Forall (writes_text dv level indent text) items -> items <> [] ->
  forall oss, oss_hex oss = false ->
    put (spaces level) (array_lines dv level indent items oss)
    = put (spaces (level + indent)
             ++ render_items text (x2c :: x0a :: spaces (level + indent))
                  (x0a :: spaces level) items) oss.
Proof.
  induction 1 as [|x r Hx Hr IH]; intros Hne oss Hh; [contradiction|].
  cbn [array_lines]. cbv zeta. rewrite (Hx _) by exact Hh. destruct r as [|y r'].
  - cbn [array_lines render_items]. rewrite !put_put. 
    f_equal; rewrite <- ?app_assoc; reflexivity.
  - rewrite (IH ltac:(discriminate) _) by exact Hh.
    rewrite (render_items_cons _ _ _ _ (y :: r')), !put_put. 
    f_equal; rewrite <- ?app_assoc; reflexivity.
Qed.

Lemma array_inline_render (items : list JSON) :
  Forall (writes_text dv level indent text) items ->
  forall oss, oss_hex oss = false ->
    array_inline dv level indent items oss
    = put (render_items text [x2c; x20] [] items) oss.
Proof.
  induction 1 as [|x r Hx Hr IH]; intros oss Hh.
  - cbn. now rewrite put_nil.
  - cbn [array_inline]. cbv zeta. rewrite (Hx _) by exact Hh. rewrite (IH _) by exact Hh. rewrite render_items_cons.
    rewrite !put_put. f_equal. destruct r as [|y r'].
    + cbn [render_items]. now rewrite !app_nil_r.
    + rewrite <- ?app_assoc; reflexivity.
Qed.

Lemma object_lines_render (members : list (list byte * JSON)) :
  Forall (fun kv => plain_string cs (fst kv) = true /\ writes_text dv level indent text (snd kv))
    members ->
  members <> [] ->
  forall oss, oss_hex oss = false ->
    put (spaces level) (object_lines dv cs level indent members oss)
    = put (spaces (level + indent)
             ++ render_items (member_text cs [x20] text)
                  (x2c :: x0a :: spaces (level + indent))
                  (x0a :: spaces level) members) oss.
Proof.
  induction 1 as [|[k v] r [Hk Hv] Hr IH]; intros Hne oss Hh; [contradiction|].
  cbn [fst snd] in *. cbn [object_lines]. cbv zeta.
  rewrite (dumpString_plain cs k _ Hk). rewrite (Hv _) by exact Hh. destruct r as [|y r'].
  - cbn [object_lines render_items]. rewrite !put_put. unfold member_text. cbn [fst snd].
    f_equal; rewrite <- ?app_assoc; reflexivity.
  - rewrite (IH ltac:(discriminate) _) by exact Hh.
    rewrite (render_items_cons _ _ _ _ (y :: r')), !put_put.
    change (member_text cs [x20] text (k, v))
      with (quoted cs k ++ x3a :: x20 :: text v).
    f_equal; rewrite <- ?app_assoc; reflexivity.
Qed.

Lemma dumpObject_loop_compact (size : Z) (members : list (list byte * JSON)) :
  (0 <? indent) = false ->
  Forall (fun kv => plain_string cs (fst kv) = true /\ writes_text dv level indent text (snd kv))
    members ->
  forall i oss, size = i + Z.of_nat (length members) -> oss_hex oss = false ->
    dumpObject_loop cs dv size level indent i members oss
    = put (render_items (member_text cs [] text) [x2c] [] members) oss.
Proof.
  intros Hi. induction 1 as [|[k v] r [Hk Hv] Hr IH]; intros i oss Hsize Hh.
  - cbn. now rewrite put_nil.
  - cbn [fst snd] in *. cbn [dumpObject_loop]. rewrite Hi. cbv zeta.
    rewrite (dumpString_plain cs k _ Hk). rewrite (Hv _) by exact Hh.
    rewrite IH; [| cbn [length] in Hsize; lia
                 | now destruct (i + 1 <? size)].
    rewrite render_items_cons. destruct r as [|y r'].
    + cbn [length] in Hsize.
      replace (i + 1 <? size) with false by (symmetry; apply Z.ltb_ge; lia).
      cbn [render_items]. rewrite !put_put. unfold member_text. cbn [fst snd].
      f_equal; rewrite <- ?app_assoc; reflexivity.
    + cbn [length] in Hsize.
      replace (i + 1 <? size) with true by (symmetry; apply Z.ltb_lt; lia).
      rewrite !put_put.
      change (member_text cs [] text (k, v))
        with (quoted cs k ++ x3a :: text v).
      f_equal; rewrite <- ?app_assoc; reflexivity.
Qed.

End DumpRender.

Lemma dumpValue_render (cs : bool) (indent : Z) (v : JSON) :
  round_trips cs v ->
  forall level oss, oss_hex oss = false ->
    dumpValue cs v oss level indent = put (render cs indent level v) oss.
Proof.
  induction v as [|b|i|d|s|a IH|o IH] using JSON_nested_ind;
    intros Hv level oss Hh.
  - reflexivity.
  - reflexivity.
  - cbn [dumpValue render]. unfold put_int. now rewrite Hh.
  - reflexivity.
  - apply (dumpString_plain cs s oss Hv).
  - apply round_trips_array in Hv.
    assert (Hall : Forall (writes_text (dumpValue cs) level indent
                             (render cs indent (level + indent))) a).
    { rewrite Forall_forall in *. intros x Hin oss' Hh'.
      apply (IH x Hin (Hv x Hin) _ _ Hh'). }
    cbn [dumpValue render].
    destruct (existsb is_complex a && (0 <? indent)) eqn:E.
    + apply andb_true_iff in E. destruct E as [Hc Hi]. apply Z.ltb_lt in Hi.
      rewrite (dumpArray_pretty (dumpValue cs) level indent a oss Hc Hi).
      rewrite (array_lines_render (dumpValue cs) level indent
                 (render cs indent (level + indent)) a Hall);
        [| intros ->; discriminate Hc | exact Hh].
      rewrite !put_put. f_equal. cbn [app]. rewrite <- ?app_assoc. reflexivity.
    + rewrite (dumpArray_one_line (dumpValue cs) level indent a oss).
      * rewrite (array_inline_render (dumpValue cs) level indent
                   (render cs indent (level + indent)) a Hall) by exact Hh.
        now rewrite !put_put.
      * apply andb_false_iff in E. destruct E as [E|E]; [now left|].
        right. now apply Z.ltb_ge.
  - apply round_trips_object in Hv. destruct Hv as [_ Hv].
    assert (Hall : Forall (fun kv => plain_string cs (fst kv) = true
                             /\ writes_text (dumpValue cs) level indent
                                  (render cs indent (level + indent)) (snd kv)) o).
    { rewrite Forall_forall in *. intros kv Hin.
      destruct (Hv kv Hin) as [Hk Hx]. split; [exact Hk|]. intros oss' Hh'.
      apply (IH kv Hin Hx _ _ Hh'). }
    cbn [dumpValue render]. destruct (0 <? indent) eqn:Ei.
    + apply Z.ltb_lt in Ei.
      rewrite (dumpObject_pretty (dumpValue cs) cs level indent o oss Ei).
      destruct o as [|kv o].
      * cbn [object_lines]. rewrite !put_put. reflexivity.
      * rewrite (object_lines_render (dumpValue cs) cs level indent
                   (render cs indent (level + indent)) (kv :: o) Hall);
          [| discriminate | exact Hh].
        rewrite !put_put. f_equal.
    + unfold dumpObject. rewrite Ei. cbv zeta.
      rewrite (dumpObject_loop_compact (dumpValue cs) cs level indent
                 (render cs indent (level + indent)) _ o Ei Hall 0);
        [| lia | exact Hh].
      rewrite !put_put. reflexivity.
Qed.

(** The text of [dump] is [render] at level 0. *)
Lemma dump_render (cs : bool) (indent : Z) (v : JSON) :
  round_trips cs v -> dump cs v indent = render cs indent 0 v.
Proof.
  intros Hv. unfold dump.
  now rewrite (dumpValue_render cs indent v Hv 0 oss_new eq_refl).
Qed.

(** The private [parse()] on a text that is a value. *)
Lemma parse_text (d : list byte) (v : JSON) :
  parses d v -> begins_value d ->
  exists p, parse d = Ok v p /\ pos p = length d.
Proof.
  intros Hp [c [l [Ed Hc]]].
  assert (H : at_text (JSONParser d) (d ++ [])).
  { split; [cbn; lia | now rewrite app_nil_r]. }
  destruct (Hp (JSONParser d) [] H) as [f0 Hf0].
  { exists x00. repeat split. discriminate. }
  destruct (Hf0 (S f0) ltac:(lia)) as [p [E [_ A]]].
  exists p. split; [|exact A].
  apply (parse_of_fuel d (S f0)); [|discriminate].
  unfold parse_.
  rewrite (bind_of_Ok (skipWhitespace (S f0)) _ (JSONParser d) tt (JSONParser d));
    [exact E|].
  apply (skipWhitespace_stop f0 _ _ H). rewrite app_nil_r, Ed.
  exists c. split; [reflexivity | apply (value_start_facts c Hc)].
Qed.

(** C1, as stated, fails: the Double 1.0 is written as the text [1], which
    the parser reads as the Integer 1, so the tag is not the same. *)
Lemma double_one_reads_back_as_integer :
  dump false (JDouble double_one) 4 = str "1" /\
  parse (dump false (JDouble double_one) 4)
  = Ok (JInteger 1) (mk_parser (str "1") 1 1 2) /\
  (forall p, parse (dump false (JDouble double_one) 4)
             <> Ok (JDouble double_one) p).
Proof.
  assert (E : parse (dump false (JDouble double_one) 4)
              = Ok (JInteger 1) (mk_parser (str "1") 1 1 2)) by reflexivity.
  split; [reflexivity|]. split; [exact E|].
  intros p. rewrite E. discriminate.
Qed.

(** C1, amended: for every value whose integers are in the range of [int],
    whose doubles are written with a decimal point and no exponent and read
    back by [std::stod] as the same double, whose strings and keys hold only
    bytes the serializer writes without a [u] escape, and whose objects have
    their members in key order, parsing the text of [dump], at the default
    indent 4 as at any other, succeeds, consumes the whole text and returns
    a value equal to the original one, tag and content, at every node. *)
Theorem dump_then_parse_round_trip (cs : bool) (indent : Z) (v : JSON) :
  round_trips cs v ->
  exists p, parse (dump cs v indent) = Ok v p
            /\ pos p = length (dump cs v indent).
Proof.
  intros Hv. rewrite (dump_render cs indent v Hv).
  destruct (render_parses cs indent v Hv 0) as [Hp Hb].
  apply (parse_text _ v Hp Hb).
Qed.

Lemma dump_then_parse_round_trip_witness :
  round_trips false sample_document /\
  exists p, parse (dump false sample_document 4) = Ok sample_document p
            /\ pos p = length (dump false sample_document 4).
Proof.
  assert (H : round_trips false sample_document).
  { vm_compute. repeat split. }
  split; [exact H|].
  apply (dump_then_parse_round_trip false 4 sample_document H).
Defined.

(** * Further properties *)

(** ** Access by index *)

Lemma nth_error_replace_same {A : Type} (l : list A) (i : nat) (x : A) :
  (i < length l)%nat ->
  nth_error (firstn i l ++ x :: skipn (S i) l) i = Some x.
Proof.
  intros H. rewrite nth_error_app2; rewrite length_firstn, Nat.min_l; try lia.
  now rewrite Nat.sub_diag.
Qed.

Lemma nth_error_replace_other {A : Type} (l : list A) (i j : nat) (x : A) :
  (i < length l)%nat -> j <> i ->
  nth_error (firstn i l ++ x :: skipn (S i) l) j = nth_error l j.
Proof.
  intros H Hne. destruct (Nat.lt_ge_cases j i) as [Hlt|Hge].
  - rewrite nth_error_app1 by (rewrite length_firstn; lia).
    rewrite nth_error_firstn.
    now replace (j <? i)%nat with true by (symmetry; apply Nat.ltb_lt; lia).
  - rewrite nth_error_app2; rewrite length_firstn, Nat.min_l; try lia.
    destruct (j - i)%nat as [|d] eqn:E; [lia|]. cbn [nth_error].
    rewrite nth_error_skipn. f_equal. lia.
Qed.

Lemma length_replace {A : Type} (l : list A) (i : nat) (x : A) :
  (i < length l)%nat ->
  length (firstn i l ++ x :: skipn (S i) l) = length l.
Proof.
  intros H. rewrite length_app, length_firstn. cbn [length].
  rewrite length_skipn. lia.
Qed.

(** X1: [v[i] = x] on an array, with [i] below its size.  When [x] is an
    object apart from [v], the element at [i] is replaced and nothing else:
    the size is kept, [v[i]] then reads [x] and every other index reads what
    it read before.  When [x] is another element of [v] or a part of one,
    the copy of that part is stored in the same way; [v[i] = v[i]] changes
    nothing.  When [x] is a part of [v[i]], as in [v[0] = v[0][1]], or is
    [v] itself, [operator=] destroys the payload of [v[i]] before it reads
    [x]: the behaviour is undefined.  With [i] at or beyond the size the
    statement throws "Index out of range", on a value that is no array (Null
    included) it throws "Trying to index a non-array JSON"; in both cases
    the value is left as it was: access by index never grows an array and
    never turns Null into an array. *)
Theorem index_assign_replaces_one_element (v : JSON) (i : nat) :
  (forall a x, v = JArray a -> (i < length a)%nat ->
     exists a',
       index_assign v i (Apart x) = (JArray a', Return tt)
       /\ length a' = length a
       /\ index_const (JArray a') i = Return x
       /\ (forall j, j <> i ->
             index_const (JArray a') j = index_const (JArray a) j)) /\
  (forall a j rest x, v = JArray a -> (i < length a)%nat -> j <> i ->
     place_deref v (at_index j :: rest) = Some x ->
     index_assign v i (Part (at_index j :: rest)) = index_assign v i (Apart x)) /\
  (forall a, v = JArray a -> (i < length a)%nat ->
     index_assign v i (Part [at_index i]) = (v, Return tt)) /\
  (forall a s rest, v = JArray a -> (i < length a)%nat ->
     index_assign v i (Part (at_index i :: s :: rest)) = (v, UndefinedBehaviour)) /\
  (forall a, v = JArray a -> (i < length a)%nat ->
     index_assign v i (Part []) = (v, UndefinedBehaviour)) /\
  (forall a other, v = JArray a -> (length a <= i)%nat ->
     index_assign v i other = (v, Raise (runtime_error index_out_of_range_message))
     /\ index_const v i = Raise (runtime_error index_out_of_range_message)) /\
  (forall other, getType v <> Array ->
     index_assign v i other = (v, Raise (runtime_error not_an_array_message))
     /\ index_const v i = Raise (runtime_error not_an_array_message)).
Proof.
  assert (In_range : forall a : list JSON,
            (i < length a)%nat -> (length a <=? i)%nat = false).
  { intros a Hi. apply Nat.leb_gt. exact Hi. }
  split; [|split; [|split; [|split; [|split; [|split]]]]].
  - intros a x -> Hi. exists (firstn i a ++ x :: skipn (S i) a).
    pose proof (In_range a Hi) as E.
    repeat split.
    + unfold index_assign, index_mutable. now rewrite E.
    + now apply length_replace.
    + unfold index_const. rewrite length_replace by lia.
      now rewrite E, nth_error_replace_same.
    + intros j Hj. unfold index_const. rewrite length_replace by lia.
      now rewrite nth_error_replace_other.
  - intros a j rest x -> Hi Hj Hx.
    unfold index_assign, index_mutable. rewrite (In_range a Hi).
    unfold operator_assign_reads, place_eqb. cbn [place_prefix step_eqb].
    replace (Nat.eqb j i) with false by (symmetry; now apply Nat.eqb_neq).
    replace (Nat.eqb i j) with false
      by (symmetry; apply Nat.eqb_neq; intros E; now apply Hj).
    cbn [andb orb]. now rewrite Hx.
  - intros a -> Hi. unfold index_assign, index_mutable. rewrite (In_range a Hi).
    unfold operator_assign_reads, place_eqb. cbn [place_prefix step_eqb].
    now rewrite Nat.eqb_refl.
  - intros a s rest -> Hi. unfold index_assign, index_mutable.
    rewrite (In_range a Hi).
    unfold operator_assign_reads, place_eqb. cbn [place_prefix step_eqb].
    rewrite Nat.eqb_refl. cbn [andb orb]. reflexivity.
  - intros a -> Hi. unfold index_assign, index_mutable. rewrite (In_range a Hi).
    reflexivity.
  - intros a other -> Hi.
    assert (E : (length a <=? i)%nat = true) by (apply Nat.leb_le; lia).
    unfold index_assign, index_mutable, index_const. now rewrite E.
  - intros other Hv. destruct v; try (split; reflexivity). contradiction.
Qed.

Lemma index_assign_replaces_one_element_witness :
  index_assign (JArray [JInteger 1; JInteger 2; JInteger 3]) 1 (Apart JNull)
  = (JArray [JInteger 1; JNull; JInteger 3], Return tt) /\
  index_assign (JArray [JArray [JInteger 1; JInteger 2]; JNull]) 1
    (Part [at_index 0; at_index 1])
  = (JArray [JArray [JInteger 1; JInteger 2]; JInteger 2], Return tt) /\
  index_assign (JArray [JArray [JInteger 1; JInteger 2]]) 0
    (Part [at_index 0; at_index 1])
  = (JArray [JArray [JInteger 1; JInteger 2]], UndefinedBehaviour) /\
  index_assign (JArray [JInteger 1]) 1 (Apart JNull)
  = (JArray [JInteger 1], Raise (runtime_error index_out_of_range_message)) /\
  index_assign JNull 0 (Apart (JInteger 1))
  = (JNull, Raise (runtime_error not_an_array_message)).
Proof.
  pose proof (index_assign_replaces_one_element
                (JArray [JInteger 1; JInteger 2; JInteger 3]) 1) as H1.
  pose proof (index_assign_replaces_one_element
                (JArray [JArray [JInteger 1; JInteger 2]; JNull]) 1) as H2.
  pose proof (index_assign_replaces_one_element
                (JArray [JArray [JInteger 1; JInteger 2]]) 0) as H3.
  pose proof (index_assign_replaces_one_element (JArray [JInteger 1]) 1) as H4.
  pose proof (index_assign_replaces_one_element JNull 0) as H5.
  split; [|split; [|split; [|split]]].
  - destruct (proj1 H1 _ JNull eq_refl ltac:(simpl; lia)) as [a' [E _]].
    reflexivity.
  - rewrite (proj1 (proj2 H2) _ 0%nat [at_index 1] (JInteger 2) eq_refl
               ltac:(simpl; lia) ltac:(discriminate) eq_refl).
    reflexivity.
  - apply (proj1 (proj2 (proj2 (proj2 H3))) _ (at_index 1) [] eq_refl).
    simpl. lia.
  - apply (proj1 (proj2 (proj2 (proj2 (proj2 (proj2 H4))))) _ (Apart JNull)
             eq_refl).
    simpl. lia.
  - apply (proj2 (proj2 (proj2 (proj2 (proj2 (proj2 H5))))) (Apart (JInteger 1))).
    discriminate.
Defined.

(** ** Assignment through a key *)

Lemma map_set_set (k : list byte) (a b : JSON) (m : map_t) :
  map_set k a (map_set k b m) = map_set k a m.
Proof.
  induction m as [|[k' v'] m IH]; cbn [map_set].
  - now rewrite string_compare_refl.
  - destruct (string_compare k k') eqn:E; cbn [map_set].
    + now rewrite E.
    + now rewrite string_compare_refl.
    + now rewrite E, IH.
Qed.

Lemma keys_above_set (k0 k : list byte) (v : JSON) (m : map_t) :
  string_compare k0 k = Lt -> keys_above k0 m -> keys_above k0 (map_set k v m).
Proof.
  intros Hk Hm. destruct m as [|[k' v'] m]; cbn [map_set]; [exact Hk|].
  destruct (string_compare k k'); cbn [keys_above]; assumption.
Qed.

(** The order of the keys, the invariant of [std::map], is kept by
    [m[key] = value]. *)
Lemma map_set_sorted (k : list byte) (v : JSON) (m : map_t) :
  map_sorted m -> map_sorted (map_set k v m).
Proof.
  induction m as [|[k' v'] m IH]; intros Hm; cbn [map_set].
  - split; exact I.
  - destruct Hm as [Hk' Hm]. destruct (string_compare k k') eqn:E.
    + split; assumption.
    + split; [exact E | split; assumption].
    + split; [|now apply IH]. apply keys_above_set; [|exact Hk'].
      rewrite string_compare_antisym, E. reflexivity.
Qed.

Lemma map_subscript_sorted (k : list byte) (m : map_t) :
  map_sorted m -> map_sorted (map_subscript k m).
Proof.
  intros Hm. unfold map_subscript. destruct (map_find k m); [exact Hm|].
  now apply map_set_sorted.
Qed.

(** X2: [v[k] = x] on Null or on an object.  When [x] is an object apart
    from [v], the statement returns, the value is an object afterwards,
    [v[k]] then reads [x], every other key reads what it read before
    (nothing, for Null), and the keys stay in order.  When [x] is the entry
    of another key or a part of it, the copy of that part is stored in the
    same way; [v[k] = v[k]] only inserts a Null entry for an absent key.
    When [x] is a part of [v[k]], as in [v["a"] = v["a"]["b"]], or is [v]
    itself, [operator=] destroys the payload of [v[k]] before it reads [x]:
    the behaviour is undefined. *)
Theorem key_assign_then_read (v : JSON) (k : list byte) :
  forall o, v = JObject o \/ (v = JNull /\ o = []) ->
  (forall x, exists o',
     key_assign v k (Apart x) = (JObject o', Return tt)
     /\ subscript_const (JObject o') k = Return x
     /\ (forall k', k' <> k ->
           subscript_const (JObject o') k' = subscript_const (JObject o) k')
     /\ (map_sorted o -> map_sorted o')) /\
  (forall k' rest x, k' <> k ->
     place_deref v (at_key k' :: rest) = Some x ->
     key_assign v k (Part (at_key k' :: rest)) = key_assign v k (Apart x)) /\
  key_assign v k (Part [at_key k]) = (JObject (map_subscript k o), Return tt) /\
  (forall s rest,
     key_assign v k (Part (at_key k :: s :: rest))
     = (JObject (map_subscript k o), UndefinedBehaviour)) /\
  key_assign v k (Part []) = (JObject (map_subscript k o), UndefinedBehaviour).
Proof.
  intros o Hv.
  assert (Es : subscript_ref v [] k = (JObject (map_subscript k o), Return [k])).
  { unfold subscript_ref. cbn [deref].
    assert (E : subscript v k = (JObject (map_subscript k o), Return tt)).
    { destruct Hv as [->|[-> ->]]; reflexivity. }
    rewrite E. reflexivity. }
  assert (Ex : forall x, key_assign v k (Apart x)
                 = (JObject (map_set k x (map_subscript k o)), Return tt)).
  { intros x. unfold key_assign. rewrite Es. cbn [operator_assign_reads].
    unfold assign_ref. cbn [update_at]. now rewrite map_find_subscript_same. }
  split; [|split; [|split; [|split]]].
  - intros x. exists (map_set k x (map_subscript k o)). repeat split.
    + apply Ex.
    + unfold subscript_const, map_at. now rewrite map_find_set_same.
    + intros k' Hne. unfold subscript_const, map_at.
      now rewrite map_find_set_other, map_find_subscript_other.
    + intros Hs. now apply map_set_sorted, map_subscript_sorted.
  - intros k' rest x Hne Hx. rewrite Ex. unfold key_assign. rewrite Es.
    unfold operator_assign_reads, place_eqb. cbn [place_prefix step_eqb].
    replace (bytes_eqb k' k) with false by (symmetry; now apply bytes_eqb_neq).
    replace (bytes_eqb k k') with false
      by (symmetry; apply bytes_eqb_neq; intros E; now apply Hne).
    cbn [andb orb].
    assert (Hd : place_deref (JObject (map_subscript k o)) (at_key k' :: rest)
                 = Some x).
    { cbn [place_deref]. rewrite (map_find_subscript_other k k' o Hne).
      destruct Hv as [->|[-> ->]]; [exact Hx | discriminate Hx]. }
    rewrite Hd. unfold assign_ref. cbn [update_at].
    now rewrite map_find_subscript_same.
  - unfold key_assign. rewrite Es.
    unfold operator_assign_reads, place_eqb. cbn [place_prefix step_eqb].
    now rewrite bytes_eqb_refl.
  - intros s rest. unfold key_assign. rewrite Es.
    unfold operator_assign_reads, place_eqb. cbn [place_prefix step_eqb].
    rewrite bytes_eqb_refl. cbn [andb orb]. reflexivity.
  - unfold key_assign. rewrite Es. reflexivity.
Qed.

Lemma key_assign_then_read_witness :
  (exists o',
     key_assign JNull (str "a") (Apart (JInteger 5)) = (JObject o', Return tt)
     /\ subscript_const (JObject o') (str "a") = Return (JInteger 5)
     /\ (forall k', k' <> str "a" ->
           subscript_const (JObject o') k' = subscript_const (JObject []) k')
     /\ (map_sorted [] -> map_sorted o')) /\
  key_assign (JObject [(str "a", JObject [(str "b", JInteger 1)])]) (str "a")
    (Part [at_key (str "a"); at_key (str "b")])
  = (JObject [(str "a", JObject [(str "b", JInteger 1)])], UndefinedBehaviour).
Proof.
  split.
  - apply (proj1 (key_assign_then_read JNull (str "a") []
                    (or_intror (conj eq_refl eq_refl))) (JInteger 5)).
  - apply (proj1 (proj2 (proj2 (proj2
             (key_assign_then_read
                (JObject [(str "a", JObject [(str "b", JInteger 1)])]) (str "a")
                [(str "a", JObject [(str "b", JInteger 1)])]
                (or_introl eq_refl)))))
             (at_key (str "b")) []).
Defined.

(** ** Assignment through a path of keys *)

Lemma deref_update_at (f : JSON -> JSON) (s : ref) (r : ref) :
  forall root v, deref root r = Some v ->
  deref (update_at root r f) (r ++ s) = deref (f v) s.
Proof.
  induction r as [|k r IH]; intros root v H; cbn [deref update_at app] in *.
  - now inversion H.
  - destruct root; try discriminate.
    destruct (map_find k object) as [v0|] eqn:E; [|discriminate].
    cbn [deref]. rewrite map_find_set_same. now apply IH.
Qed.

Lemma update_at_update_at (f g : JSON -> JSON) (s : ref) (r : ref) :
  forall root v, deref root r = Some v ->
  update_at (update_at root r f) (r ++ s) g
  = update_at root r (fun u => update_at (f u) s g).
Proof.
  induction r as [|k r IH]; intros root v H; cbn [deref update_at app] in *.
  - reflexivity.
  - destruct root; try discriminate.
    destruct (map_find k object) as [v0|] eqn:E; [|discriminate].
    cbn [update_at]. rewrite map_find_set_same, map_set_set.
    now rewrite (IH v0 v H).
Qed.

Lemma update_at_ext (f g : JSON -> JSON) (r : ref) :
  (forall u, f u = g u) ->
  forall root, update_at root r f = update_at root r g.
Proof.
  intros Hfg. induction r as [|k r IH]; intros root; cbn [update_at].
  - apply Hfg.
  - destruct root; try reflexivity.
    destruct (map_find k object); [|reflexivity]. now rewrite IH.
Qed.

Lemma update_at_nest (keys : list (list byte)) (x y : JSON) :
  update_at (nest keys x) keys (fun _ => y) = nest keys y.
Proof.
  induction keys as [|k keys IH]; cbn [nest update_at map_find]; [reflexivity|].
  rewrite bytes_eqb_refl. cbn [map_set]. now rewrite string_compare_refl, IH.
Qed.

(** From a reference to a Null value, [operator[]] along the keys builds one
    object per key. *)
Lemma subscript_path_vivifies (keys : list (list byte)) :
  forall k root r,
    deref root r = Some JNull ->
    subscript_path root r (k :: keys)
    = (update_at root r (fun _ => nest (k :: keys) JNull),
       Return (r ++ k :: keys)).
Proof.
  induction keys as [|k2 keys IH]; intros k root r H.
  - cbn [subscript_path]. unfold subscript_ref. rewrite H. reflexivity.
  - change (subscript_path root r (k :: k2 :: keys))
      with (match subscript_ref root r k with
            | (root', Return r') => subscript_path root' r' (k2 :: keys)
            | other => other
            end).
    unfold subscript_ref at 1. rewrite H. cbn [subscript].
    change (map_subscript k []) with [(k, JNull)].
    rewrite (IH k2 _ (r ++ [k])).
    + rewrite (update_at_update_at _ _ [k] r root JNull H).
      rewrite <- app_assoc. cbn [app]. f_equal. apply update_at_ext.
      intros _. cbn [update_at map_find]. rewrite bytes_eqb_refl.
      cbn [map_set]. now rewrite string_compare_refl.
    + rewrite (deref_update_at _ [k] r root JNull H).
      cbn [deref map_find]. now rewrite bytes_eqb_refl.
Qed.

(** X3: [JSON()[k1][k2]...[kn] = x] builds the objects of one member each along
    the keys, whatever their number, and the const access along the same
    keys then reads [x]. *)
Theorem assign_path_vivifies_and_reads_back (keys : list (list byte)) (x : JSON) :
  assign_path JNull keys x = (nest keys x, Return tt) /\
  subscript_const_path (nest keys x) keys = Return x.
Proof.
  split.
  - destruct keys as [|k keys]; [reflexivity|].
    unfold assign_path. rewrite (subscript_path_vivifies keys k JNull [] eq_refl).
    cbn [update_at app]. unfold assign_ref. now rewrite update_at_nest.
  - induction keys as [|k keys IH]; [reflexivity|].
    cbn [nest subscript_const_path subscript_const]. unfold map_at.
    cbn [map_find]. now rewrite bytes_eqb_refl.
Qed.

(** ** Objects from a list of pairs *)

Lemma fold_map_set_find (k : list byte) (l : list (list byte * JSON)) :
  forall m,
    map_find k (fold_left (fun obj pair => map_set (fst pair) (snd pair) obj) l m)
    = match last_binding k l with
      | Some v => Some v
      | None => map_find k m
      end.
Proof.
  induction l as [|[k' v'] l IH]; intros m; cbn [fold_left last_binding fst snd].
  - reflexivity.
  - rewrite IH. destruct (last_binding k l); [reflexivity|].
    destruct (bytes_eqb k k') eqn:E.
    + apply bytes_eqb_eq in E. subst. apply map_find_set_same.
    + apply bytes_eqb_neq in E. now apply map_find_set_other.
Qed.

Lemma fold_map_set_sorted (l : list (list byte * JSON)) :
  forall m, map_sorted m ->
    map_sorted (fold_left (fun obj pair => map_set (fst pair) (snd pair) obj) l m).
Proof.
  induction l as [|[k v] l IH]; intros m Hm; cbn [fold_left]; [exact Hm|].
  apply IH. now apply map_set_sorted.
Qed.

(** X4: [JSON::o] makes an object in which a key reads the value listed last for
    it; a key that is not listed is absent, and the map that
    [get<std::map<std::string, JSON>>()] returns has its members in key
    order whatever the order of the list. *)
Theorem JSON_o_last_binding_wins (list : list (list byte * JSON)) :
  (forall k, subscript_const (JSON_o list) k
             = match last_binding k list with
               | Some v => Return v
               | None => Raise out_of_range
               end) /\
  (exists o, JSONTypeTraits_map_get (JSON_o list) = Return o
             /\ map_sorted o
             /\ (forall k, map_find k o = last_binding k list)).
Proof.
  split.
  - intros k. unfold JSON_o, subscript_const, map_at.
    rewrite fold_map_set_find. now destruct (last_binding k list).
  - eexists. split; [reflexivity|]. split.
    + now apply fold_map_set_sorted.
    + intros k. rewrite fold_map_set_find. now destruct (last_binding k list).
Qed.

(** ** Arrays of one type *)

Lemma vector_get_loop_Return {T : Type} (get_T : JSON -> outcome T)
    (arr : list JSON) :
  forall result l,
    vector_get_loop get_T arr result = Return l
    <-> exists l', l = result ++ l'
                   /\ Forall2 (fun item x => get_T item = Return x) arr l'.
Proof.
  induction arr as [|item arr IH]; intros result l; cbn [vector_get_loop].
  - split.
    + intros H. inversion H. exists []. split; [now rewrite app_nil_r | constructor].
    + intros [l' [-> H]]. inversion H. now rewrite app_nil_r.
  - destruct (get_T item) as [x| e |] eqn:E.
    + rewrite IH. split.
      * intros [l' [-> H]]. exists (x :: l'). split.
        -- now rewrite <- app_assoc.
        -- now constructor.
      * intros [l' [-> H]]. inversion H as [|? y ? l2 Hy H2]; subst.
        rewrite E in Hy. inversion Hy; subst. exists l2. split.
        -- now rewrite <- app_assoc.
        -- exact H2.
    + split; [discriminate|]. intros [l' [_ H]].
      inversion H; subst. congruence.
    + split; [discriminate|]. intros [l' [_ H]].
      inversion H; subst. congruence.
Qed.

Lemma vector_get_loop_Raise {T : Type} (get_T : JSON -> outcome T)
    (pre : list JSON) (item : JSON) (post : list JSON) (e : exn) :
  Forall (fun y => exists x, get_T y = Return x) pre ->
  get_T item = Raise e ->
  forall result, vector_get_loop get_T (pre ++ item :: post) result = Raise e.
Proof.
  intros Hpre He. induction Hpre as [|y pre [x Hy] _ IH]; intros result;
    cbn [app vector_get_loop].
  - now rewrite He.
  - rewrite Hy. apply IH.
Qed.

(** X5: [get<std::vector<T>>()] returns exactly on an array all of whose
    elements [get<T>()] accepts, with their projections in order; it throws
    what [get<T>()] throws on the first element it refuses, and
    "Not an array" on every value that is no array.  With [T = int] the
    array of the integers [l] is read back as [l]. *)
Theorem vector_get_all_or_first_error {T : Type} (get_T : JSON -> outcome T)
    (json : JSON) :
  (forall l, JSONTypeTraits_vector_get get_T json = Return l
             <-> exists arr, json = JArray arr
                   /\ Forall2 (fun item x => get_T item = Return x) arr l) /\
  (forall pre item post e,
     json = JArray (pre ++ item :: post) ->
     Forall (fun y => exists x, get_T y = Return x) pre ->
     get_T item = Raise e ->
     JSONTypeTraits_vector_get get_T json = Raise e) /\
  (getType json <> Array ->
   JSONTypeTraits_vector_get get_T json
   = Raise (runtime_error (str "Not an array"))) /\
  (forall l : list Z,
     JSONTypeTraits_vector_get JSONTypeTraits_int_get (JArray (map JInteger l))
     = Return l).
Proof.
  repeat split.
  - intros H. destruct json; try discriminate H. exists array. split; [reflexivity|].
    apply (vector_get_loop_Return get_T array [] l) in H.
    destruct H as [l' [-> H]]. exact H.
  - intros [arr [-> H]]. apply (vector_get_loop_Return get_T arr [] l).
    exists l. split; [reflexivity | exact H].
  - intros pre item post e -> Hpre He.
    apply (vector_get_loop_Raise get_T pre item post e Hpre He).
  - destruct json; try reflexivity. contradiction.
  - intros l. apply (vector_get_loop_Return JSONTypeTraits_int_get _ [] l).
    exists l. split; [reflexivity|]. induction l; constructor; auto.
Qed.

Lemma vector_get_all_or_first_error_witness :
  JSONTypeTraits_vector_get JSONTypeTraits_int_get
    (JArray [JInteger 1; JDouble one_and_a_half; JInteger 3])
  = Raise (runtime_error (str "Not an integer")) /\
  JSONTypeTraits_vector_get JSONTypeTraits_int_get JNull
  = Raise (runtime_error (str "Not an array")).
Proof.
  split.
  - apply (proj1 (proj2 (vector_get_all_or_first_error JSONTypeTraits_int_get
               (JArray [JInteger 1; JDouble one_and_a_half; JInteger 3])))
             [JInteger 1] (JDouble one_and_a_half) [JInteger 3]).
    + reflexivity.
    + constructor; [|constructor]. exists 1. reflexivity.
    + reflexivity.
  - apply (proj1 (proj2 (proj2 (vector_get_all_or_first_error
               JSONTypeTraits_int_get JNull)))).
    discriminate.
Defined.

(** ** The serializer: one line, and the sticky [std::hex] *)

(** X6: With [indent <= 0] the text of [dump] has no line break, whatever the
    value: containers are written on one line and a line break inside a
    string is written as its escape. *)
Theorem compact_dump_is_one_line (cs : bool) (v : JSON) (indent : Z) :
  indent <= 0 -> no_newline (dump cs v indent).
Proof.
  intros Hi. unfold dump.
  destruct (dumpValue_adds_text cs v oss_new 0 indent) as [t [E Ht]].
  rewrite E. cbn [oss_new oss_str app]. apply Ht. now left.
Qed.

Lemma compact_dump_is_one_line_witness :
  no_newline (dump false sample_document 0).
Proof.
  apply (compact_dump_is_one_line false sample_document 0). lia.
Defined.

Lemma dumpChar_hex_kept (cs : bool) (ch : byte) (oss : ostringstream) :
  oss_hex oss = true -> oss_hex (dumpChar cs ch oss) = true.
Proof.
  intros H. unfold dumpChar.
  repeat match goal with
         | |- context [if ?c then _ else _] => destruct c
         end; try exact H; reflexivity.
Qed.

Lemma dumpChars_hex_kept (cs : bool) (s : list byte) :
  forall oss, oss_hex oss = true ->
    oss_hex (fold_left (fun o ch => dumpChar cs ch o) s oss) = true.
Proof.
  induction s as [|ch s IH]; intros oss H; cbn [fold_left]; [exact H|].
  apply IH. now apply dumpChar_hex_kept.
Qed.

Lemma dumpString_hex_kept (cs : bool) (s : list byte) (oss : ostringstream) :
  oss_hex oss = true -> oss_hex (dumpString cs s oss) = true.
Proof.
  intros H. unfold dumpString. cbn [put oss_hex].
  now apply dumpChars_hex_kept.
Qed.

Lemma dumpChar_hex_set (cs : bool) (ch : byte) (oss : ostringstream) :
  plain_char cs ch = false -> oss_hex (dumpChar cs ch oss) = true.
Proof.
  unfold plain_char, two_char_escape, dumpChar. cbn [existsb].
  destruct (code ch =? 34); [discriminate|].
  destruct (code ch =? 92); [discriminate|].
  destruct (code ch =? 8); [discriminate|].
  destruct (code ch =? 12); [discriminate|].
  destruct (code ch =? 10); [discriminate|].
  destruct (code ch =? 13); [discriminate|].
  destruct (code ch =? 9); [discriminate|].
  cbn [orb]. intros H. apply negb_false_iff in H. now rewrite H.
Qed.

Lemma dumpChars_hex_set (cs : bool) (s : list byte) :
  plain_string cs s = false ->
  forall oss, oss_hex (fold_left (fun o ch => dumpChar cs ch o) s oss) = true.
Proof.
  induction s as [|ch s IH]; intros Hs oss; [discriminate|].
  cbn [plain_string forallb] in Hs. cbn [fold_left].
  destruct (plain_char cs ch) eqn:E.
  - apply IH. exact Hs.
  - apply dumpChars_hex_kept. now apply dumpChar_hex_set.
Qed.

Lemma dumpString_hex_set (cs : bool) (s : list byte) (oss : ostringstream) :
  plain_string cs s = false -> oss_hex (dumpString cs s oss) = true.
Proof.
  intros H. unfold dumpString. cbn [put oss_hex].
  now apply dumpChars_hex_set.
Qed.

Section HexKept.

Variable cs : bool.
Variable dv : JSON -> ostringstream -> Z -> Z -> ostringstream.

Lemma dumpArray_loop_hex_kept (pp : bool) (size level indent : Z)
    (items : list JSON) :
  Forall (keeps_hex_on dv) items ->
  forall i oss, oss_hex oss = true ->
    oss_hex (dumpArray_loop dv pp size level indent i items oss) = true.
Proof.
  induction 1 as [|x r Hx _ IH]; intros i oss H; cbn [dumpArray_loop];
    [exact H|].
  cbv zeta. apply IH.
  assert (H1 : oss_hex (dv x (if pp then put (spaces (level + indent)) oss
                              else oss) (level + indent) indent) = true).
  { apply Hx. now destruct pp. }
  destruct (i <? size - 1), pp; exact H1.
Qed.

Lemma dumpObject_loop_hex_kept (size level indent : Z)
    (members : list (list byte * JSON)) :
  Forall (fun kv => keeps_hex_on dv (snd kv)) members ->
  forall i oss, oss_hex oss = true ->
    oss_hex (dumpObject_loop cs dv size level indent i members oss) = true.
Proof.
  induction 1 as [|[k x] r Hx _ IH]; intros i oss H; cbn [dumpObject_loop];
    [exact H|].
  cbv zeta. apply IH. cbn [snd] in Hx.
  assert (H1 : oss_hex (dv x
                 (if 0 <? indent
                  then put [x20] (put [x3a]
                         (dumpString cs k (if 0 <? indent
                                           then put (spaces (level + indent)) oss
                                           else oss)))
                  else put [x3a]
                         (dumpString cs k (if 0 <? indent
                                           then put (spaces (level + indent)) oss
                                           else oss)))
                 (level + indent) indent) = true).
  { apply Hx. destruct (0 <? indent); cbn [put oss_hex];
      now apply dumpString_hex_kept. }
  destruct (i + 1 <? size), (0 <? indent); exact H1.
Qed.

End HexKept.

Lemma dumpValue_hex_kept (cs : bool) (v : JSON) :
  keeps_hex_on (dumpValue cs) v.
Proof.
  induction v as [|b|i|d|s|a IH|o IH] using JSON_nested_ind;
    intros oss level indent H; cbn [dumpValue]; try exact H.
  - now apply dumpString_hex_kept.
  - unfold dumpArray. cbv zeta. cbn [put oss_hex].
    destruct (existsb is_complex a && (0 <? indent)); cbn [put oss_hex];
      now apply dumpArray_loop_hex_kept.
  - unfold dumpObject. cbv zeta. cbn [put oss_hex].
    destruct (0 <? indent); cbn [put oss_hex];
      now apply dumpObject_loop_hex_kept.
Qed.

(** X7: [std::hex], which [dumpString] sets for a control character and never
    resets, stays set for the rest of the dump: after a string (or key) with
    a byte written as a [u] escape, whatever is written in between, every
    integer is written in hexadecimal.  So the array of such a string and
    the integer [i] is written with the hexadecimal digits of [i]. *)
Theorem hex_stays_set_after_control_character (cs : bool) (s : list byte) :
  plain_string cs s = false ->
  (forall oss level indent,
     oss_hex (dumpValue cs (JString s) oss level indent) = true) /\
  (forall v oss level indent,
     oss_hex oss = true -> oss_hex (dumpValue cs v oss level indent) = true) /\
  (forall i oss level indent,
     oss_hex oss = true ->
     dumpValue cs (JInteger i) oss level indent = put (hex_of_int i) oss) /\
  (forall i indent,
     dump cs (JArray [JString s; JInteger i]) indent
     = x5b :: quoted cs s ++ [x2c; x20] ++ hex_of_int i ++ [x5d]).
Proof.
  intros Hs. repeat split.
  - intros oss level indent. now apply dumpString_hex_set.
  - intros v oss level indent. apply dumpValue_hex_kept.
  - intros i oss level indent H. cbn [dumpValue]. unfold put_int.
    now rewrite H.
  - intros i indent. unfold dump. cbn [dumpValue].
    rewrite (dumpArray_one_line (dumpValue cs) 0 indent) by now left.
    cbn [array_inline]. cbv zeta. rewrite put_nil.
    assert (H : oss_hex (put [x2c; x20]
                  (dumpValue cs (JString s) (put [x5b] oss_new) (0 + indent) indent))
                = true).
    { cbn [put oss_hex]. now apply dumpString_hex_set. }
    cbn [dumpValue] in *. unfold put_int. rewrite H.
    cbn [put oss_str pad_left]. rewrite dumpString_str.
    cbn [put oss_str oss_new app]. unfold quoted, pad_left.
    cbn [length Nat.sub repeat app]. rewrite <- !app_assoc. reflexivity.
Qed.

Lemma hex_stays_set_after_control_character_witness :
  dump false (JArray [JString [x01]; JInteger 255]) 4
  = x5b :: quoted false [x01] ++ [x2c; x20] ++ str "ff" ++ [x5d].
Proof.
  apply (proj2 (proj2 (proj2
           (hex_stays_set_after_control_character false [x01] eq_refl)))).
Defined.

(** ** The parser keeps its line and column, and its values are well formed *)

Lemma data_at_c_str (d : list byte) (i : nat) :
  data_at d i = nth_error (c_str d) i.
Proof.
  unfold data_at, c_str. destruct (Nat.lt_ge_cases i (length d)) as [H|H].
  - rewrite nth_error_app1 by exact H.
    destruct (nth_error d i) eqn:E; [reflexivity|].
    apply nth_error_None in E. lia.
  - rewrite (proj2 (nth_error_None d i)) by lia.
    rewrite nth_error_app2 by exact H.
    destruct (Nat.eqb_spec i (length d)) as [->|Hne].
    + now rewrite Nat.sub_diag.
    + destruct (i - length d)%nat as [|k] eqn:E; [lia|]. now destruct k.
Qed.

Lemma firstn_S_nth_error {A : Type} (l : list A) (n : nat) (c : A) :
  nth_error l n = Some c -> firstn (S n) l = firstn n l ++ [c].
Proof.
  revert l. induction n as [|n IH]; intros [|x l] H; try discriminate.
  - now inversion H.
  - cbn [nth_error] in H. cbn [firstn app]. f_equal. now apply IH.
Qed.

Lemma line_of_snoc (t : list byte) (c : byte) :
  line_of (t ++ [c]) = if is_newline c then line_of t + 1 else line_of t.
Proof.
  unfold line_of. rewrite filter_app, length_app. cbn [filter].
  destruct (is_newline c); cbn [length]; lia.
Qed.

Lemma col_of_snoc (t : list byte) (c : byte) :
  col_of (t ++ [c]) = if is_newline c then 1 else col_of t + 1.
Proof.
  unfold col_of. rewrite rev_app_distr. cbn [rev app until_newline].
  destruct (is_newline c); cbn [length]; lia.
Qed.

Lemma located_advance1 (p p' : parser) (u : unit) :
  located p -> advance1 p = Ok u p' -> located p' /\ data p' = data p.
Proof.
  intros [Hp [Hl Hc]]. unfold advance1. rewrite data_at_c_str.
  destruct (nth_error (c_str (data p)) (pos p)) as [c|] eqn:E; [|discriminate].
  assert (Hlt : (pos p < length (c_str (data p)))%nat).
  { apply nth_error_Some. congruence. }
  unfold c_str in Hlt. rewrite length_app in Hlt. cbn [length] in Hlt.
  pose proof (firstn_S_nth_error _ _ _ E) as F.
  pose proof (line_of_snoc (firstn (pos p) (c_str (data p))) c) as L.
  pose proof (col_of_snoc (firstn (pos p) (c_str (data p))) c) as C.
  unfold is_newline in L, C.
  destruct (code c =? 10); intros H; inversion H; subst; unfold located;
    cbn [data pos line col]; rewrite F; repeat split; try lia; congruence.
Qed.

Lemma located_JSONParser (d : list byte) : located (JSONParser d).
Proof.
  split; [cbn; lia|]. split; reflexivity.
Qed.

Lemma firstn_c_str (d : list byte) (n : nat) :
  (n <= length d)%nat -> firstn n (c_str d) = firstn n d.
Proof.
  intros H. unfold c_str. rewrite firstn_app.
  replace (n - length d)%nat with 0%nat by lia. apply app_nil_r.
Qed.

Lemma good_impl {A : Type} (Q Q' : A -> Prop) (p : parser) (r : presult A) :
  (forall a, Q a -> Q' a) -> good Q p r -> good Q' p r.
Proof.
  intros H. destruct r; cbn [good]; try tauto.
  intros [H1 [H2 H3]]. auto.
Qed.

Lemma tracks_impl {A : Type} (Q Q' : A -> Prop) (m : M A) :
  (forall a, Q a -> Q' a) -> tracks Q m -> tracks Q' m.
Proof.
  intros H Hm p Hp. apply (good_impl Q Q' p _ H), Hm, Hp.
Qed.

Lemma tracks_weaken {A : Type} (Q : A -> Prop) (m : M A) :
  tracks Q m -> tracks_here Q m.
Proof.
  intros H p Hp _. now apply H.
Qed.

Lemma tracks_ret {A : Type} (Q : A -> Prop) (a : A) : Q a -> tracks Q (ret a).
Proof.
  intros Ha p Hp. cbn. auto.
Qed.

Lemma tracks_out_of_fuel {A : Type} (Q : A -> Prop) : tracks Q out_of_fuel.
Proof.
  intros p Hp. exact I.
Qed.

Lemma tracks_bind {A B : Type} (Q1 : A -> Prop) (Q2 : B -> Prop) (m : M A)
    (k : A -> M B) :
  tracks Q1 m -> (forall a, Q1 a -> tracks Q2 (k a)) -> tracks Q2 (bind m k).
Proof.
  intros Hm Hk p Hp. specialize (Hm p Hp). unfold bind.
  destruct (m p) as [a p1|e| |]; cbn [good] in *; try exact I; [|exact Hm].
  destruct Hm as [H1 [H2 H3]]. specialize (Hk a H3 p1 H1).
  destruct (k a p1) as [b p2|e| |]; cbn [good] in *; try exact I.
  - destruct Hk as [K1 [K2 K3]]. split; [exact K1|]. split; [congruence | exact K3].
  - now rewrite <- H2.
Qed.

Lemma tracks_here_bind {A B : Type} (Q1 : A -> Prop) (Q2 : B -> Prop) (m : M A)
    (k : A -> M B) :
  tracks_here Q1 m -> (forall a, Q1 a -> tracks Q2 (k a)) ->
  tracks_here Q2 (bind m k).
Proof.
  intros Hm Hk p Hp Hh. specialize (Hm p Hp Hh). unfold bind.
  destruct (m p) as [a p1|e| |]; cbn [good] in *; try exact I; [|exact Hm].
  destruct Hm as [H1 [H2 H3]]. specialize (Hk a H3 p1 H1).
  destruct (k a p1) as [b p2|e| |]; cbn [good] in *; try exact I.
  - destruct Hk as [K1 [K2 K3]]. split; [exact K1|]. split; [congruence | exact K3].
  - now rewrite <- H2.
Qed.

(** After a read the cursor is on a byte of the buffer. *)
Lemma tracks_peek {A : Type} (Q : A -> Prop) (k : byte -> M A) :
  (forall c, tracks_here Q (k c)) -> tracks Q (bind peek k).
Proof.
  intros Hk p Hp. unfold bind, peek.
  destruct (data_at (data p) (pos p)) as [c|] eqn:E; [|exact I].
  apply (Hk c p Hp). now apply data_at_le in E.
Qed.

Lemma strncmp_eq_le (d : list byte) (i : nat) (lit : list byte) (b : bool) :
  lit <> [] -> strncmp_eq d i lit = Some b -> (i <= length d)%nat.
Proof.
  destruct lit as [|c lit]; [contradiction|]. intros _. cbn [strncmp_eq].
  destruct (data_at d i) eqn:E; [|discriminate]. intros _.
  now apply data_at_le in E.
Qed.

Lemma tracks_looking_at {A : Type} (Q : A -> Prop) (lit : list byte)
    (k : bool -> M A) :
  lit <> [] -> (forall b, tracks_here Q (k b)) ->
  tracks Q (bind (looking_at lit) k).
Proof.
  intros Hl Hk p Hp. unfold bind, looking_at.
  destruct (strncmp_eq (data p) (pos p) lit) as [b|] eqn:E; [|exact I].
  apply (Hk b p Hp). now apply strncmp_eq_le in E.
Qed.

Lemma tracks_here_looking_at {A : Type} (Q : A -> Prop) (lit : list byte)
    (k : bool -> M A) :
  (forall b, tracks_here Q (k b)) -> tracks_here Q (bind (looking_at lit) k).
Proof.
  intros Hk p Hp Hh. unfold bind, looking_at.
  destruct (strncmp_eq (data p) (pos p) lit) as [b|] eqn:E; [|exact I].
  apply (Hk b p Hp Hh).
Qed.

Lemma tracks_here_throwError {A : Type} (Q : A -> Prop) (message : list byte) :
  In message parser_messages -> tracks_here Q (throwError (A := A) message).
Proof.
  intros Hm p [Hp [Hl Hc]] Hh. cbn [throwError good positioned].
  exists message, (pos p). split; [exact Hm|]. split; [exact Hh|].
  unfold error_text. rewrite Hl, Hc. now rewrite firstn_c_str.
Qed.

(** A check that throws or goes on in the same state. *)
Lemma tracks_here_guard {A : Type} (Q : A -> Prop) (b : bool)
    (message : list byte) (k : M A) :
  In message parser_messages -> tracks_here Q k ->
  tracks_here Q (bind (if b then throwError message else ret tt) (fun _ => k)).
Proof.
  intros Hm Hk. destruct b.
  - intros p Hp Hh. apply (tracks_here_throwError (A := unit) (fun _ => True) message Hm p Hp Hh).
  - exact Hk.
Qed.

Lemma tracks_here_ret_bind {A B : Type} (Q : B -> Prop) (a : A) (k : A -> M B) :
  tracks_here Q (k a) -> tracks_here Q (bind (ret a) k).
Proof.
  intros H. exact H.
Qed.

Lemma tracks_advance1 : tracks (fun _ => True) advance1.
Proof.
  intros p Hp. destruct (advance1 p) as [u p'|e| |] eqn:E; cbn [good];
    try exact I.
  - destruct (located_advance1 p p' u Hp E). auto.
  - unfold advance1 in E. destruct (data_at (data p) (pos p)); [|discriminate].
    destruct (code b =? 10); discriminate.
Qed.

Lemma tracks_advance (n : nat) : tracks (fun _ => True) (advance n).
Proof.
  induction n as [|n IH]; cbn [advance].
  - now apply tracks_ret.
  - apply (tracks_bind (fun _ => True)); [apply tracks_advance1 | intros _ _; exact IH].
Qed.

Lemma tracks_skipWhitespace (fuel : nat) :
  tracks (fun _ => True) (skipWhitespace fuel).
Proof.
  induction fuel as [|f IH]; cbn [skipWhitespace]; [apply tracks_out_of_fuel|].
  apply tracks_peek. intros c. apply tracks_weaken.
  destruct (negb (code c =? 0) && isspace c).
  - apply (tracks_bind (fun _ => True)); [apply tracks_advance | intros _ _; exact IH].
  - now apply tracks_ret.
Qed.

Lemma tracks_skipDigits (fuel : nat) :
  tracks (fun _ => True) (skipDigits fuel).
Proof.
  induction fuel as [|f IH]; cbn [skipDigits]; [apply tracks_out_of_fuel|].
  apply tracks_peek. intros c. apply tracks_weaken.
  destruct (is_digit c).
  - apply (tracks_bind (fun _ => True)); [apply tracks_advance | intros _ _; exact IH].
  - now apply tracks_ret.
Qed.

Lemma in_parser_messages_3 :
  In (str "Invalid escape character in string") parser_messages.
Proof.
  right. right. left. reflexivity.
Qed.

Lemma tracks_parseString_loop (fuel : nat) :
  forall s, tracks (fun v => exists s', v = JString s') (parseString_loop fuel s).
Proof.
  induction fuel as [|f IH]; intros s; cbn [parseString_loop];
    [apply tracks_out_of_fuel|].
  apply tracks_peek. intros c. apply tracks_weaken.
  destruct (negb (code c =? 34)).
  - destruct (code c =? 92).
    + apply (tracks_bind (fun _ => True)); [apply tracks_advance|]. intros _ _.
      apply tracks_peek. intros e.
      assert (K : forall s', tracks_here (fun v => exists s', v = JString s')
                    (advance 1 ;; parseString_loop f s')).
      { intros s'. apply tracks_weaken.
        apply (tracks_bind (fun _ => True)); [apply tracks_advance|].
        intros _ _. apply IH. }
      repeat match goal with
             | |- tracks_here _ (bind (if ?b then _ else _) _) => destruct b
             | |- tracks_here _ (bind (ret _) _) =>
                 apply tracks_here_ret_bind; apply K
             end.
      intros p Hp Hh.
      apply (tracks_here_throwError (A := JSON) _ _ in_parser_messages_3 p Hp Hh).
    + apply (tracks_bind (fun _ => True)); [apply tracks_advance|]. intros _ _.
      apply IH.
  - apply (tracks_bind (fun _ => True)); [apply tracks_advance|]. intros _ _.
    apply tracks_ret. now exists s.
Qed.

Lemma tracks_parseString (fuel : nat) :
  tracks (fun v => exists s', v = JString s') (parseString fuel).
Proof.
  unfold parseString.
  apply (tracks_bind (fun _ => True)); [apply tracks_advance|]. intros _ _.
  apply tracks_parseString_loop.
Qed.

Lemma tracks_parseBoolean : tracks well_formed parseBoolean.
Proof.
  unfold parseBoolean. apply tracks_looking_at; [discriminate|]. intros t.
  destruct t.
  - apply tracks_weaken.
    apply (tracks_bind (fun _ => True)); [apply tracks_advance|]. intros _ _.
    now apply tracks_ret.
  - apply tracks_here_looking_at. intros f. destruct f.
    + apply tracks_weaken.
      apply (tracks_bind (fun _ => True)); [apply tracks_advance|]. intros _ _.
      now apply tracks_ret.
    + apply tracks_here_throwError. cbn. tauto.
Qed.

Lemma tracks_parseNull : tracks well_formed parseNull.
Proof.
  unfold parseNull. apply tracks_looking_at; [discriminate|]. intros n.
  destruct n.
  - apply tracks_weaken.
    apply (tracks_bind (fun _ => True)); [apply tracks_advance|]. intros _ _.
    now apply tracks_ret.
  - apply tracks_here_throwError. cbn. tauto.
Qed.

Lemma tracks_lift {A : Type} (Q : A -> Prop) (o : outcome A) :
  (forall a, o = Return a -> Q a) ->
  (forall what, o <> Raise (runtime_error what)) ->
  tracks Q (lift o).
Proof.
  intros HQ Hne p Hp. unfold lift. destruct o as [a|e|]; cbn [good].
  - auto.
  - destruct e; cbn [positioned]; try exact I. now destruct (Hne what).
  - exact I.
Qed.

Lemma stoi_in_range (s : list byte) (i : Z) :
  stoi s = Return i -> in_int_range i = true.
Proof.
  unfold stoi. destruct (split_sign (drop_space s)) as [neg rest].
  destruct (take_digits rest); [discriminate|]. cbv zeta.
  destruct (in_int_range _) eqn:E; [|discriminate].
  intros H. inversion H. subst. exact E.
Qed.

Lemma stoi_no_runtime_error (s : list byte) (what : list byte) :
  stoi s <> Raise (runtime_error what).
Proof.
  unfold stoi. destruct (split_sign (drop_space s)) as [neg rest].
  destruct (take_digits rest); [discriminate|]. cbv zeta.
  destruct (in_int_range _); discriminate.
Qed.

Lemma round_to_double_no_runtime_error (neg : bool) (num den : Z)
    (what : list byte) :
  round_to_double neg num den <> Raise (runtime_error what).
Proof.
  unfold round_to_double.
  destruct (scale2 num den (Z.log2 num - Z.log2 den - 52)) as [n0 d0].
  cbv zeta.
  destruct (scale2 num den _) as [n d].
  destruct (if round_half_even n d =? 2 ^ 53 then _ else _) as [q' e'].
  destruct (971 <? e'); [discriminate|].
  destruct ((q' <? 2 ^ 52) && _); [discriminate|].
  destruct q'; discriminate.
Qed.

Lemma stod_no_runtime_error (s : list byte) (what : list byte) :
  stod s <> Raise (runtime_error what).
Proof.
  unfold stod. destruct (split_sign (drop_space s)) as [neg rest]. cbv zeta.
  destruct (take_digits rest ++ _); [discriminate|].
  destruct (digits_value _ =? 0); [discriminate|].
  apply round_to_double_no_runtime_error.
Qed.

Lemma tracks_get_pos : tracks (fun _ => True) get_pos.
Proof.
  intros p Hp. cbn. auto.
Qed.

Lemma tracks_substring (start : nat) : tracks (fun _ => True) (substring start).
Proof.
  intros p Hp. cbn. auto.
Qed.

Lemma tracks_parseNumber (fuel : nat) : tracks well_formed (parseNumber fuel).
Proof.
  unfold parseNumber.
  apply (tracks_bind (fun _ => True)); [apply tracks_get_pos|]. intros start _.
  apply tracks_peek. intros c. apply tracks_weaken.
  apply (tracks_bind (fun _ => True)).
  { destruct (code c =? 45); [apply tracks_advance | now apply tracks_ret]. }
  intros _ _.
  apply (tracks_bind (fun _ => True)); [apply tracks_skipDigits|]. intros _ _.
  apply tracks_peek. intros c2. apply tracks_weaken.
  destruct (code c2 =? 46).
  - apply (tracks_bind (fun _ => True)); [apply tracks_advance|]. intros _ _.
    apply (tracks_bind (fun _ => True)); [apply tracks_skipDigits|]. intros _ _.
    apply (tracks_bind (fun _ => True)); [apply tracks_substring|]. intros text _.
    apply (tracks_bind (fun _ => True)).
    + apply tracks_lift; [trivial | apply stod_no_runtime_error].
    + intros d _. now apply tracks_ret.
  - apply (tracks_bind (fun _ => True)); [apply tracks_substring|]. intros text _.
    apply (tracks_bind (fun i => in_int_range i = true)).
    + apply tracks_lift; [apply stoi_in_range | apply stoi_no_runtime_error].
    + intros i Hi. now apply tracks_ret.
Qed.

Lemma well_formed_array (a : list JSON) :
  well_formed (JArray a) <-> Forall well_formed a.
Proof.
  cbn [well_formed]. induction a as [|x a IH].
  - split; [constructor | trivial].
  - split.
    + intros [Hx Ha]. constructor; [exact Hx | now apply IH].
    + intros H. inversion H; subst. split; [assumption | now apply IH].
Qed.

Lemma well_formed_object (o : map_t) :
  well_formed (JObject o)
  <-> map_sorted o /\ Forall (fun kv => well_formed (snd kv)) o.
Proof.
  cbn [well_formed]. apply and_iff_compat_l. induction o as [|[k x] o IH].
  - split; [constructor | trivial].
  - split.
    + intros [Hx Ho]. constructor; [exact Hx | now apply IH].
    + intros H. inversion H; subst. split; [assumption | now apply IH].
Qed.

Lemma map_set_Forall (P : JSON -> Prop) (k : list byte) (v : JSON) (m : map_t) :
  P v -> Forall (fun kv => P (snd kv)) m ->
  Forall (fun kv => P (snd kv)) (map_set k v m).
Proof.
  intros Hv. induction 1 as [|[k' v'] m Hx Hm IH]; cbn [map_set].
  - now constructor.
  - destruct (string_compare k k'); repeat constructor; assumption.
Qed.

Lemma well_formed_map_set (k : list byte) (v : JSON) (o : map_t) :
  well_formed v -> well_formed (JObject o) ->
  well_formed (JObject (map_set k v o)).
Proof.
  rewrite !well_formed_object. intros Hv [Hs Ho]. split.
  - now apply map_set_sorted.
  - now apply map_set_Forall.
Qed.

Lemma well_formed_push_back (arr : list JSON) (v : JSON) :
  well_formed v -> well_formed (JArray arr) -> well_formed (JArray (arr ++ [v])).
Proof.
  rewrite !well_formed_array. intros Hv Ha. apply Forall_app. split; [exact Ha|].
  now constructor.
Qed.

Lemma tracks_after_element (f : nat) :
  forall c, tracks (fun _ => True)
              (if code c =? 44 then advance 1 ;; skipWhitespace f else ret tt).
Proof.
  intros c. destruct (code c =? 44); [|now apply tracks_ret].
  apply (tracks_bind (fun _ => True)); [apply tracks_advance|]. intros _ _.
  apply tracks_skipWhitespace.
Qed.

Lemma tracks_productions (fuel : nat) :
  tracks well_formed (parseValue fuel) /\
  tracks well_formed (parseObject fuel) /\
  (forall obj, well_formed (JObject obj) ->
     tracks well_formed (parseObject_loop fuel obj)) /\
  tracks well_formed (parseArray fuel) /\
  (forall arr, well_formed (JArray arr) ->
     tracks well_formed (parseArray_loop fuel arr)).
Proof.
  induction fuel as [|f [IHV [IHO [IHOL [IHA IHAL]]]]].
  - repeat split; intros; apply tracks_out_of_fuel.
  - split; [|split; [|split; [|split]]];
      cbn [parseValue parseObject parseObject_loop parseArray parseArray_loop].
    + apply (tracks_bind (fun _ => True)); [apply tracks_skipWhitespace|].
      intros _ _. apply tracks_peek. intros ch.
      destruct (code ch =? 123); [now apply tracks_weaken|].
      destruct (code ch =? 91); [now apply tracks_weaken|].
      destruct (code ch =? 34).
      { apply tracks_weaken.
        apply (tracks_impl (fun v => exists s', v = JString s'));
          [|apply tracks_parseString].
        intros v [s' ->]. exact I. }
      destruct ((code ch =? 116) || (code ch =? 102));
        [apply tracks_weaken, tracks_parseBoolean|].
      destruct (code ch =? 110); [apply tracks_weaken, tracks_parseNull|].
      destruct ((code ch =? 45) || is_digit ch);
        [apply tracks_weaken, tracks_parseNumber|].
      apply tracks_here_throwError. cbn. tauto.
    + apply (tracks_bind (fun _ => True)); [apply tracks_advance|]. intros _ _.
      apply (tracks_bind (fun _ => True)); [apply tracks_skipWhitespace|].
      intros _ _. apply IHOL. cbn. auto.
    + intros obj Hobj. apply tracks_peek. intros c. apply tracks_weaken.
      destruct (negb (code c =? 125)).
      * apply (tracks_bind (fun v => exists s', v = JString s'));
          [apply tracks_parseString|].
        intros k [key ->].
        apply (tracks_bind (fun _ => True)); [now apply tracks_ret|].
        intros key' _.
        apply (tracks_bind (fun _ => True)); [apply tracks_skipWhitespace|].
        intros _ _. apply tracks_peek. intros c2.
        apply tracks_here_guard; [cbn; tauto|]. apply tracks_weaken.
        apply (tracks_bind (fun _ => True)); [apply tracks_advance|].
        intros _ _.
        apply (tracks_bind well_formed); [exact IHV|]. intros value Hvalue.
        apply (tracks_bind (fun _ => True)); [apply tracks_skipWhitespace|].
        intros _ _. apply tracks_peek. intros c3. apply tracks_weaken.
        apply (tracks_bind (fun _ => True)); [apply tracks_after_element|].
        intros _ _. apply IHOL. now apply well_formed_map_set.
      * apply (tracks_bind (fun _ => True)); [apply tracks_advance|].
        intros _ _. now apply tracks_ret.
    + apply (tracks_bind (fun _ => True)); [apply tracks_advance|]. intros _ _.
      apply (tracks_bind (fun _ => True)); [apply tracks_skipWhitespace|].
      intros _ _. apply IHAL. exact I.
    + intros arr Harr. apply tracks_peek. intros c. apply tracks_weaken.
      destruct (negb (code c =? 93)).
      * apply (tracks_bind well_formed); [exact IHV|]. intros value Hvalue.
        apply (tracks_bind (fun _ => True)); [apply tracks_skipWhitespace|].
        intros _ _. apply tracks_peek. intros c3. apply tracks_weaken.
        apply (tracks_bind (fun _ => True)); [apply tracks_after_element|].
        intros _ _. apply IHAL. now apply well_formed_push_back.
      * apply (tracks_bind (fun _ => True)); [apply tracks_advance|].
        intros _ _. now apply tracks_ret.
Qed.

Lemma tracks_parse_ (fuel : nat) : tracks well_formed (parse_ fuel).
Proof.
  unfold parse_.
  apply (tracks_bind (fun _ => True)); [apply tracks_skipWhitespace|].
  intros _ _. apply (tracks_productions fuel).
Qed.

(** X8: Every [std::runtime_error] that leaves [parse] is a syntax error of
    [throwError]: one of its five messages followed by the line and the
    column, counted from 1, of a position of the text (at the latest its
    end), the line being one more than the line breaks in front of the
    position and the column one more than the bytes between the last of
    them and the position. *)
Theorem runtime_errors_carry_line_and_column (d : list byte) (what : list byte) :
  parse d = Throw (runtime_error what) ->
  exists message n,
    In message parser_messages /\ (n <= length d)%nat /\
    what = message ++ str " at line " ++ dec_of_int (line_of (firstn n d))
             ++ str ", column " ++ dec_of_int (col_of (firstn n d)).
Proof.
  intros H.
  pose proof (tracks_parse_ (parse_fuel d) (JSONParser d) (located_JSONParser d))
    as G.
  unfold parse in H. rewrite H in G. exact G.
Qed.

Lemma runtime_errors_carry_line_and_column_witness :
  exists message n,
    In message parser_messages /\ (n <= length (x5b :: x0a :: str "1, ?"))%nat /\
    str "Unexpected character in JSON at line 2, column 4"
    = message ++ str " at line "
        ++ dec_of_int (line_of (firstn n (x5b :: x0a :: str "1, ?")))
        ++ str ", column "
        ++ dec_of_int (col_of (firstn n (x5b :: x0a :: str "1, ?"))).
Proof.
  apply (runtime_errors_carry_line_and_column (x5b :: x0a :: str "1, ?")).
  reflexivity.
Defined.

(** X9: Every value [parse] returns is well formed: its integers are in the
    range of [int] and, in every object at every depth, the keys are
    strictly increasing, so no key occurs twice.  The parser is then at a
    position of the buffer whose line and column it holds. *)
Theorem parsed_values_are_well_formed (d : list byte) (v : JSON) (p : parser) :
  parse d = Ok v p -> well_formed v /\ data p = d /\ located p.
Proof.
  intros H.
  pose proof (tracks_parse_ (parse_fuel d) (JSONParser d) (located_JSONParser d))
    as G.
  unfold parse in H. rewrite H in G. destruct G as [G1 [G2 G3]]. auto.
Qed.

Lemma parsed_values_are_well_formed_witness :
  well_formed (JObject [(str "a", JInteger 2); (str "b", JInteger 3)])
  /\ data (mk_parser unordered_object_text 19 1 20) = unordered_object_text
  /\ located (mk_parser unordered_object_text 19 1 20).
Proof.
  apply (parsed_values_are_well_formed unordered_object_text).
  reflexivity.
Defined.

(** ** Termination *)

(** X10: [parse] ends on every text: no loop of the parser goes on for ever
    inside the buffer.  With the fuel [parse] starts with, three units per
    byte and five more, the run ends in a value, an exception or a read
    beyond the buffer, and more fuel gives the same result. *)
Theorem parse_ends_on_every_text (d : list byte) :
  parse d <> OutOfFuel /\
  (forall f, (parse_fuel d <= f)%nat -> parse_ f (JSONParser d) = parse d).
Proof.
  split; [apply parse_terminates|]. intros f Hf.
  apply (refines_eq _ _ (parse__mono _ _ Hf (JSONParser d))).
  apply parse_terminates.
Qed.

Lemma parse_ends_on_every_text_witness :
  parse_ 100 (JSONParser (str "[1, [2, {}]]")) = parse (str "[1, [2, {}]]").
Proof.
  apply (proj2 (parse_ends_on_every_text (str "[1, [2, {}]]"))).
  vm_compute. lia.
Defined.

(** ** Doubles without fraction *)

(** X11: A double that [operator<<] writes like an integer, without point and
    exponent, comes back from the text of [dump] as an Integer: [get<int>()]
    then returns it and [get<double>()] throws "Not a double". *)
Theorem integral_double_comes_back_as_integer
    (cs : bool) (d : double) (i : Z) (indent : Z) :
  format_double d = dec_of_int i -> in_int_range i = true ->
  exists p,
    parse (dump cs (JDouble d) indent) = Ok (JInteger i) p
    /\ get_int (JInteger i) = Return i
    /\ JSONTypeTraits_double_get (JInteger i)
       = Raise (runtime_error (str "Not a double")).
Proof.
  intros Hd Hi.
  assert (E : dump cs (JDouble d) indent = dec_of_int i).
  { unfold dump. cbn [dumpValue put oss_str oss_new app]. exact Hd. }
  rewrite E.
  destruct (render_parses cs indent (JInteger i) Hi 0) as [Hp Hb].
  destruct (parse_text _ _ Hp Hb) as [p [Ep _]].
  exists p. repeat split. exact Ep.
Qed.

Lemma integral_double_comes_back_as_integer_witness :
  exists p,
    parse (dump false (JDouble double_one) 4) = Ok (JInteger 1) p
    /\ get_int (JInteger 1) = Return 1
    /\ JSONTypeTraits_double_get (JInteger 1)
       = Raise (runtime_error (str "Not a double")).
Proof.
  apply (integral_double_comes_back_as_integer false double_one 1 4);
    reflexivity.
Defined.

(** ** Objects in a text: order and repeated keys *)

Lemma render_items_ext {A : Type} (f g : A -> list byte) (mid last : list byte)
    (items : list A) :
  Forall (fun x => f x = g x) items ->
  render_items f mid last items = render_items g mid last items.
Proof.
  induction 1 as [|x r Hx Hr IH]; [reflexivity|].
  rewrite !render_items_cons, Hx. destruct r; [reflexivity|]. now rewrite IH.
Qed.

(** X12: The members of an object may come in any order in the text, and a key
    may come more than once: the object [parse] returns has its members in
    key order and holds, for every key, the value that comes last for it.
    The text is that of [dump] without indentation: the members between
    braces, separated by commas, each a key, a colon and a value. *)
Theorem parsed_members_are_sorted_and_last_wins
    (cs : bool) (members : list (list byte * JSON)) :
  Forall (fun kv => plain_string cs (fst kv) = true /\ round_trips cs (snd kv))
    members ->
  exists o p,
    parse (x7b :: render_items
                    (fun kv => quoted cs (fst kv) ++ x3a :: dump cs (snd kv) 0)
                    [x2c] [] members ++ [x7d])
    = Ok (JObject o) p
    /\ map_sorted o
    /\ (forall k, map_find k o = last_binding k members).
Proof.
  intros H.
  assert (Hall : Forall (fun kv => plain_string cs (fst kv) = true
                    /\ parses (render cs 0 0 (snd kv)) (snd kv)
                    /\ begins_value (render cs 0 0 (snd kv))) members).
  { eapply Forall_impl; [|exact H]. intros kv [Hk Hv]. split; [exact Hk|].
    apply (render_parses cs 0 (snd kv) Hv 0). }
  rewrite (render_items_ext _ (member_text cs [] (render cs 0 0))).
  - pose proof (parses_object [] [] [] [] cs (render cs 0 0) members
                  eq_refl eq_refl eq_refl eq_refl Hall) as Hp.
    destruct (parse_text _ _ Hp) as [p [Ep _]].
    { exists x7b. eexists. split; reflexivity. }
    exists (insert_all members []), p. split; [exact Ep|]. split.
    + apply fold_map_set_sorted. exact I.
    + intros k. unfold insert_all. rewrite fold_map_set_find.
      now destruct (last_binding k members).
  - eapply Forall_impl; [|exact H]. intros kv [_ Hv]. unfold member_text.
    cbn [app]. now rewrite (dump_render cs 0 (snd kv) Hv).
Qed.

Lemma parsed_members_are_sorted_and_last_wins_witness :
  exists o p,
    parse unordered_object_text = Ok (JObject o) p
    /\ map_sorted o
    /\ (forall k, map_find k o
                  = last_binding k [(str "b", JInteger 1); (str "a", JInteger 2);
                                    (str "b", JInteger 3)]).
Proof.
  apply (parsed_members_are_sorted_and_last_wins false
           [(str "b", JInteger 1); (str "a", JInteger 2); (str "b", JInteger 3)]).
  repeat constructor.
Defined.

(** ** What the parser lets pass *)

(** [parse] from the first byte of a value. *)
Lemma parse_from_parseValue (d : list byte) (f : nat) (r : presult JSON) :
  not_space (first_byte d) ->
  parseValue f (JSONParser d) = r -> r <> OutOfFuel -> parse d = r.
Proof.
  intros Hn Hr Hne. apply (parse_of_fuel d (S f)); [|exact Hne].
  assert (H : at_text (JSONParser d) d) by (split; [cbn; lia | reflexivity]).
  unfold parse_.
  rewrite (bind_of_Ok _ _ _ _ _ (skipWhitespace_stop f _ _ H Hn)).
  rewrite <- Hr. rewrite <- Hr in Hne.
  apply (refines_eq _ _ (proj1 (productions_mono f (S f) ltac:(lia)) _) Hne).
Qed.

Lemma ws_nonempty_ends_number (w next : list byte) :
  ws_text w = true -> w <> [] -> ends_number (first_byte (w ++ next)).
Proof.
  intros Hw Hne. destruct w as [|x w]; [contradiction|].
  cbn [ws_text forallb] in Hw. apply andb_true_iff in Hw. destruct Hw as [Hx _].
  exists x. split; [reflexivity|]. now apply isspace_ends_number.
Qed.

Section SpaceSeparated.

Variable w w' : list byte.
Hypothesis Hw : ws_text w = true.
Hypothesis Hw' : ws_text w' = true.
Hypothesis Hne : w <> [].

(** The loop of [parseArray] over elements with white space and no comma
    between them. *)
Lemma parseArray_loop_spaces (item : JSON -> list byte) (items : list JSON) :
  Forall (fun x => parses (item x) x /\ begins_value (item x)) items ->
  forall arr p rest,
    at_text p (render_items item w w' items ++ x5d :: rest) ->
    returns (fun f => parseArray_loop f arr) p (JArray (arr ++ items))
      (length (render_items item w w' items) + 1).
Proof.
  induction 1 as [|x r [Hx Bx] Hr IH]; intros arr p rest H.
  - exists 1%nat, (moved p 1). split; [|split; reflexivity].
    rewrite app_nil_r. apply (parseArray_loop_close 0 arr p rest). apply H.
  - rewrite render_items_split in *. rewrite <- !app_assoc in H.
    set (tail := render_items item w w' r ++ x5d :: rest) in *.
    destruct Bx as [c [l [Ec Hc]]].
    destruct (value_start_facts c Hc) as [Sc [Cb [_ _]]].
    assert (Ep : peek p = Ok c p).
    { rewrite Ec in H. apply (at_text_peek p c _ H). }
    assert (Ht : exists c0, first_byte tail = Some c0 /\ isspace c0 = false
                            /\ (code c0 =? 44) = false
                            /\ (r = [] -> c0 = x5d)).
    { unfold tail. destruct Hr as [|y r' [_ By] _].
      - exists x5d. repeat split.
      - destruct (render_items_begins item w w' y r' (x5d :: rest) By)
          as [cy [ly [Ey Hcy]]].
        rewrite Ey. exists cy. destruct (value_start_facts cy Hcy) as [? [? [? ?]]].
        repeat split; try assumption. discriminate. }
    destruct Ht as [c0 [Hc0 [Sc0 [Cc0 Hlast]]]].
    assert (Hsep : ws_text (separator w w' r) = true).
    { destruct r; assumption. }
    assert (En : ends_number (first_byte (separator w w' r ++ tail))).
    { destruct r as [|y r'].
      - apply (ws_head_ends_number w' tail x5d Hw');
          [rewrite Hc0, Hlast | | ]; try reflexivity. discriminate.
      - now apply ws_nonempty_ends_number. }
    destruct (Hx p _ H En) as [f1 Hf1].
    destruct (Hf1 f1 (le_n _)) as [p1 [E1 A1]].
    pose proof (at_text_advanced p p1 _ _ H A1) as H1.
    destruct (after_last_element (separator w w' r) tail c0 p1
                (S (length (separator w w' r))) Hsep H1 Hc0 Sc0 Cc0 ltac:(lia))
      as [p2 [E2 A2]].
    pose proof (at_text_advanced p1 p2 _ _ H1 A2) as H2.
    destruct (IH (arr ++ [x]) p2 rest H2) as [f3 [p3 [E3 A3]]].
    remember (max f1 (max (S (length (separator w w' r))) f3)) as F eqn:EF.
    exists (S F), p3. split.
    + rewrite (parseArray_loop_turn F arr p p1 p2 c x Ep Cb
                 (raise_fuel _ _ _ _
                    (proj1 (productions_mono f1 F ltac:(lia)) p) E1)
                 (raise_fuel _ _ _ _
                    (after_element_mono (S (length (separator w w' r))) F
                       ltac:(lia) p1) E2)).
      rewrite <- app_assoc in E3.
      apply (raise_fuel _ _ _ _
               (proj2 (proj2 (proj2 (proj2 (productions_mono f3 F ltac:(lia)))))
                  (arr ++ [x]) p2) E3).
    + apply (advanced_eq p p3 _ _
               (advanced_trans p p1 _ _ _ A1
                  (advanced_trans p1 p2 _ _ _ A2 A3))).
      rewrite !length_app. lia.
Qed.

End SpaceSeparated.

(** X13: The commas between the elements of an array are optional: elements
    separated by white space only are read as the same array.  The elements
    are the texts of [dump] without indentation. *)
Theorem commas_between_elements_are_optional
    (cs : bool) (vs : list JSON) (w : list byte) :
  ws_text w = true -> w <> [] -> Forall (round_trips cs) vs ->
  exists p,
    parse (x5b :: render_items (fun x => dump cs x 0) w [] vs ++ [x5d])
    = Ok (JArray vs) p.
Proof.
  intros Hw Hne Hvs.
  assert (Hall : Forall (fun x => parses (render cs 0 0 x) x
                                  /\ begins_value (render cs 0 0 x)) vs).
  { eapply Forall_impl; [|exact Hvs]. intros x Hx.
    apply (render_parses cs 0 x Hx 0). }
  rewrite (render_items_ext _ (render cs 0 0));
    [|eapply Forall_impl; [|exact Hvs]; intros x Hx; now apply dump_render].
  set (d := x5b :: render_items (render cs 0 0) w [] vs ++ [x5d]).
  assert (H : at_text (JSONParser d) d) by (split; [cbn; lia | reflexivity]).
  destruct (at_text_advance1 _ _ _ H) as [p1 [E1 A1]].
  pose proof (at_text_advanced _ p1 [x5b] _ H A1) as H1.
  destruct (parseArray_loop_spaces w [] Hw eq_refl Hne (render cs 0 0) vs Hall
              [] p1 [] H1) as [f3 [p3 [E3 A3]]].
  exists p3.
  apply (parse_from_parseValue d (S (S (S f3))));
    [exists x5b; split; reflexivity | | discriminate].
  rewrite (parseValue_begin (S f3) _ x5b _ H eq_refl).
  change (parseArray (S (S f3)) (JSONParser d) = Ok (JArray vs) p3).
  cbn [parseArray]. rewrite (bind_of_Ok _ _ _ _ _ E1).
  assert (Hn : not_space (first_byte (render_items (render cs 0 0) w [] vs
                                        ++ [x5d]))).
  { destruct Hall as [|x r [_ Bx] _].
    - exists x5d. split; reflexivity.
    - destruct (render_items_begins (render cs 0 0) w [] x r [x5d] Bx)
        as [c [l [E Hc]]].
      rewrite E. exists c. split; [reflexivity|].
      apply (value_start_facts c Hc). }
  rewrite (bind_of_Ok _ _ _ _ _ (skipWhitespace_stop f3 p1 _ H1 Hn)).
  apply (raise_fuel _ _ _ _
           (proj2 (proj2 (proj2 (proj2 (productions_mono f3 (S f3) ltac:(lia)))))
              [] p1) E3).
Qed.

Lemma commas_between_elements_are_optional_witness :
  exists p, parse (str "[1 true [] 2]")
            = Ok (JArray [JInteger 1; JBoolean true; JArray []; JInteger 2]) p.
Proof.
  apply (commas_between_elements_are_optional false
           [JInteger 1; JBoolean true; JArray []; JInteger 2] [x20]).
  - reflexivity.
  - discriminate.
  - repeat constructor.
Defined.

(** X14: [parseObject] does not look at the byte a key begins with: any byte
    that is no white space and no closing brace is taken for the opening
    quote.  The member with the key [k] and the value [v] is read the same
    with any such byte [c] in the place of the quote. *)
Theorem opening_quote_of_a_key_is_not_checked
    (cs : bool) (c : byte) (k : list byte) (v : JSON) :
  isspace c = false -> code c <> 125 ->
  plain_string cs k = true -> round_trips cs v ->
  exists p,
    parse (x7b :: c :: flat_map (escape_char cs) k ++ x22 :: x3a
               :: dump cs v 0 ++ [x7d])
    = Ok (JObject [(k, v)]) p.
Proof.
  intros Sc Cc Hk Hv. rewrite (dump_render cs 0 v Hv).
  destruct (render_parses cs 0 v Hv 0) as [Hp Hb].
  set (d := x7b :: c :: flat_map (escape_char cs) k ++ x22 :: x3a
                :: render cs 0 0 v ++ [x7d]).
  assert (H : at_text (JSONParser d) d) by (split; [cbn; lia | reflexivity]).
  destruct (at_text_advance1 _ _ _ H) as [p1 [E1 A1]].
  pose proof (at_text_advanced _ p1 [x7b] _ H A1) as H1.
  destruct (at_text_advance1 _ _ _ H1) as [p2 [E2 A2]].
  pose proof (at_text_advanced _ p2 [c] _ H1 A2) as H2.
  destruct (parseString_loop_text cs k Hk [] p2 _
              (S (length (flat_map (escape_char cs) k))) H2 ltac:(lia))
    as [p3 [E3 A3]].
  assert (H3 : at_text p3 (x3a :: render cs 0 0 v ++ [x7d])).
  { apply (at_text_advanced p2 p3 (flat_map (escape_char cs) k ++ [x22])).
    - rewrite <- app_assoc. exact H2.
    - rewrite length_app. exact A3. }
  destruct (at_text_advance1 _ _ _ H3) as [p4 [E4 A4]].
  pose proof (at_text_advanced _ p4 [x3a] _ H3 A4) as H4.
  destruct (Hp p4 [x7d] H4) as [f5 Hf5].
  { exists x7d. repeat split. discriminate. }
  destruct (Hf5 f5 (le_n _)) as [p5 [E5 A5]].
  pose proof (at_text_advanced _ p5 _ _ H4 A5) as H5.
  destruct (after_last_element [] [x7d] x7d p5 1 eq_refl H5 eq_refl eq_refl
              eq_refl ltac:(cbn; lia)) as [p6 [E6 A6]].
  pose proof (at_text_advanced _ p6 [] _ H5 A6) as H6.
  remember (max (S (length (flat_map (escape_char cs) k))) f5) as F eqn:EF.
  exists (moved p6 1).
  apply (parse_from_parseValue d (S (S (S (S F)))));
    [exists x7b; split; reflexivity | | discriminate].
  rewrite (parseValue_begin (S (S F)) _ x7b _ H eq_refl).
  change (parseObject (S (S (S F))) (JSONParser d)
          = Ok (JObject [(k, v)]) (moved p6 1)).
  cbn [parseObject]. rewrite (bind_of_Ok _ _ _ _ _ E1).
  rewrite (bind_of_Ok _ _ _ _ _
             (skipWhitespace_stop (S F) p1 _ H1
                (ex_intro _ c (conj eq_refl Sc)))).
  assert (Es : parseString (S F) p1 = Ok (JString k) p3).
  { unfold parseString. rewrite (bind_of_Ok _ _ _ _ _ E2).
    apply (raise_fuel _ _ _ _
             (parseString_loop_mono
                (S (length (flat_map (escape_char cs) k))) (S F)
                ltac:(lia) [] p2) E3). }
  rewrite (parseObject_loop_turn (S F) [] p1 p3 p4 p5 p6 c k v
             (at_text_peek p1 c _ H1)
             ltac:(apply Z.eqb_neq; exact Cc)
             Es
             (skipWhitespace_stop F p3 _ H3
                (ex_intro _ x3a (conj eq_refl eq_refl)))
             (at_text_peek p3 x3a _ H3) E4
             (raise_fuel _ _ _ _
                (proj1 (productions_mono f5 (S F) ltac:(lia)) p4) E5)
             (raise_fuel _ _ _ _
                (after_element_mono 1 (S F) ltac:(lia) p5) E6)).
  apply (parseObject_loop_close F _ p6 []). apply H6.
Qed.

Lemma opening_quote_of_a_key_is_not_checked_witness :
  exists p, parse (x7b :: str "?key" ++ x22 :: str ":1}")
            = Ok (JObject [(str "key", JInteger 1)]) p.
Proof.
  apply (opening_quote_of_a_key_is_not_checked false x3f (str "key") (JInteger 1));
    try reflexivity. discriminate.
Defined.

(** ** Integer literals *)

Lemma parseNumber_int_run (neg : bool) (ds rest : list byte) (p : parser)
    (f : nat) :
  forallb is_digit ds = true -> ds <> [] ->
  at_text p (((if neg then [x2d] else []) ++ ds) ++ rest) ->
  ends_number (first_byte rest) ->
  (length ds < f)%nat ->
  exists p',
    advanced p (length ((if neg then [x2d] else []) ++ ds)) p'
    /\ parseNumber f p
       = match stoi ((if neg then [x2d] else []) ++ ds) with
         | Return i => Ok (JInteger i) p'
         | Raise e => Throw e
         | UndefinedBehaviour => Undefined
         end.
Proof.
  intros Hd Hne H [c2 [Hc2 [Dc2 Pc2]]] Hf.
  pose proof H as H0. rewrite <- app_assoc in H.
  destruct (sign_step neg ds rest p Hd Hne H) as [c [p1 [Ec [E1 A1]]]].
  pose proof (at_text_advanced p p1 _ _ H A1) as H1.
  destruct (skipDigits_text ds Hd p1 rest f H1
              (ex_intro _ c2 (conj Hc2 Dc2)) Hf) as [p2 [E2 A2]].
  pose proof (at_text_advanced p1 p2 _ _ H1 A2) as H2.
  pose proof (advanced_trans p p1 p2 _ _ A1 A2) as A.
  rewrite <- length_app in A.
  exists p2. split; [exact A|].
  unfold parseNumber.
  rewrite (bind_of_Ok get_pos _ p (pos p) p) by reflexivity.
  rewrite (bind_of_Ok _ _ _ _ _ Ec), (bind_of_Ok _ _ _ _ _ E1),
    (bind_of_Ok _ _ _ _ _ E2).
  rewrite (bind_of_Ok peek _ p2 c2 p2)
    by (apply peek_Ok; split; [reflexivity|];
        now rewrite (at_text_data_at p2 _ H2)).
  destruct (Z.eqb_spec (code c2) 46); [contradiction|].
  rewrite (bind_of_Ok _ _ _ _ _ (substring_text p p2 _ rest H0 A)).
  unfold bind, lift. now destruct (stoi _).
Qed.

(** X15: A run of decimal digits, with or without a minus sign in front, is read
    as the Integer it writes when that is in the range of [int], leading
    zeros included; when it is not, [std::out_of_range] of [std::stoi]
    leaves [parse], and no syntax error. *)
Theorem integer_literals (neg : bool) (ds : list byte) :
  forallb is_digit ds = true -> ds <> [] ->
  let text := (if neg then [x2d] else []) ++ ds in
  let v := if neg then - digits_value ds else digits_value ds in
  (in_int_range v = true ->
   exists p, parse text = Ok (JInteger v) p /\ pos p = length text) /\
  (in_int_range v = false -> parse text = Throw out_of_range).
Proof.
  intros Hd Hne. cbv zeta.
  assert (H : at_text (JSONParser ((if neg then [x2d] else []) ++ ds)) (((if neg then [x2d] else []) ++ ds) ++ [])).
  { split; [cbn; lia | now rewrite app_nil_r]. }
  destruct (parseNumber_int_run neg ds [] (JSONParser ((if neg then [x2d] else []) ++ ds)) (S (length ds))
              Hd Hne H) as [p' [A E]].
  { exists x00. repeat split. discriminate. }
  { lia. }
  rewrite (stoi_digits neg ds Hd Hne) in E. cbv zeta in E.
  destruct (signed_digits_head neg ds [] Hd Hne) as [c [l [Ec Hc]]].
  rewrite app_nil_r in Ec, H.
  assert (Hn : not_space (first_byte ((if neg then [x2d] else []) ++ ds))).
  { rewrite Ec. exists c. split; [reflexivity|].
    destruct Hc as [Hc|Hc]; [|now apply is_digit_not_space].
    unfold isspace. rewrite Hc. reflexivity. }
  assert (Ev : parseValue (S (S (length ds))) (JSONParser ((if neg then [x2d] else []) ++ ds))
               = parseNumber (S (length ds)) (JSONParser ((if neg then [x2d] else []) ++ ds))).
  { apply (parseValue_number _ _ c l); [|exact Hc]. now rewrite <- Ec. }
  split; intros Hr; rewrite Hr in E.
  - exists p'. split; [|apply A].
    apply (parse_from_parseValue _ (S (S (length ds))) _ Hn); [|discriminate].
    congruence.
  - apply (parse_from_parseValue _ (S (S (length ds))) _ Hn); [|discriminate].
    congruence.
Qed.

Lemma integer_literals_witness :
  (exists p, parse (str "-007") = Ok (JInteger (-7)) p /\ pos p = 4%nat) /\
  parse (str "2147483648") = Throw out_of_range.
Proof.
  split.
  - apply (proj1 (integer_literals true (str "007") eq_refl ltac:(discriminate))).
    reflexivity.
  - apply (proj2 (integer_literals false (str "2147483648") eq_refl
                    ltac:(discriminate))).
    reflexivity.
Defined.

(** ** Containers left open, and control characters *)

Lemma bind_of_Throw {A B : Type} (m : M A) (k : A -> M B) (p : parser) (e : exn) :
  m p = Throw e -> bind m k p = Throw e.
Proof.
  unfold bind. now intros ->.
Qed.

Lemma bind_of_Undefined {A B : Type} (m : M A) (k : A -> M B) (p : parser) :
  m p = Undefined -> bind m k p = Undefined.
Proof.
  unfold bind. now intros ->.
Qed.

Lemma located_after {A : Type} (Q : A -> Prop) (m : M A) (p p' : parser) (a : A) :
  tracks Q m -> located p -> m p = Ok a p' -> located p'.
Proof.
  intros Hm Hp E. specialize (Hm p Hp). rewrite E in Hm. apply Hm.
Qed.

Lemma throwError_located {A : Type} (message : list byte) (p : parser) :
  located p -> (pos p <= length (data p))%nat ->
  throwError (A := A) message p
  = Throw (runtime_error (error_text message (data p) (pos p))).
Proof.
  intros [_ [Hl Hc]] Hh. unfold throwError, error_text.
  now rewrite Hl, Hc, firstn_c_str.
Qed.

Lemma at_text_end_peek (p : parser) : at_text p [] -> peek p = Ok x00 p.
Proof.
  intros H. apply peek_Ok. split; [reflexivity|].
  now rewrite (at_text_data_at p [] H).
Qed.

(** The state after the opening bracket or brace and white space up to the
    end of the text. *)
Lemma open_container (c : byte) (w : list byte) :
  ws_text w = true ->
  exists p1 p2,
    advance 1 (JSONParser (c :: w)) = Ok tt p1
    /\ (forall f, (length w < f)%nat -> skipWhitespace f p1 = Ok tt p2)
    /\ at_text p2 [] /\ located p2 /\ data p2 = c :: w
    /\ pos p2 = length (c :: w).
Proof.
  intros Hw. set (d := c :: w).
  assert (H : at_text (JSONParser d) d) by (split; [cbn; lia | reflexivity]).
  destruct (at_text_advance1 _ _ _ H) as [p1 [E1 A1]].
  pose proof (at_text_advanced _ p1 [c] _ H A1) as H1.
  assert (Hn : not_space (first_byte [])) by (exists x00; split; reflexivity).
  rewrite <- (app_nil_r w) in H1.
  destruct (skipWhitespace_text w Hw p1 [] (S (length w)) H1 Hn ltac:(lia))
    as [p2 [E2 A2]].
  pose proof (at_text_advanced _ p2 _ _ H1 A2) as H2.
  exists p1, p2. split; [exact E1|]. split; [|split; [exact H2|split; [|split]]].
  - intros f Hf.
    apply (raise_fuel _ _ _ _
             (skipWhitespace_mono (S (length w)) f ltac:(lia) p1) E2).
  - apply (located_after _ _ p1 p2 tt (tracks_skipWhitespace (S (length w))));
      [|exact E2].
    apply (located_after _ _ _ p1 tt (tracks_advance 1) (located_JSONParser d) E1).
  - destruct A1 as [D1 _], A2 as [D2 _]. rewrite D2, D1. reflexivity.
  - destruct A1 as [_ P1], A2 as [_ P2]. rewrite P2, P1. cbn. lia.
Qed.

(** X16: An array left open at the end of the text, after white space or none, is
    a syntax error at the end of the text.  An object left open there is
    not: looking for a key, [parseString] steps over the terminating zero
    and reads the byte behind the buffer. *)
Theorem open_array_throws_open_object_overruns (w : list byte) :
  ws_text w = true ->
  parse (x5b :: w)
  = Throw (runtime_error
             (error_text (str "Unexpected character in JSON") (x5b :: w)
                (length (x5b :: w)))) /\
  parse (x7b :: w) = Undefined.
Proof.
  intros Hw. split.
  - destruct (open_container x5b w Hw) as [p1 [p2 [E1 [E2 [H2 [L2 [D2 P2]]]]]]].
    set (d := x5b :: w) in *.
    assert (H : at_text (JSONParser d) d) by (split; [cbn; lia | reflexivity]).
    apply (parse_from_parseValue d (S (S (S (S (S (length w)))))));
      [exists x5b; split; reflexivity | | discriminate].
    rewrite (parseValue_begin _ _ x5b _ H eq_refl).
    change (parseArray (S (S (S (S (length w))))) (JSONParser d) = Throw
              (runtime_error (error_text (str "Unexpected character in JSON") d
                                (length d)))).
    cbn [parseArray]. rewrite (bind_of_Ok _ _ _ _ _ E1).
    rewrite (bind_of_Ok _ _ _ _ _ (E2 (S (S (S (length w)))) ltac:(lia))).
    cbn [parseArray_loop].
    rewrite (bind_of_Ok _ _ _ _ _ (at_text_end_peek p2 H2)).
    change (negb (code x00 =? 93)) with true. cbv iota.
    apply bind_of_Throw. cbn [parseValue].
    rewrite (bind_of_Ok _ _ _ _ _
               (skipWhitespace_stop _ p2 [] H2
                  (ex_intro _ x00 (conj eq_refl eq_refl)))).
    rewrite (bind_of_Ok _ _ _ _ _ (at_text_end_peek p2 H2)).
    change (code x00 =? 123) with false. change (code x00 =? 91) with false.
    change (code x00 =? 34) with false.
    change ((code x00 =? 116) || (code x00 =? 102)) with false.
    change (code x00 =? 110) with false.
    change ((code x00 =? 45) || is_digit x00) with false. cbv iota.
    rewrite (throwError_located _ p2 L2) by (rewrite D2, P2; lia).
    now rewrite D2, P2.
  - destruct (open_container x7b w Hw) as [p1 [p2 [E1 [E2 [H2 [L2 [D2 P2]]]]]]].
    set (d := x7b :: w) in *.
    assert (H : at_text (JSONParser d) d) by (split; [cbn; lia | reflexivity]).
    apply (parse_from_parseValue d (S (S (S (S (S (length w)))))));
      [exists x7b; split; reflexivity | | discriminate].
    rewrite (parseValue_begin _ _ x7b _ H eq_refl).
    change (parseObject (S (S (S (S (length w))))) (JSONParser d) = Undefined).
    cbn [parseObject]. rewrite (bind_of_Ok _ _ _ _ _ E1).
    rewrite (bind_of_Ok _ _ _ _ _ (E2 (S (S (S (length w)))) ltac:(lia))).
    cbn [parseObject_loop].
    rewrite (bind_of_Ok _ _ _ _ _ (at_text_end_peek p2 H2)).
    change (negb (code x00 =? 125)) with true. cbv iota.
    apply bind_of_Undefined. unfold parseString.
    assert (E3 : advance 1 p2
                 = Ok tt (mk_parser (data p2) (S (pos p2)) (line p2) (col p2 + 1))).
    { rewrite advance_1. unfold advance1.
      now rewrite (at_text_data_at p2 [] H2). }
    rewrite (bind_of_Ok _ _ _ _ _ E3). cbn [parseString_loop].
    apply bind_of_Undefined. unfold peek. cbn [data pos].
    rewrite data_at_beyond; [reflexivity|]. rewrite D2, P2. lia.
Qed.

Lemma open_array_throws_open_object_overruns_witness :
  parse (x5b :: x0a :: str "  ")
  = Throw (runtime_error (str "Unexpected character in JSON at line 2, column 3"))
  /\ parse (x7b :: x0a :: str "  ") = Undefined.
Proof.
  apply (open_array_throws_open_object_overruns (x0a :: str "  ")).
  reflexivity.
Defined.

Lemma escape_char_u (cs : bool) (ch : byte) :
  plain_char cs ch = false -> exists t, escape_char cs ch = x5c :: x75 :: t.
Proof.
  unfold plain_char, two_char_escape, escape_char, dumpChar. cbn [existsb].
  destruct (code ch =? 34); [discriminate|].
  destruct (code ch =? 92); [discriminate|].
  destruct (code ch =? 8); [discriminate|].
  destruct (code ch =? 12); [discriminate|].
  destruct (code ch =? 10); [discriminate|].
  destruct (code ch =? 13); [discriminate|].
  destruct (code ch =? 9); [discriminate|].
  cbn [orb]. intros H. apply negb_false_iff in H. rewrite H.
  eexists. reflexivity.
Qed.

Lemma is_newline_eqb (c : byte) : is_newline c = Byte.eqb c x0a.
Proof.
  destruct c; reflexivity.
Qed.

Lemma no_newline_filter (t : list byte) :
  no_newline t -> filter is_newline t = [].
Proof.
  unfold no_newline. induction t as [|c t IH]; cbn [forallb filter]; [reflexivity|].
  intros H. apply andb_true_iff in H. destruct H as [Hc Ht].
  rewrite is_newline_eqb. apply negb_true_iff in Hc. rewrite Hc. now apply IH.
Qed.

Lemma until_newline_all (t : list byte) :
  no_newline t -> until_newline t = t.
Proof.
  unfold no_newline. induction t as [|c t IH]; cbn [forallb until_newline];
    [reflexivity|].
  intros H. apply andb_true_iff in H. destruct H as [Hc Ht].
  rewrite is_newline_eqb. apply negb_true_iff in Hc. rewrite Hc.
  now rewrite IH.
Qed.

Lemma no_newline_rev (t : list byte) : no_newline t -> no_newline (rev t).
Proof.
  unfold no_newline. rewrite !forallb_forall. intros H c Hc.
  apply H. now apply in_rev.
Qed.

Lemma no_newline_firstn (n : nat) (t : list byte) :
  no_newline t -> no_newline (firstn n t).
Proof.
  intros H. rewrite <- (firstn_skipn n t) in H.
  now apply no_newline_app in H.
Qed.

(** In a text without line break every position is on line 1, in the
    column after the bytes in front of it. *)
Lemma position_on_first_line (t : list byte) :
  no_newline t -> line_of t = 1 /\ col_of t = 1 + Z.of_nat (length t).
Proof.
  intros H. unfold line_of, col_of.
  rewrite (no_newline_filter t H), (until_newline_all _ (no_newline_rev t H)).
  now rewrite length_rev.
Qed.

Lemma parseString_loop_prefix (cs : bool) (s : list byte) :
  plain_string cs s = true ->
  forall acc p rest f,
    located p ->
    at_text p (flat_map (escape_char cs) s ++ rest) ->
    exists p',
      advanced p (length (flat_map (escape_char cs) s)) p'
      /\ located p'
      /\ parseString_loop (length s + f) acc p = parseString_loop f (acc ++ s) p'.
Proof.
  induction s as [|c s IH]; intros Hs acc p rest f Lp H.
  - exists p. split; [apply advanced_refl|]. split; [exact Lp|].
    now rewrite app_nil_r.
  - cbn [plain_string forallb] in Hs. apply andb_true_iff in Hs.
    destruct Hs as [Hc Hs].
    cbn [flat_map length Nat.add] in *. rewrite <- app_assoc in H.
    rewrite length_app.
    destruct (escape_char_plain cs c Hc) as [[E [Q B]]|[e [E U]]]; rewrite E in *.
    + cbn [parseString_loop].
      rewrite (bind_of_Ok _ _ _ _ _ (at_text_peek p _ _ H)).
      rewrite Q, B. cbn [negb].
      destruct (at_text_advance1 p _ _ H) as [p1 [E1 A1]].
      rewrite (bind_of_Ok _ _ _ _ _ E1).
      pose proof (at_text_advanced p p1 [c] _ H A1) as H1.
      pose proof (located_after _ _ _ _ _ (tracks_advance 1) Lp E1) as L1.
      destruct (IH Hs (acc ++ [c]) p1 rest f L1 H1) as [p2 [A2 [L2 E2]]].
      exists p2. split; [|split; [exact L2|]].
      * apply (advanced_trans p p1 p2 _ _ A1 A2).
      * rewrite E2. now rewrite <- app_assoc.
    + cbn [parseString_loop].
      rewrite (bind_of_Ok _ _ _ _ _ (at_text_peek p _ _ H)).
      change (negb (code x5c =? 34)) with true.
      change (code x5c =? 92) with true. cbv iota.
      destruct (at_text_advance1 p _ _ H) as [p1 [E1 A1]].
      rewrite (bind_of_Ok _ _ _ _ _ E1).
      pose proof (at_text_advanced p p1 [x5c] _ H A1) as H1.
      pose proof (located_after _ _ _ _ _ (tracks_advance 1) Lp E1) as L1.
      rewrite (bind_of_Ok _ _ _ _ _ (at_text_peek p1 _ _ H1)).
      rewrite escape_step, U.
      destruct (at_text_advance1 p1 _ _ H1) as [p2 [E2 A2]].
      rewrite (bind_of_Ok _ _ _ _ _ E2).
      pose proof (at_text_advanced p1 p2 [e] _ H1 A2) as H2.
      pose proof (located_after _ _ _ _ _ (tracks_advance 1) L1 E2) as L2.
      destruct (IH Hs (acc ++ [c]) p2 rest f L2 H2) as [p3 [A3 [L3 E3]]].
      exists p3. split; [|split; [exact L3|]].
      * apply (advanced_trans p p1 p3 _ _ A1 (advanced_trans p1 p2 p3 _ _ A2 A3)).
      * rewrite E3. now rewrite <- app_assoc.
Qed.

(** X17: A string with a control character does not survive the round trip:
    [dump] writes the character as a [u] escape, which [parseString] does
    not know, so parsing the text of [dump] throws the syntax error
    "Invalid escape character in string", at the [u] of the first such
    escape. *)
Theorem control_characters_do_not_read_back
    (cs : bool) (pre : list byte) (ch : byte) (post : list byte) (indent : Z) :
  plain_string cs pre = true -> plain_char cs ch = false ->
  parse (dump cs (JString (pre ++ ch :: post)) indent)
  = Throw (runtime_error
             (str "Invalid escape character in string at line 1, column "
                ++ dec_of_int
                     (Z.of_nat (length (flat_map (escape_char cs) pre)) + 3))).
Proof.
  intros Hpre Hch.
  assert (Ed : dump cs (JString (pre ++ ch :: post)) indent
               = quoted cs (pre ++ ch :: post)).
  { unfold dump. cbn [dumpValue]. now rewrite dumpString_str. }
  assert (Nd : no_newline (quoted cs (pre ++ ch :: post))).
  { unfold quoted. apply (no_newline_app [x22]). split; [reflexivity|].
    apply no_newline_app. split; [apply flat_map_no_newline | reflexivity]. }
  rewrite Ed. destruct (escape_char_u cs ch Hch) as [t Et].
  remember (quoted cs (pre ++ ch :: post)) as d eqn:Dd.
  assert (Sd : d = x22 :: flat_map (escape_char cs) pre
                     ++ x5c :: x75 :: t ++ flat_map (escape_char cs) post ++ [x22]).
  { rewrite Dd. unfold quoted. rewrite flat_map_app. cbn [flat_map].
    rewrite Et. rewrite <- !app_assoc. reflexivity. }
  assert (H : at_text (JSONParser d) d) by (split; [cbn; lia | reflexivity]).
  rewrite Sd in H at 2.
  destruct (at_text_advance1 _ _ _ H) as [p1 [E1 A1]].
  pose proof (at_text_advanced _ p1 [x22] _ H A1) as H1.
  pose proof (located_after _ _ _ _ _ (tracks_advance 1)
                (located_JSONParser d) E1) as L1.
  destruct (parseString_loop_prefix cs pre Hpre [] p1 _ 2 L1 H1)
    as [p2 [A2 [L2 E2]]].
  pose proof (at_text_advanced _ p2 _ _ H1 A2) as H2.
  destruct (at_text_advance1 _ _ _ H2) as [p3 [E3 A3]].
  pose proof (at_text_advanced _ p3 [x5c] _ H2 A3) as H3.
  pose proof (located_after _ _ _ _ _ (tracks_advance 1) L2 E3) as L3.
  assert (P3 : pos p3 = (length (flat_map (escape_char cs) pre) + 2)%nat).
  { destruct A1 as [_ P1], A2 as [_ P2], A3 as [_ Q3].
    rewrite Q3, P2, P1. cbn. lia. }
  assert (D3 : data p3 = d).
  { destruct A1 as [D1 _], A2 as [D2 _], A3 as [Q3 _].
    rewrite Q3, D2, D1. reflexivity. }
  assert (Hlen : (pos p3 <= length d)%nat).
  { pose proof (at_text_length p3 _ H3) as L. rewrite D3 in L. lia. }
  apply (parse_from_parseValue d (S (S (length pre + 1))));
    [rewrite Sd; exists x22; split; reflexivity | | discriminate].
  rewrite (parseValue_begin _ _ x22 _ H eq_refl).
  change (parseString (S (length pre + 1)) (JSONParser d) = Throw
            (runtime_error
               (str "Invalid escape character in string at line 1, column "
                  ++ dec_of_int
                       (Z.of_nat (length (flat_map (escape_char cs) pre)) + 3)))).
  unfold parseString. rewrite (bind_of_Ok _ _ _ _ _ E1).
  replace (S (length pre + 1)) with (length pre + 2)%nat by lia.
  rewrite E2. cbn [parseString_loop].
  rewrite (bind_of_Ok _ _ _ _ _ (at_text_peek p2 _ _ H2)).
  change (negb (code x5c =? 34)) with true.
  change (code x5c =? 92) with true. cbv iota.
  rewrite (bind_of_Ok _ _ _ _ _ E3).
  rewrite (bind_of_Ok _ _ _ _ _ (at_text_peek p3 _ _ H3)).
  rewrite escape_step. change (unescape x75) with (@None byte). cbv iota.
  rewrite (throwError_located _ p3 L3) by (rewrite D3; exact Hlen).
  rewrite D3, P3.
  unfold error_text.
  destruct (position_on_first_line _
              (no_newline_firstn (length (flat_map (escape_char cs) pre) + 2)
                 d Nd)) as [Hl Hc].
  rewrite Hl, Hc, length_firstn, Nat.min_l by lia.
  replace (1 + Z.of_nat (length (flat_map (escape_char cs) pre) + 2))
    with (Z.of_nat (length (flat_map (escape_char cs) pre)) + 3) by lia.
  reflexivity.
Qed.

Lemma control_characters_do_not_read_back_witness :
  parse (dump false (JString (str "ab" ++ [x01] ++ str "c")) 4)
  = Throw (runtime_error
             (str "Invalid escape character in string at line 1, column 5")).
Proof.
  apply (control_characters_do_not_read_back false (str "ab") x01 (str "c") 4);
    reflexivity.
Defined.

(** X18: An infinite double is written as [inf] or [-inf], which is no JSON
    and does not read back: on [inf] the parser throws the syntax error
    "Unexpected character in JSON" at line 1, column 1, and on [-inf] the
    [std::invalid_argument] of [std::stoi] leaves [parse]. *)
Theorem infinite_doubles_do_not_read_back (cs : bool) (s : bool) (indent : Z) :
  dump cs (JDouble (S754_infinity s)) indent
  = (if s then str "-inf" else str "inf") /\
  parse (dump cs (JDouble (S754_infinity s)) indent)
  = (if s then Throw invalid_argument
     else Throw (runtime_error
                   (str "Unexpected character in JSON at line 1, column 1"))).
Proof.
  destruct s; split; reflexivity.
Qed.
